(** * MCP host integration layer: a shallow embedding of the TypeScript core

    Sources embedded here:
    - [src/mcp/security.ts]   (PermissionGuard, matchGlob, AuditLog)
    - [src/mcp/manifest.ts]   (ManifestManager)
    - [src/mcp/transport.ts]  (StdioTransport.handleData)
    - [src/mcp/protocol.ts]   (MCPProtocol: request, handleMessage, timers)
    - [src/mcp/server-manager.ts] (ServerManager)

    Conventions.  A JavaScript string is a [string]: each [ascii] stands for
    one UTF-16 code unit in the range U+0000..U+00FF.  A JavaScript integer
    number is a [Z].  A function that can throw returns an [outcome].
    Asynchronous methods are modelled at the granularity of the event loop:
    one callback (or one awaited call whose environment outcome is given as
    an argument) is one atomic step. *)

From Stdlib Require Import List String Ascii ZArith NArith Bool Lia Arith.
From Stdlib Require Import DecimalString Permutation Sorted.
Set Warnings "-register-all".
Import ListNotations.
Local Open Scope string_scope.
Local Open Scope Z_scope.

(* ===================================================================== *)
(** * Part I.  Definitions                                                 *)
(* ===================================================================== *)

(** ** JavaScript values that throw *)

Inductive outcome (A : Type) : Type :=
| Ret (a : A)
| Throw (message : string).
Arguments Ret {A} a.
Arguments Throw {A} message.

(** ** JavaScript built-ins used by the sources *)

Module JS.

(** The double-quote character, written through its code. *)
Definition dquote : string := String (ascii_of_nat 34) EmptyString.

(** [String(n)] / template interpolation of a non-negative integer. *)
Definition string_of_N (n : N) : string := NilZero.string_of_uint (N.to_uint n).

(** The same for an integer. *)
Definition string_of_Z (z : Z) : string := NilZero.string_of_int (Z.to_int z).

(** [String.prototype.toLowerCase] on code units U+0000..U+00FF: A-Z and
    the Latin-1 capitals U+00C0..U+00DE (except the multiplication sign
    U+00D7) move up by 32; every other code unit is unchanged. *)
Definition is_upper (c : ascii) : bool :=
  let n := N_of_ascii c in
  ((65 <=? n) && (n <=? 90) || (192 <=? n) && (n <=? 222) && negb (n =? 215))%N.

Definition lower_char (c : ascii) : ascii :=
  if is_upper c then ascii_of_N (N_of_ascii c + 32) else c.

Fixpoint toLowerCase (s : string) : string :=
  match s with
  | EmptyString => EmptyString
  | String c r => String (lower_char c) (toLowerCase r)
  end.

(** [s.includes(sub)]. *)
Fixpoint includes (s sub : string) : bool :=
  if prefix sub s then true
  else match s with
       | EmptyString => false
       | String _ r => includes r sub
       end.

(** [s.indexOf(c)] for a one-character needle: the first index, or -1. *)
Fixpoint indexOf (s : string) (c : ascii) : Z :=
  match s with
  | EmptyString => -1
  | String d r =>
      if Ascii.eqb d c then 0
      else let i := indexOf r c in if i =? -1 then -1 else i + 1
  end.

(** The relative-index rule shared by [Array.prototype.slice] and
    [String.prototype.slice]: a negative index counts from the end and is
    clamped at 0, a non-negative one is clamped at the length.  [-0] is the
    integer 0, as [ToIntegerOrInfinity] makes it. *)
Definition relative_index (len i : Z) : Z :=
  if i <? 0 then Z.max (len + i) 0 else Z.min i len.

(** [arr.slice(start)]. *)
Definition slice {A : Type} (l : list A) (start : Z) : list A :=
  skipn (Z.to_nat (relative_index (Z.of_nat (List.length l)) start)) l.

(** [s.slice(start, end)]; [None] is an omitted [end]. *)
Definition str_slice (s : string) (start : Z) (stop : option Z) : string :=
  let len := Z.of_nat (String.length s) in
  let from := relative_index len start in
  let to := match stop with None => len | Some e => relative_index len e end in
  substring (Z.to_nat from) (Z.to_nat (Z.max (to - from) 0)) s.

(** [s.split(sep)] for a one-character separator: never the empty list. *)
Fixpoint split (sep : ascii) (s : string) : list string :=
  match s with
  | EmptyString => [EmptyString]
  | String c r =>
      if Ascii.eqb c sep then EmptyString :: split sep r
      else match split sep r with
           | [] => [String c EmptyString]
           | h :: t => String c h :: t
           end
  end.

(** White space and line terminators removed by [trim], among the code
    units U+0000..U+00FF: TAB, LF, VT, FF, CR, SP and NBSP. *)
Definition is_space (c : ascii) : bool :=
  let n := N_of_ascii c in
  ((9 <=? n) && (n <=? 13) || (n =? 32) || (n =? 160))%N.

Fixpoint trimStart (s : string) : string :=
  match s with
  | EmptyString => EmptyString
  | String c r => if is_space c then trimStart r else s
  end.

Fixpoint trimEnd (s : string) : string :=
  match s with
  | EmptyString => EmptyString
  | String c r =>
      match trimEnd r with
      | EmptyString => if is_space c then EmptyString else String c EmptyString
      | r' => String c r'
      end
  end.

Definition trim (s : string) : string := trimEnd (trimStart s).

(** Line feed, the framing separator. *)
Definition LF : ascii := ascii_of_nat 10.

End JS.

(** ** Ordinary objects used as string-keyed records

    An object is represented by its own enumerable data properties in
    creation order; keys are unique.  [define] is [CreateDataProperty]
    (object literals, [JSON.parse]); [assign] is the assignment [o[k] = v]
    on an object whose prototype is [Object.prototype], where the key
    [__proto__] reaches the inherited accessor and creates no own property.
    [entries] is [Object.entries]: array-index keys first, in ascending
    numeric order, then the other keys in creation order
    (OrdinaryOwnPropertyKeys). *)

Module JSObject.

Definition t (V : Type) : Type := list (string * V).

Fixpoint get {V} (k : string) (o : t V) : option V :=
  match o with
  | [] => None
  | (k', v) :: r => if String.eqb k k' then Some v else get k r
  end.

Fixpoint define {V} (k : string) (v : V) (o : t V) : t V :=
  match o with
  | [] => [(k, v)]
  | (k', v') :: r =>
      if String.eqb k k' then (k', v) :: r else (k', v') :: define k v r
  end.

Definition assign {V} (k : string) (v : V) (o : t V) : t V :=
  if String.eqb k "__proto__" then o else define k v o.

(** The numeric value of a decimal digit string, most significant first. *)
Definition digit_value (c : ascii) : option N :=
  let n := N_of_ascii c in
  if ((48 <=? n) && (n <=? 57))%N then Some (n - 48)%N else None.

Fixpoint digits_value (acc : N) (s : string) : option N :=
  match s with
  | EmptyString => Some acc
  | String c r =>
      match digit_value c with
      | Some d => digits_value (acc * 10 + d)%N r
      | None => None
      end
  end.

(** An array index is a canonical numeric string (no sign, no leading zero
    unless it is "0") whose value is below 2^32 - 1. *)
Definition array_index (k : string) : option N :=
  match k with
  | EmptyString => None
  | String c r =>
      if Ascii.eqb c "0" && negb (String.eqb r EmptyString) then None
      else match digits_value 0 k with
           | Some n => if (n <? 4294967295)%N then Some n else None
           | None => None
           end
  end.

(** Insertion into a list of indexed properties ordered by index. *)
Fixpoint insert_indexed {V} (n : N) (p : string * V)
  (l : list (N * (string * V))) : list (N * (string * V)) :=
  match l with
  | [] => [(n, p)]
  | (m, q) :: r =>
      if (n <? m)%N then (n, p) :: l else (m, q) :: insert_indexed n p r
  end.

Fixpoint indexed_entries {V} (o : t V) : list (N * (string * V)) :=
  match o with
  | [] => []
  | (k, v) :: r =>
      match array_index k with
      | Some n => insert_indexed n (k, v) (indexed_entries r)
      | None => indexed_entries r
      end
  end.

Definition named_entries {V} (o : t V) : list (string * V) :=
  filter (fun p => match array_index (fst p) with Some _ => false | None => true end) o.

Definition entries {V} (o : t V) : list (string * V) :=
  map snd (indexed_entries o) ++ named_entries o.

(** [delete o[k]]: the own property of that key is removed. *)
Fixpoint delete {V} (k : string) (o : t V) : t V :=
  match o with
  | [] => []
  | (k', v') :: r => if String.eqb k k' then delete k r else (k', v') :: delete k r
  end.

(** [{ ...o }]: the own properties copied in the order of [entries], each by
    [CreateDataProperty]. *)
Definition spread {V} (o : t V) : t V :=
  fold_left (fun acc kv => define (fst kv) (snd kv) acc) (entries o) [].

(** The own property names of [Object.prototype], which every ordinary
    object inherits. *)
Definition OBJECT_PROTOTYPE_MEMBERS : list string :=
  ["constructor"; "__defineGetter__"; "__defineSetter__"; "hasOwnProperty";
   "__lookupGetter__"; "__lookupSetter__"; "isPrototypeOf"; "propertyIsEnumerable";
   "toString"; "valueOf"; "__proto__"; "toLocaleString"].

Definition inherited (k : string) : bool :=
  existsb (String.eqb k) OBJECT_PROTOTYPE_MEMBERS.

(** [o[k] = v] on an object that may have an own property [__proto__]
    (a spread copies one): an own [__proto__] is a data property and is
    written like any other; without one the assignment reaches the setter of
    [Object.prototype] and creates no property. *)
Definition put {V} (k : string) (v : V) (o : t V) : t V :=
  if String.eqb k "__proto__"
  then match get k o with
       | Some _ => define k v o
       | None => o
       end
  else define k v o.

(** [k in o] for an object whose prototype is [Object.prototype]. *)
Definition has_property {V} (k : string) (o : t V) : bool :=
  match get k o with
  | Some _ => true
  | None => inherited k
  end.

End JSObject.

(** ** JSON values and an executable [JSON.parse]

    [value] is what [JSON.parse] can return.  Functions of the sources that
    call [JSON.parse] take the parser as a section variable
    ([string -> option value], [None] when it throws a SyntaxError), so
    their theorems hold for the built-in whatever it does; [parse] below is
    an executable instance used to run them on concrete texts.  It follows
    the JSON grammar; a number keeps its lexeme; an escape [\uXXXX] above
    U+00FF, which the Latin-1 string model cannot hold, is refused. *)

Module Json.

Inductive value : Type :=
| JNull
| JBool (b : bool)
| JNumber (lexeme : string)
| JString (s : string)
| JArray (items : list value)
| JObject (members : JSObject.t value).

Definition is_ws (c : ascii) : bool :=
  let n := N_of_ascii c in ((n =? 32) || (n =? 9) || (n =? 10) || (n =? 13))%N.

Fixpoint skip_ws (s : string) : string :=
  match s with
  | EmptyString => EmptyString
  | String c r => if is_ws c then skip_ws r else s
  end.

Definition is_digit (c : ascii) : bool :=
  let n := N_of_ascii c in ((48 <=? n) && (n <=? 57))%N.

Fixpoint take_digits (s : string) : string * string :=
  match s with
  | EmptyString => (EmptyString, EmptyString)
  | String c r =>
      if is_digit c then let (d, r') := take_digits r in (String c d, r')
      else (EmptyString, s)
  end.

(** A number: an optional minus sign, an integer part without a leading
    zero, an optional fraction and an optional exponent. *)
Definition parse_int (s : string) : option (string * string) :=
  match s with
  | String c r =>
      if Ascii.eqb c "0" then Some ("0", r)
      else if is_digit c then let (d, r') := take_digits r in Some (String c d, r')
      else None
  | EmptyString => None
  end.

Definition parse_frac (s : string) : option (string * string) :=
  match s with
  | String "." r =>
      match take_digits r with
      | (EmptyString, _) => None
      | (d, r') => Some (String "." d, r')
      end
  | _ => Some (EmptyString, s)
  end.

Definition parse_exp (s : string) : option (string * string) :=
  match s with
  | String c r =>
      if Ascii.eqb c "e" || Ascii.eqb c "E" then
        let (sign, r1) :=
          match r with
          | String "+" r1 => ("+", r1)
          | String "-" r1 => ("-", r1)
          | _ => (EmptyString, r)
          end in
        match take_digits r1 with
        | (EmptyString, _) => None
        | (d, r') => Some (String c (sign ++ d), r')
        end
      else Some (EmptyString, s)
  | EmptyString => Some (EmptyString, s)
  end.

Definition parse_number (s : string) : option (string * string) :=
  let (sign, s1) := match s with String "-" r => ("-", r) | _ => (EmptyString, s) end in
  match parse_int s1 with
  | None => None
  | Some (i, s2) =>
      match parse_frac s2 with
      | None => None
      | Some (f, s3) =>
          match parse_exp s3 with
          | None => None
          | Some (e, s4) => Some (sign ++ i ++ f ++ e, s4)
          end
      end
  end.

Definition hex_value (c : ascii) : option N :=
  let n := N_of_ascii c in
  if ((48 <=? n) && (n <=? 57))%N then Some (n - 48)%N
  else if ((65 <=? n) && (n <=? 70))%N then Some (n - 55)%N
  else if ((97 <=? n) && (n <=? 102))%N then Some (n - 87)%N
  else None.

Definition hex4 (a b c d : ascii) : option N :=
  match hex_value a, hex_value b, hex_value c, hex_value d with
  | Some x, Some y, Some z, Some w => Some (((x * 16 + y) * 16 + z) * 16 + w)%N
  | _, _, _, _ => None
  end.

Definition simple_escape (e : ascii) : option ascii :=
  let n := N_of_ascii e in
  if (n =? 34)%N || (n =? 92)%N || (n =? 47)%N then Some e
  else if (n =? 98)%N then Some (ascii_of_nat 8)
  else if (n =? 102)%N then Some (ascii_of_nat 12)
  else if (n =? 110)%N then Some (ascii_of_nat 10)
  else if (n =? 114)%N then Some (ascii_of_nat 13)
  else if (n =? 116)%N then Some (ascii_of_nat 9)
  else None.

(** The characters of a string literal after its opening quote, up to and
    including the closing quote. *)
Fixpoint parse_chars (s : string) : option (string * string) :=
  match s with
  | EmptyString => None
  | String c r =>
      if (N_of_ascii c =? 34)%N then Some (EmptyString, r)
      else if (N_of_ascii c =? 92)%N then
        match r with
        | String "u" (String h1 (String h2 (String h3 (String h4 r')))) =>
            match hex4 h1 h2 h3 h4 with
            | Some n =>
                if (n <? 256)%N then
                  match parse_chars r' with
                  | Some (t, rest) => Some (String (ascii_of_N n) t, rest)
                  | None => None
                  end
                else None
            | None => None
            end
        | String e r' =>
            match simple_escape e with
            | Some x =>
                match parse_chars r' with
                | Some (t, rest) => Some (String x t, rest)
                | None => None
                end
            | None => None
            end
        | EmptyString => None
        end
      else if (N_of_ascii c <? 32)%N then None
      else match parse_chars r with
           | Some (t, rest) => Some (String c t, rest)
           | None => None
           end
  end.

Definition strip_prefix (p s : string) : option string :=
  if prefix p s then Some (substring (String.length p) (String.length s - String.length p) s)
  else None.

Fixpoint parse_value (fuel : nat) (s : string) : option (value * string) :=
  match fuel with
  | O => None
  | S f =>
      match skip_ws s with
      | EmptyString => None
      | String c r as s' =>
          if (N_of_ascii c =? 34)%N then
            match parse_chars r with
            | Some (t, rest) => Some (JString t, rest)
            | None => None
            end
          else if Ascii.eqb c "[" then
            match skip_ws r with
            | String "]" rest => Some (JArray [], rest)
            | r' => parse_elements f r' []
            end
          else if Ascii.eqb c "{" then
            match skip_ws r with
            | String "}" rest => Some (JObject [], rest)
            | r' => parse_members f r' []
            end
          else if Ascii.eqb c "n" then
            option_map (pair JNull) (strip_prefix "null" s')
          else if Ascii.eqb c "t" then
            option_map (pair (JBool true)) (strip_prefix "true" s')
          else if Ascii.eqb c "f" then
            option_map (pair (JBool false)) (strip_prefix "false" s')
          else
            match parse_number s' with
            | Some (lexeme, rest) => Some (JNumber lexeme, rest)
            | None => None
            end
      end
  end
with parse_elements (fuel : nat) (s : string) (acc : list value) : option (value * string) :=
  match fuel with
  | O => None
  | S f =>
      match parse_value f s with
      | Some (v, r) =>
          match skip_ws r with
          | String "," r' => parse_elements f r' (acc ++ [v])
          | String "]" r' => Some (JArray (acc ++ [v]), r')
          | _ => None
          end
      | None => None
      end
  end
with parse_members (fuel : nat) (s : string) (acc : JSObject.t value) : option (value * string) :=
  match fuel with
  | O => None
  | S f =>
      match skip_ws s with
      | String c r =>
          if (N_of_ascii c =? 34)%N then
            match parse_chars r with
            | Some (k, r1) =>
                match skip_ws r1 with
                | String ":" r2 =>
                    match parse_value f r2 with
                    | Some (v, r3) =>
                        match skip_ws r3 with
                        | String "," r4 => parse_members f r4 (JSObject.define k v acc)
                        | String "}" r4 => Some (JObject (JSObject.define k v acc), r4)
                        | _ => None
                        end
                    | None => None
                    end
                | _ => None
                end
            | None => None
            end
          else None
      | EmptyString => None
      end
  end.

(** The whole text must be one value, white space around it allowed. *)
Definition parse (s : string) : option value :=
  match parse_value (2 * String.length s + 2) s with
  | Some (v, r) =>
      match skip_ws r with
      | EmptyString => Some v
      | _ => None
      end
  | None => None
  end.

End Json.

(** ** security.ts: permission guard *)

Module PermissionGuard.

Inductive PermissionScope : Type := read | write | execute | network.

Definition scope_eqb (a b : PermissionScope) : bool :=
  match a, b with
  | read, read | write, write | execute, execute | network, network => true
  | _, _ => false
  end.

Definition scope_name (s : PermissionScope) : string :=
  match s with
  | read => "read" | write => "write" | execute => "execute" | network => "network"
  end.

Record ToolPermission : Type := {
  tool : string;
  allow : bool;
  scopes : option (list PermissionScope)
}.

Record PermissionCheckResult : Type := {
  allowed : bool;
  reason : option string
}.

(** *** [RegExp] on the sources [matchGlob] builds

    [matchGlob] escapes the characters [. + ^ $ { } ( ) | [ ] \] with a
    backslash, turns each [*] into [.*] and wraps the result in [^...$].
    The regular expressions it can build are therefore sequences of
    assertions [^] [$], escaped syntax characters, ordinary characters and
    [.], each atom optionally followed by a quantifier [*] [+] [?] and a
    lazy mark [?].  [compile] parses exactly this fragment, with the
    SyntaxError the engine raises for a quantifier that has nothing to
    repeat; a construct outside the fragment is [Unsupported]
    (never reached from [matchGlob], see [glob_source_supported]). *)

Inductive atom : Type :=
| AChar (c : ascii)
| ADot.

Inductive quantifier : Type := QOne | QOpt | QStar | QPlus.

Inductive term : Type :=
| TStart
| TEnd
| TAtom (a : atom) (q : quantifier).

Inductive compiled : Type :=
| Compiled (ts : list term)
| SyntaxError (why : string)
| Unsupported.

(** What the parser has read of the current term. *)
Inductive pending : Type :=
| PNone
| PAssert (t : term)
| PAtom (a : atom)
| PQuant (a : atom) (q : quantifier)
| PLazy (a : atom) (q : quantifier).

Definition flush (p : pending) (acc : list term) : list term :=
  match p with
  | PNone => acc
  | PAssert t => t :: acc
  | PAtom a => TAtom a QOne :: acc
  | PQuant a q => TAtom a q :: acc
  | PLazy a q => TAtom a q :: acc
  end.

Definition mem_char (c : ascii) (set : string) : bool :=
  existsb (Ascii.eqb c) (list_ascii_of_string set).

(** SyntaxCharacter of the RegExp grammar. *)
Definition is_syntax_char (c : ascii) : bool := mem_char c "^$\.*+?()[]{}|".

Definition nothing_to_repeat : string := "Nothing to repeat".

Fixpoint compile (p : pending) (acc : list term) (s : string) : compiled :=
  match s with
  | EmptyString => Compiled (rev (flush p acc))
  | String c r =>
      if Ascii.eqb c "\" then
        match r with
        | EmptyString => SyntaxError "\ at end of pattern"
        | String e r' =>
            if is_syntax_char e then compile (PAtom (AChar e)) (flush p acc) r'
            else Unsupported
        end
      else if Ascii.eqb c "^" then compile (PAssert TStart) (flush p acc) r
      else if Ascii.eqb c "$" then compile (PAssert TEnd) (flush p acc) r
      else if Ascii.eqb c "." then compile (PAtom ADot) (flush p acc) r
      else if Ascii.eqb c "*" then
        match p with
        | PAtom a => compile (PQuant a QStar) acc r
        | _ => SyntaxError nothing_to_repeat
        end
      else if Ascii.eqb c "+" then
        match p with
        | PAtom a => compile (PQuant a QPlus) acc r
        | _ => SyntaxError nothing_to_repeat
        end
      else if Ascii.eqb c "?" then
        match p with
        | PAtom a => compile (PQuant a QOpt) acc r
        | PQuant a q => compile (PLazy a q) acc r
        | _ => SyntaxError nothing_to_repeat
        end
      else if mem_char c "()[]{}|" then Unsupported
      else compile (PAtom (AChar c)) (flush p acc) r
  end.

(** [new RegExp(source)]. *)
Definition RegExp (source : string) : compiled := compile PNone [] source.

(** [.] matches any code unit but a line terminator (LF, CR). *)
Definition atom_matches (a : atom) (c : ascii) : bool :=
  match a with
  | AChar d => Ascii.eqb c d
  | ADot => negb (Ascii.eqb c (ascii_of_nat 10) || Ascii.eqb c (ascii_of_nat 13))
  end.

(** [match_here ts at_start s]: the terms [ts] match a prefix of [s];
    [at_start] tells whether [s] begins at index 0 of the input.  Greedy and
    lazy quantifiers accept the same inputs, so the search order is not
    modelled. *)
Fixpoint match_here (ts : list term) (at_start : bool) (s : string) {struct ts} : bool :=
  match ts with
  | [] => true
  | TStart :: ts' => at_start && match_here ts' at_start s
  | TEnd :: ts' =>
      match s with
      | EmptyString => match_here ts' at_start s
      | String _ _ => false
      end
  | TAtom a q :: ts' =>
      let one (k : bool -> string -> bool) (s0 : string) : bool :=
        match s0 with
        | EmptyString => false
        | String c r => atom_matches a c && k false r
        end in
      let star :=
        fix star (st : bool) (s0 : string) {struct s0} : bool :=
          match_here ts' st s0
          || match s0 with
             | EmptyString => false
             | String c r => atom_matches a c && star false r
             end in
      match q with
      | QOne => one (match_here ts') s
      | QOpt => one (match_here ts') s || match_here ts' at_start s
      | QStar => star at_start s
      | QPlus => one star s
      end
  end.

(** [regex.test(value)] for a regular expression without flags: a match may
    begin at any index. *)
Fixpoint search (ts : list term) (at_start : bool) (s : string) : bool :=
  match_here ts at_start s
  || match s with
     | EmptyString => false
     | String _ r => search ts false r
     end.

Definition test (ts : list term) (value : string) : bool := search ts true value.

(** *** [matchGlob] *)

(** [pattern.replace(/[.+^${}()|[\]\\]/g, '\\$&')] *)
Definition is_escaped (c : ascii) : bool := mem_char c ".+^${}()|[]\".

Fixpoint escape_meta (pattern : string) : string :=
  match pattern with
  | EmptyString => EmptyString
  | String c r =>
      if is_escaped c then String "\" (String c (escape_meta r))
      else String c (escape_meta r)
  end.

(** [.replace(/\*/g, '.*')] *)
Fixpoint replace_star (s : string) : string :=
  match s with
  | EmptyString => EmptyString
  | String c r =>
      if Ascii.eqb c "*" then String "." (String "*" (replace_star r))
      else String c (replace_star r)
  end.

Definition glob_source (pattern : string) : string :=
  "^" ++ replace_star (escape_meta pattern) ++ "$".

Definition matchGlob (pattern value : string) : outcome bool :=
  match RegExp (glob_source pattern) with
  | Compiled ts => Ret (test ts value)
  | SyntaxError why =>
      Throw ("Invalid regular expression: /" ++ glob_source pattern ++ "/: " ++ why)
  | Unsupported => Throw "unsupported regular expression"
  end.

(** *** The guard *)

Record t : Type := {
  rules : list ToolPermission;
  serverAllowlist : option (list string)
}.

Definition new : t := {| rules := []; serverAllowlist := None |}.

Definition loadRules (g : t) (permissions : list ToolPermission) : t :=
  {| rules := permissions; serverAllowlist := serverAllowlist g |}.

(** [arr.find(pred)] for a predicate that may throw. *)
Fixpoint find_throwing {A} (pred : A -> outcome bool) (l : list A) : outcome (option A) :=
  match l with
  | [] => Ret None
  | x :: r =>
      match pred x with
      | Throw m => Throw m
      | Ret true => Ret (Some x)
      | Ret false => find_throwing pred r
      end
  end.

Definition findMatchingRule (g : t) (toolName : string) : outcome (option ToolPermission) :=
  match find (fun r => String.eqb (tool r) toolName) (rules g) with
  | Some exact => Ret (Some exact)
  | None =>
      match find_throwing (fun r => matchGlob (tool r) toolName)
              (filter (fun r => JS.includes (tool r) "*") (rules g)) with
      | Throw m => Throw m
      | Ret (Some globMatch) => Ret (Some globMatch)
      | Ret None => Ret (find (fun r => String.eqb (tool r) "*") (rules g))
      end
  end.

(** [arr.join(', ')] *)
Fixpoint join (sep : string) (l : list string) : string :=
  match l with
  | [] => EmptyString
  | [x] => x
  | x :: r => x ++ sep ++ join sep r
  end.

Definition quoted (s : string) : string := JS.dquote ++ s ++ JS.dquote.

Definition checkToolPermission (g : t) (toolName : string)
  (requiredScopes : option (list PermissionScope)) : outcome PermissionCheckResult :=
  if (List.length (rules g) =? 0)%nat then Ret {| allowed := true; reason := None |}
  else
    match findMatchingRule g toolName with
    | Throw m => Throw m
    | Ret None =>
        Ret {| allowed := false;
               reason := Some ("No permission rule matches tool " ++ quoted toolName) |}
    | Ret (Some m) =>
        if negb (allow m) then
          Ret {| allowed := false;
                 reason := Some ("Tool " ++ quoted toolName ++ " is explicitly denied") |}
        else
          match requiredScopes, scopes m with
          | Some required, Some granted =>
              let missingScopes :=
                filter (fun s => negb (existsb (scope_eqb s) granted)) required in
              if ((0 <? List.length required) && (0 <? List.length missingScopes))%nat then
                Ret {| allowed := false;
                       reason := Some ("Tool " ++ quoted toolName ++ " missing scopes: "
                                       ++ join ", " (map scope_name missingScopes)) |}
              else Ret {| allowed := true; reason := None |}
          | _, _ => Ret {| allowed := true; reason := None |}
          end
    end.

(** [setServerAllowlist(servers)]; the [Set] is represented by the list it
    is built from. *)
Definition setServerAllowlist (g : t) (servers : option (list string)) : t :=
  {| rules := rules g; serverAllowlist := servers |}.

Definition isServerAllowed (g : t) (name : string) : PermissionCheckResult :=
  match serverAllowlist g with
  | None => {| allowed := true; reason := None |}
  | Some allowlist =>
      if existsb (String.eqb name) allowlist then {| allowed := true; reason := None |}
      else {| allowed := false;
              reason := Some ("Server " ++ quoted name ++ " is not in the allowlist") |}
  end.

(** Glob semantics as the specification words it, kept apart from the code
    for comparison with [matchGlob]: [*] matches any run of characters, and
    every other character of the pattern stands for itself. *)
Fixpoint glob_spec (pattern value : string) {struct pattern} : bool :=
  match pattern with
  | EmptyString => match value with EmptyString => true | _ => false end
  | String p r =>
      if Ascii.eqb p "*" then
        (fix any_run (v : string) : bool :=
           glob_spec r v
           || match v with
              | EmptyString => false
              | String _ v' => any_run v'
              end) value
      else
        match value with
        | EmptyString => false
        | String c v' => Ascii.eqb c p && glob_spec r v'
        end
  end.

End PermissionGuard.

(** ** security.ts: audit log *)

Module AuditLog.

Inductive AuditAction : Type := invoke | deny | error.
Inductive AuditResult : Type := success | failure.

Record AuditEntry : Type := {
  timestamp : string;
  server : string;
  tool : string;
  action : AuditAction;
  arguments : option (JSObject.t Json.value);
  result : option AuditResult;
  reason : option string;
  durationMs : option Z
}.

Record t : Type := {
  entries : list AuditEntry;
  maxEntries : Z
}.

(** [new AuditLog(maxEntries = 10_000)] *)
Definition new (maxEntries : option Z) : t :=
  {| entries := [];
     maxEntries := match maxEntries with Some n => n | None => 10000 end |}.

Definition record (log : t) (entry : AuditEntry) : t :=
  let pushed := (entries log ++ [entry])%list in
  if Z.of_nat (List.length pushed) >? maxEntries log then
    {| entries := JS.slice pushed (- maxEntries log); maxEntries := maxEntries log |}
  else
    {| entries := pushed; maxEntries := maxEntries log |}.

Definition SENSITIVE_KEYS : list string :=
  ["password"; "secret"; "token"; "api_key"; "apiKey"; "authorization"].

Definition REDACTED : Json.value := Json.JString "[REDACTED]".

Definition is_sensitive (key : string) : bool :=
  existsb (fun s => JS.includes (JS.toLowerCase key) s) SENSITIVE_KEYS.

Definition redactSensitive (args : option (JSObject.t Json.value))
  : option (JSObject.t Json.value) :=
  match args with
  | None => None
  | Some a =>
      Some (fold_left
              (fun redacted kv =>
                 if is_sensitive (fst kv)
                 then JSObject.assign (fst kv) REDACTED redacted
                 else JSObject.assign (fst kv) (snd kv) redacted)
              (JSObject.entries a) [])
  end.

(** [now] is the value of [new Date().toISOString()] at the call. *)
Definition logInvocation (now : string) (log : t) (server tool : string)
  (args : option (JSObject.t Json.value)) (result : option AuditResult)
  (durationMs : option Z) : t :=
  record log
    {| timestamp := now; server := server; tool := tool; action := invoke;
       arguments := redactSensitive args; result := result; reason := None;
       durationMs := durationMs |}.

Definition logDenial (now : string) (log : t) (server tool reason : string) : t :=
  record log
    {| timestamp := now; server := server; tool := tool; action := deny;
       arguments := None; result := None; reason := Some reason;
       durationMs := None |}.

(** [recent(count = 50)]; [None] is an omitted argument. *)
Definition recent (log : t) (count : option Z) : list AuditEntry :=
  JS.slice (entries log) (- match count with Some c => c | None => 50 end).

Definition forServer (log : t) (name : string) : list AuditEntry :=
  filter (fun e => String.eqb (server e) name) (entries log).

Definition count (log : t) : Z := Z.of_nat (List.length (entries log)).

End AuditLog.

(** ** types.ts: the records the modelled classes exchange.  Payloads the
    core never inspects (capabilities, schemas, resources, prompts) are JSON
    values; a [Date] is represented by its ISO-8601 text. *)

Module ToolDefinition.
Record t : Type := {
  name : string;
  description : option string;
  inputSchema : Json.value
}.
End ToolDefinition.

Module ServerConfig.
Inductive TransportType : Type := stdio | http.
Record t : Type := {
  name : string;
  command : string;
  args : option (list string);
  env : option (JSObject.t string);
  transport : TransportType;
  autoStart : option bool;
  permissions : option (list PermissionGuard.ToolPermission)
}.
End ServerConfig.

(** ** manifest.ts *)

Module ManifestManager.

Definition MANIFEST_VERSION : string := "1.0".

(** *** [load], on run-time values

    [JSON.parse(raw) as GolemManifest] is an unchecked cast, so what [load]
    stores and returns is whatever value the text denotes.  The file system
    is the status of [manifestPath]: absent, present but failing
    [readFileSync] (a directory, no permission), or a readable file. *)

Inductive file : Type :=
| Absent
| Unreadable
| File (raw : string).

Record t : Type := {
  manifest : Json.value;
  manifestPath : string
}.

Definition empty_manifest : Json.value :=
  Json.JObject [("version", Json.JString MANIFEST_VERSION); ("servers", Json.JObject [])].

(** [new ManifestManager(manifestPath)] *)
Definition new (manifestPath : string) : t :=
  {| manifest := empty_manifest; manifestPath := manifestPath |}.

Section Load.
Variable JSON_parse : string -> option Json.value.

(** The manager after the call, and the value returned. *)
Definition load (m : t) (disk : file) : t * Json.value :=
  let manifest' :=
    match disk with
    | Absent => manifest m
    | Unreadable => empty_manifest
    | File raw =>
        match JSON_parse raw with
        | Some parsed => parsed
        | None => empty_manifest
        end
    end in
  ({| manifest := manifest'; manifestPath := manifestPath m |}, manifest').

End Load.

(** [this.manifest.servers], the expression every other method of the class
    evaluates first ([addServer], [removeServer], [update*], [getServer],
    [listServers], [allTools], [findTool]).  [None] is [undefined]. *)
Definition read_servers (m : t) : outcome (option Json.value) :=
  match manifest m with
  | Json.JNull => Throw "TypeError: Cannot read properties of null (reading 'servers')"
  | Json.JObject o => Ret (JSObject.get "servers" o)
  | _ => Ret None
  end.

(** *** The typed operations, on states of type [GolemManifest]

    [servers] is an object whose prototype is an unmodified
    [Object.prototype]: a read [servers[name]] of a name that is no own
    property yields [undefined] or an inherited member, neither of which has
    [tools].  That is the scope of these definitions: [updateTools] is
    modelled for names that are not members of [Object.prototype] (for such
    a name without own entry the source does not throw but stores on the
    inherited object), [addServer] for names other than [__proto__] (which
    the source turns into the prototype of [servers]), and [findTool] for
    an unmodified chain; [findTool_in] below has the chain as an
    argument. *)

Record ServerManifestEntry : Type := {
  config : ServerConfig.t;
  capabilities : option Json.value;
  tools : option (list ToolDefinition.t);
  resources : option (list Json.value);
  prompts : option (list Json.value);
  lastDiscovered : option string
}.

Record GolemManifest : Type := {
  version : string;
  servers : JSObject.t ServerManifestEntry
}.

Definition empty : GolemManifest := {| version := MANIFEST_VERSION; servers := [] |}.

Definition addServer (m : GolemManifest) (cfg : ServerConfig.t) : GolemManifest :=
  {| version := version m;
     servers :=
       JSObject.assign (ServerConfig.name cfg)
         {| config := cfg; capabilities := None; tools := None; resources := None;
            prompts := None; lastDiscovered := None |}
         (servers m) |}.

(** [now] is the [new Date()] of the call. *)
Definition updateTools (now : string) (m : GolemManifest) (name : string)
  (ts : list ToolDefinition.t) : outcome GolemManifest :=
  match JSObject.get name (servers m) with
  | None => Throw ("Server " ++ JS.dquote ++ name ++ JS.dquote ++ " not in manifest")
  | Some entry =>
      Ret {| version := version m;
             servers :=
               JSObject.define name
                 {| config := config entry; capabilities := capabilities entry;
                    tools := Some ts; resources := resources entry;
                    prompts := prompts entry; lastDiscovered := Some now |}
                 (servers m) |}
  end.

Definition allTools (m : GolemManifest) : list (string * ToolDefinition.t) :=
  flat_map
    (fun ne => match tools (snd ne) with
               | Some ts => map (fun tool => (fst ne, tool)) ts
               | None => []
               end)
    (JSObject.entries (servers m)).

(** [entry.tools?.find((t) => t.name === wanted)] *)
Definition find_tool (wanted : string) (entry : ServerManifestEntry)
  : option ToolDefinition.t :=
  match tools entry with
  | Some ts => find (fun t => String.eqb (ToolDefinition.name t) wanted) ts
  | None => None
  end.

(** The loop over [Object.entries(this.manifest.servers)]. *)
Fixpoint scan (wanted : string) (es : list (string * ServerManifestEntry))
  : option (string * ToolDefinition.t) :=
  match es with
  | [] => None
  | (name, entry) :: rest =>
      match find_tool wanted entry with
      | Some tool => Some (name, tool)
      | None => scan wanted rest
      end
  end.

Definition findTool (m : GolemManifest) (qualifiedName : string)
  : option (string * ToolDefinition.t) :=
  let dotIndex := JS.indexOf qualifiedName "." in
  if dotIndex =? -1 then scan qualifiedName (JSObject.entries (servers m))
  else
    let serverName := JS.str_slice qualifiedName 0 (Some dotIndex) in
    let toolName := JS.str_slice qualifiedName (dotIndex + 1) None in
    match JSObject.get serverName (servers m) with
    | None => None
    | Some entry =>
        match find_tool toolName entry with
        | Some tool => Some (serverName, tool)
        | None => None
        end
    end.

(** *** [findTool] with its reads through the prototype chain

    [this.manifest.servers[serverName]] and [entry.tools] are property
    reads: where the object has no own property of the name they continue
    along its prototype chain.  What the chain holds is not part of a
    [GolemManifest]; it belongs to the environment and is an argument.  In a
    process that leaves [Object.prototype] and its members as the runtime
    creates them the chain supplies no [tools] ([unmodified_chain]); the
    update methods of this class store on an inherited object when they are
    called with the name of a member of [Object.prototype] that is no
    registered server. *)

(** The value of [servers[name]?.tools] for a name that is no own property
    of [servers]. *)
Inductive chain_read : Type :=
| NoTools                                  (* [undefined] *)
| ToolList (ts : list ToolDefinition.t)    (* an array of tools *)
| NotAList.                                (* an object without [find] *)

Record PrototypeChain : Type := {
  beyond_servers : string -> chain_read;
  (** [entry.tools] of a manifest entry without own [tools], which is
      [Object.prototype.tools]. *)
  beyond_entry : option (list ToolDefinition.t)
}.

Definition unmodified_chain : PrototypeChain :=
  {| beyond_servers := fun _ => NoTools; beyond_entry := None |}.

(** [entry.tools] *)
Definition entry_tools (pc : PrototypeChain) (entry : ServerManifestEntry)
  : option (list ToolDefinition.t) :=
  match tools entry with
  | Some ts => Some ts
  | None => beyond_entry pc
  end.

(** [tools.find((t) => t.name === wanted)] *)
Definition find_by_name (wanted : string) (ts : list ToolDefinition.t)
  : option ToolDefinition.t :=
  find (fun t => String.eqb (ToolDefinition.name t) wanted) ts.

Fixpoint scan_in (pc : PrototypeChain) (wanted : string)
  (es : list (string * ServerManifestEntry)) : option (string * ToolDefinition.t) :=
  match es with
  | [] => None
  | (name, entry) :: rest =>
      match entry_tools pc entry with
      | Some ts =>
          match find_by_name wanted ts with
          | Some tool => Some (name, tool)
          | None => scan_in pc wanted rest
          end
      | None => scan_in pc wanted rest
      end
  end.

Definition findTool_in (pc : PrototypeChain) (m : GolemManifest) (qualifiedName : string)
  : outcome (option (string * ToolDefinition.t)) :=
  let dotIndex := JS.indexOf qualifiedName "." in
  if dotIndex =? -1 then Ret (scan_in pc qualifiedName (JSObject.entries (servers m)))
  else
    let serverName := JS.str_slice qualifiedName 0 (Some dotIndex) in
    let toolName := JS.str_slice qualifiedName (dotIndex + 1) None in
    let answer (ts : list ToolDefinition.t) :=
      match find_by_name toolName ts with
      | Some tool => Some (serverName, tool)
      | None => None
      end in
    match JSObject.get serverName (servers m) with
    | Some entry =>
        match entry_tools pc entry with
        | Some ts => Ret (answer ts)
        | None => Ret None
        end
    | None =>
        match beyond_servers pc serverName with
        | NoTools => Ret None
        | ToolList ts => Ret (answer ts)
        | NotAList => Throw "TypeError: entry.tools.find is not a function"
        end
    end.

(** The value of the read [this.manifest.servers[name]]: an own entry, a
    member inherited from [Object.prototype] (a function or the prototype
    itself, never a manifest entry), or [undefined]. *)
Inductive property_read : Type :=
| Own (entry : ServerManifestEntry)
| Inherited
| Undefined.

Definition getServer (m : GolemManifest) (name : string) : property_read :=
  match JSObject.get name (servers m) with
  | Some entry => Own entry
  | None => if JSObject.inherited name then Inherited else Undefined
  end.

(** The manifest after the call, and the value returned. *)
Definition removeServer (m : GolemManifest) (name : string) : GolemManifest * bool :=
  if JSObject.has_property name (servers m)
  then ({| version := version m; servers := JSObject.delete name (servers m) |}, true)
  else (m, false).

(** [Object.values(this.manifest.servers).map((entry) => entry.config)] *)
Definition listServers (m : GolemManifest) : list ServerConfig.t :=
  map (fun ne => config (snd ne)) (JSObject.entries (servers m)).

(** *** [loadServerConfigs], on run-time values *)

(** [v ?? d]; [None] is [undefined]. *)
Definition nullish_default (v : option Json.value) (d : Json.value) : Json.value :=
  match v with
  | None => d
  | Some Json.JNull => d
  | Some x => x
  end.

(** The properties [0], [1], ... of an array or of a string. *)
Fixpoint indexed_from {V} (i : N) (l : list V) : JSObject.t V :=
  match l with
  | [] => []
  | x :: r => (JS.string_of_N i, x) :: indexed_from (i + 1)%N r
  end.

(** [{ ...s }] for any JSON value: the own enumerable properties of an
    object, the elements of an array, the characters of a string, nothing
    for the other primitives. *)
Definition spread_value (s : Json.value) : JSObject.t Json.value :=
  match s with
  | Json.JObject o => JSObject.spread o
  | Json.JArray items => indexed_from 0 items
  | Json.JString text =>
      indexed_from 0
        (map (fun c => Json.JString (String c EmptyString)) (list_ascii_of_string text))
  | _ => []
  end.

(** [s.key] for the keys [transport] and [autoStart], which no prototype
    defines. *)
Definition own_member (s : Json.value) (key : string) : option Json.value :=
  match s with
  | Json.JObject o => JSObject.get key o
  | _ => None
  end.

(** The callback of [parsed.servers.map]. *)
Definition with_defaults (s : Json.value) : outcome Json.value :=
  match s with
  | Json.JNull => Throw "TypeError: Cannot read properties of null (reading 'transport')"
  | _ =>
      Ret (Json.JObject
             (JSObject.define "autoStart"
                (nullish_default (own_member s "autoStart") (Json.JBool true))
                (JSObject.define "transport"
                   (nullish_default (own_member s "transport") (Json.JString "stdio"))
                   (spread_value s))))
  end.

(** [arr.map(f)] for a callback that may throw. *)
Fixpoint map_throwing {A B} (f : A -> outcome B) (l : list A) : outcome (list B) :=
  match l with
  | [] => Ret []
  | x :: r =>
      match f x with
      | Throw text => Throw text
      | Ret y =>
          match map_throwing f r with
          | Throw text => Throw text
          | Ret ys => Ret (y :: ys)
          end
      end
  end.

Section LoadServerConfigs.
Variable JSON_parse : string -> option Json.value.

Definition loadServerConfigs (configPath : string) (disk : file)
  : outcome (list Json.value) :=
  match disk with
  | Absent => Throw ("ENOENT: no such file or directory, open '" ++ configPath ++ "'")
  | Unreadable => Throw ("EACCES: permission denied, open '" ++ configPath ++ "'")
  | File raw =>
      match JSON_parse raw with
      | None => Throw "SyntaxError: Unexpected token in JSON"
      | Some Json.JNull =>
          Throw "TypeError: Cannot read properties of null (reading 'servers')"
      | Some parsed =>
          match own_member parsed "servers" with
          | Some (Json.JArray items) => map_throwing with_defaults items
          | _ =>
              Throw ("Invalid config: expected " ++ JS.dquote ++ "servers" ++ JS.dquote
                     ++ " array in " ++ configPath)
          end
      end
  end.

End LoadServerConfigs.

End ManifestManager.

(** ** transport.ts: inbound framing

    The events are the [emitter.emit] calls of [handleData], in order.  What
    the registered listeners do belongs to the environment and is an
    argument: [listeners ev] is [true] when the call [emit] of [ev] returns,
    and [false] when it throws, which it does when a listener throws and,
    for an [error] event, also when no listener is registered. *)

Module StdioTransport.

Inductive event : Type :=
| message (msg : Json.value)
| error (text : string).

Record t : Type := {
  buffer : string;
  _isConnected : bool
}.

(** The event of the [catch] block. *)
Definition parse_failure (trimmed : string) : event :=
  error ("Failed to parse JSON-RPC message: " ++ JS.str_slice trimmed 0 (Some 200)).

Section HandleData.
Variable JSON_parse : string -> option Json.value.
Variable listeners : event -> bool.

(** The body of the loop over [lines]: the [emit] calls it makes, and
    whether it completes ([false]: an exception leaves it).  The [emit] of
    the message is inside the [try], so when it throws the [catch] block
    runs as it does for a text that does not parse; the [emit] of the
    error is not guarded. *)
Definition handle_line (line : string) : list event * bool :=
  let trimmed := JS.trim line in
  if String.eqb trimmed EmptyString then ([], true)
  else match JSON_parse trimmed with
       | Some parsed =>
           if listeners (message parsed) then ([message parsed], true)
           else ([message parsed; parse_failure trimmed],
                 listeners (parse_failure trimmed))
       | None => ([parse_failure trimmed], listeners (parse_failure trimmed))
       end.

(** The loop [for (const line of lines)]; an exception ends it. *)
Fixpoint handle_lines (lines : list string) : list event * bool :=
  match lines with
  | [] => ([], true)
  | line :: rest =>
      let (evs, completed) := handle_line line in
      if completed
      then let (evs', completed') := handle_lines rest in ((evs ++ evs')%list, completed')
      else (evs, false)
  end.

(** The transport afterwards, the [emit] calls made, and whether the call
    returns.  The buffer is assigned before the loop. *)
Definition handleData (tr : t) (data : string) : t * list event * bool :=
  let lines := JS.split JS.LF (buffer tr ++ data) in
  let (evs, returned) := handle_lines (removelast lines) in
  ({| buffer := last lines EmptyString; _isConnected := _isConnected tr |}, evs, returned).


End HandleData.


End StdioTransport.

(** ** [Map] objects: entries in insertion order, [set] of a present key
    keeps its place.  Keys are unique in a map built by [set]; [delete]
    drops every entry of the key, which is the one entry there is. *)

Module JSMap.

Section Keyed.
Context {K V : Type}.
Variable eqb : K -> K -> bool.

Fixpoint get (k : K) (m : list (K * V)) : option V :=
  match m with
  | [] => None
  | (k', v) :: r => if eqb k k' then Some v else get k r
  end.

Fixpoint set (k : K) (v : V) (m : list (K * V)) : list (K * V) :=
  match m with
  | [] => [(k, v)]
  | (k', v') :: r => if eqb k k' then (k', v) :: r else (k', v') :: set k v r
  end.

Fixpoint delete (k : K) (m : list (K * V)) : list (K * V) :=
  match m with
  | [] => []
  | (k', v') :: r => if eqb k k' then delete k r else (k', v') :: delete k r
  end.

Definition has (k : K) (m : list (K * V)) : bool :=
  match get k m with Some _ => true | None => false end.

End Keyed.

Definition keys {K V : Type} (m : list (K * V)) : list K := map fst m.
Definition values {K V : Type} (m : list (K * V)) : list V := map snd m.

End JSMap.

(** ** protocol.ts: the request table, its timers and the promises

    One call of [request], one timer callback, one settlement of a
    [transport.send] promise, one [handleMessage], one [handleClose] is one
    step.  Request ids are integers (the counter stays far below 2^53).
    The promise returned by [request] and the timer armed for it are named
    by the request id; [resolve] and [reject] act on a promise only while it
    is pending, as JavaScript promises do. *)

Module MCPProtocol.

Inductive rpc_id : Type :=
| IdNumber (n : Z)
| IdString (s : string).

Record JsonRpcError : Type := {
  code : Z;
  message : string;
  data : option Json.value
}.

Inductive JsonRpcMessage : Type :=
| Request (id : rpc_id) (method : string) (params : option (JSObject.t Json.value))
| Response (id : rpc_id) (result : option Json.value) (error : option JsonRpcError)
| Notification (method : string) (params : option (JSObject.t Json.value))
| Malformed.

Inductive js_error : Type :=
| Error (text : string)
| MCPError (e : JsonRpcError).

Inductive promise : Type :=
| Pending
| Fulfilled (v : option Json.value)
| Rejected (e : js_error).

(** The actions of a step, in program order. *)
Inductive effect : Type :=
| SetTimeout (id : Z)
| ClearTimeout (id : Z)
| PendingSet (id : Z)
| PendingDelete (id : Z)
| Resolve (id : Z) (v : option Json.value)
| Reject (id : Z) (e : js_error)
| Send (msg : JsonRpcMessage)
| EmitNotification (method : string) (params : JSObject.t Json.value)
| EmitClose (code : option Z).

Record t : Type := {
  nextId : Z;
  pending : list (Z * string);
  initialized : bool;
  timeout : Z;
  timers : list (Z * string);
  sending : list Z;
  promises : list (Z * promise)
}.

(** [new MCPProtocol(transport, { timeout })] *)
Definition new (timeout : option Z) : t :=
  {| nextId := 1; pending := []; initialized := false;
     timeout := match timeout with Some ms => ms | None => 30000 end;
     timers := []; sending := []; promises := [] |}.

Definition promise_of (p : t) (id : Z) : option promise :=
  JSMap.get Z.eqb id (promises p).

(** [resolve] / [reject] of the promise of request [id]. *)
Definition settle (id : Z) (outcome : promise) (ps : list (Z * promise))
  : list (Z * promise) :=
  match JSMap.get Z.eqb id ps with
  | Some Pending => JSMap.set Z.eqb id outcome ps
  | _ => ps
  end.

Definition timeout_message (method : string) (id ms : Z) : string :=
  "Request " ++ method ++ " (id=" ++ JS.string_of_Z id ++ ") timed out after "
  ++ JS.string_of_Z ms ++ "ms".

(** [request(method, params)] up to the point where it suspends. *)
Definition request (p : t) (method : string) (params : option (JSObject.t Json.value))
  : t * list effect :=
  let id := nextId p in
  ({| nextId := id + 1;
      pending := JSMap.set Z.eqb id method (pending p);
      initialized := initialized p;
      timeout := timeout p;
      timers := JSMap.set Z.eqb id method (timers p);
      sending := id :: sending p;
      promises := JSMap.set Z.eqb id Pending (promises p) |},
   [SetTimeout id; PendingSet id; Send (Request (IdNumber id) method params)]).

(** The [setTimeout] callback of request [id]; it runs only while its timer
    is armed. *)
Definition on_timeout (p : t) (id : Z) : t * list effect :=
  match JSMap.get Z.eqb id (timers p) with
  | None => (p, [])
  | Some method =>
      let e := Error (timeout_message method id (timeout p)) in
      ({| nextId := nextId p;
          pending := JSMap.delete Z.eqb id (pending p);
          initialized := initialized p;
          timeout := timeout p;
          timers := JSMap.delete Z.eqb id (timers p);
          sending := sending p;
          promises := settle id (Rejected e) (promises p) |},
       [PendingDelete id; Reject id e])
  end.

(** Settlement of the [transport.send(message)] promise of request [id]:
    fulfilled ([None]) or rejected, which runs the [catch] callback. *)
Definition on_send_settled (p : t) (id : Z) (failure : option js_error) : t * list effect :=
  if existsb (Z.eqb id) (sending p) then
    let sending' := filter (fun i => negb (Z.eqb id i)) (sending p) in
    match failure with
    | None =>
        ({| nextId := nextId p; pending := pending p; initialized := initialized p;
            timeout := timeout p; timers := timers p; sending := sending';
            promises := promises p |}, [])
    | Some err =>
        ({| nextId := nextId p;
            pending := JSMap.delete Z.eqb id (pending p);
            initialized := initialized p;
            timeout := timeout p;
            timers := JSMap.delete Z.eqb id (timers p);
            sending := sending';
            promises := settle id (Rejected err) (promises p) |},
         [PendingDelete id; ClearTimeout id; Reject id err])
    end
  else (p, []).

(** [notify(method, params)] *)
Definition notify (p : t) (method : string) (params : option (JSObject.t Json.value))
  : t * list effect :=
  (p, [Send (Notification method params)]).

(** The part of [handleMessage] for a message with a non-null [id]. *)
Definition handle_response (p : t) (id : rpc_id) (result : option Json.value)
  (error : option JsonRpcError) : t * list effect :=
  match id with
  | IdString _ => (p, [])
  | IdNumber n =>
      match JSMap.get Z.eqb n (pending p) with
      | None => (p, [])
      | Some _ =>
          let outcome :=
            match error with
            | Some e => Rejected (MCPError e)
            | None => Fulfilled result
            end in
          ({| nextId := nextId p;
              pending := JSMap.delete Z.eqb n (pending p);
              initialized := initialized p;
              timeout := timeout p;
              timers := JSMap.delete Z.eqb n (timers p);
              sending := sending p;
              promises := settle n outcome (promises p) |},
           [PendingDelete n; ClearTimeout n;
            match error with
            | Some e => Reject n (MCPError e)
            | None => Resolve n result
            end])
      end
  end.

Definition handleMessage (p : t) (msg : JsonRpcMessage) : t * list effect :=
  match msg with
  | Response id result error => handle_response p id result error
  | Request id _ _ => handle_response p id None None
  | Notification method params =>
      (p, [EmitNotification method match params with Some o => o | None => [] end])
  | Malformed => (p, [])
  end.

(** The loop [for (const [id, pending] of this.pending)] shared by
    [handleClose] and [shutdown]. *)
Fixpoint reject_all (e : js_error) (entries : list (Z * string))
  (ps : list (Z * promise)) : list (Z * promise) * list effect :=
  match entries with
  | [] => (ps, [])
  | (id, _) :: rest =>
      let (ps', effs) := reject_all e rest (settle id (Rejected e) ps) in
      (ps', ClearTimeout id :: Reject id e :: PendingDelete id :: effs)
  end.

Definition code_text (code : option Z) : string :=
  match code with Some c => JS.string_of_Z c | None => "null" end.

Definition handleClose (p : t) (code : option Z) : t * list effect :=
  let (ps, effs) :=
    reject_all (Error ("Transport closed with code " ++ code_text code))
      (pending p) (promises p) in
  ({| nextId := nextId p; pending := []; initialized := false; timeout := timeout p;
      timers := []; sending := sending p; promises := ps |},
   (effs ++ [EmitClose code])%list).

(** The end of [shutdown()], after its best-effort request. *)
Definition shutdown_sweep (p : t) : t * list effect :=
  let (ps, effs) := reject_all (Error "Protocol shutting down") (pending p) (promises p) in
  ({| nextId := nextId p; pending := []; initialized := false; timeout := timeout p;
      timers := []; sending := sending p; promises := ps |}, effs).

(** The end of [initialize()]. *)
Definition mark_initialized (p : t) : t :=
  {| nextId := nextId p; pending := pending p; initialized := true; timeout := timeout p;
     timers := timers p; sending := sending p; promises := promises p |}.

(** What can happen to an engine, one event-loop turn at a time. *)
Inductive event : Type :=
| CallRequest (method : string) (params : option (JSObject.t Json.value))
| CallNotify (method : string) (params : option (JSObject.t Json.value))
| Initialized
| TimerFires (id : Z)
| SendSettles (id : Z) (failure : option js_error)
| Receives (msg : JsonRpcMessage)
| TransportCloses (code : option Z)
| ShutdownSweep.

Definition step (p : t) (ev : event) : t * list effect :=
  match ev with
  | CallRequest method params => request p method params
  | CallNotify method params => notify p method params
  | Initialized => (mark_initialized p, [])
  | TimerFires id => on_timeout p id
  | SendSettles id failure => on_send_settled p id failure
  | Receives msg => handleMessage p msg
  | TransportCloses code => handleClose p code
  | ShutdownSweep => shutdown_sweep p
  end.

Fixpoint run (p : t) (evs : list event) : t * list effect :=
  match evs with
  | [] => (p, [])
  | ev :: rest =>
      let (p1, effs1) := step p ev in
      let (p2, effs2) := run p1 rest in
      (p2, (effs1 ++ effs2)%list)
  end.

End MCPProtocol.

(** ** server-manager.ts

    [start], [stopInternal] and [startAll] are asynchronous; here each runs
    to completion without another manager call in between, and what the
    awaited [client.connect] and [client.listTools] do is an argument
    ([connect_result]).  An [MCPClient] object is named by the order of its
    allocation; [disconnected] lists the clients on which [disconnect()] was
    called.  [emitted] lists the [stateChange] events; the listeners are
    taken to return. *)

Module ServerStatus.
Inductive t : Type := stopped | starting | running | error.
Definition eqb (a b : t) : bool :=
  match a, b with
  | stopped, stopped | starting, starting | running, running | error, error => true
  | _, _ => false
  end.
End ServerStatus.

Module ServerState.
Record t : Type := {
  name : string;
  status : ServerStatus.t;
  pid : option Z;
  capabilities : option Json.value;
  serverInfo : option Json.value;
  toolCount : option Z;
  startedAt : option string;
  error : option string
}.
End ServerState.

Module ServerManager.

Record ManagedServer : Type := {
  config : ServerConfig.t;
  client : N;
  state : ServerState.t
}.

Record t : Type := {
  servers : list (string * ManagedServer);
  emitted : list (string * ServerState.t);
  nextClient : N;
  disconnected : list N
}.

Definition new : t :=
  {| servers := []; emitted := []; nextClient := 0%N; disconnected := [] |}.

(** What [await client.connect(...)] and the following
    [await client.listTools()] turn out to do: the handshake succeeds, with
    the tool count when the listing succeeds too, or [connect] throws. *)
Inductive connect_result : Type :=
| Connected (capabilities serverInfo : option Json.value) (now : string)
    (listed : option Z)
| ConnectFailed (text : string).

(** [{ name, status }] *)
Definition bare_state (name : string) (status : ServerStatus.t) : ServerState.t :=
  {| ServerState.name := name; ServerState.status := status; ServerState.pid := None;
     ServerState.capabilities := None; ServerState.serverInfo := None;
     ServerState.toolCount := None; ServerState.startedAt := None;
     ServerState.error := None |}.

Definition stopInternal (m : t) (name : string) : t :=
  match JSMap.get String.eqb name (servers m) with
  | None => m
  | Some managed =>
      let st := state managed in
      let st' :=
        {| ServerState.name := ServerState.name st;
           ServerState.status := ServerStatus.stopped;
           ServerState.pid := ServerState.pid st;
           ServerState.capabilities := None; ServerState.serverInfo := None;
           ServerState.toolCount := None; ServerState.startedAt := None;
           ServerState.error := None |} in
      {| servers := JSMap.delete String.eqb name (servers m);
         emitted := (emitted m ++ [(name, st')])%list;
         nextClient := nextClient m;
         disconnected := (disconnected m ++ [client managed])%list |}
  end.

Definition already_running (name : string) : string :=
  "Server " ++ JS.dquote ++ name ++ JS.dquote ++ " is already running".

Definition is_running (managed : ManagedServer) : bool :=
  ServerStatus.eqb (ServerState.status (state managed)) ServerStatus.running.

(** The body of [start] from [new MCPClient] on. *)
Definition start_fresh (m : t) (cfg : ServerConfig.t) (env : connect_result)
  : t * outcome ServerState.t :=
  let name := ServerConfig.name cfg in
  let c := nextClient m in
  let st0 := bare_state name ServerStatus.starting in
  let servers1 :=
    JSMap.set String.eqb name {| config := cfg; client := c; state := st0 |} (servers m) in
  let emitted1 := (emitted m ++ [(name, st0)])%list in
  match env with
  | Connected caps info now listed =>
      let st1 :=
        {| ServerState.name := name; ServerState.status := ServerStatus.running;
           ServerState.pid := None;
           ServerState.capabilities := caps; ServerState.serverInfo := info;
           ServerState.toolCount := Some match listed with Some n => n | None => 0 end;
           ServerState.startedAt := Some now; ServerState.error := None |} in
      ({| servers :=
            JSMap.set String.eqb name {| config := cfg; client := c; state := st1 |} servers1;
          emitted := (emitted1 ++ [(name, st1)])%list;
          nextClient := (c + 1)%N;
          disconnected := disconnected m |},
       Ret st1)
  | ConnectFailed text =>
      let st1 :=
        {| ServerState.name := name; ServerState.status := ServerStatus.error;
           ServerState.pid := None;
           ServerState.capabilities := None; ServerState.serverInfo := None;
           ServerState.toolCount := None; ServerState.startedAt := None;
           ServerState.error := Some text |} in
      ({| servers := JSMap.delete String.eqb name servers1;
          emitted := (emitted1 ++ [(name, st1)])%list;
          nextClient := (c + 1)%N;
          disconnected := disconnected m |},
       Throw text)
  end.

Definition start (m : t) (cfg : ServerConfig.t) (env : connect_result)
  : t * outcome ServerState.t :=
  let name := ServerConfig.name cfg in
  match JSMap.get String.eqb name (servers m) with
  | Some existing =>
      if is_running existing then (m, Throw (already_running name))
      else start_fresh (stopInternal m name) cfg env
  | None => start_fresh m cfg env
  end.

(** One turn of the loop of [startAll]; [env] is consulted only when the
    config is started. *)
Definition startAll_step (acc : t * list (string * ServerState.t))
  (item : ServerConfig.t * connect_result) : t * list (string * ServerState.t) :=
  let (m, results) := acc in
  let (cfg, env) := item in
  let name := ServerConfig.name cfg in
  match ServerConfig.autoStart cfg with
  | Some false =>
      let st := bare_state name ServerStatus.stopped in
      ({| servers :=
            JSMap.set String.eqb name
              {| config := cfg; client := nextClient m; state := st |} (servers m);
          emitted := emitted m;
          nextClient := (nextClient m + 1)%N;
          disconnected := disconnected m |},
       JSMap.set String.eqb name st results)
  | _ =>
      match start m cfg env with
      | (m', Ret st) => (m', JSMap.set String.eqb name st results)
      | (m', Throw text) =>
          (m', JSMap.set String.eqb name
                 {| ServerState.name := name; ServerState.status := ServerStatus.error;
                    ServerState.pid := None;
                    ServerState.capabilities := None; ServerState.serverInfo := None;
                    ServerState.toolCount := None; ServerState.startedAt := None;
                    ServerState.error := Some text |} results)
      end
  end.

Definition startAll (m : t) (configs : list (ServerConfig.t * connect_result))
  : t * list (string * ServerState.t) :=
  fold_left startAll_step configs (m, []).

Definition list (m : t) : Datatypes.list ServerState.t :=
  map state (JSMap.values (servers m)).

Definition get (m : t) (name : string) : option ServerState.t :=
  option_map state (JSMap.get String.eqb name (servers m)).

Definition getClient (m : t) (name : string) : option N :=
  match JSMap.get String.eqb name (servers m) with
  | Some managed => if is_running managed then Some (client managed) else None
  | None => None
  end.

Definition not_found (name : string) : string :=
  "Server " ++ JS.dquote ++ name ++ JS.dquote ++ " not found".

Definition stop (m : t) (name : string) : t * outcome unit :=
  match JSMap.get String.eqb name (servers m) with
  | None => (m, Throw (not_found name))
  | Some _ => (stopInternal m name, Ret tt)
  end.

Definition restart (m : t) (name : string) (env : connect_result)
  : t * outcome ServerState.t :=
  match JSMap.get String.eqb name (servers m) with
  | None => (m, Throw (not_found name))
  | Some managed => start (stopInternal m name) (config managed) env
  end.

(** [stopInternal] for every name of the map, in the order of
    [this.servers.keys()], which is the order of the [disconnect()] calls.
    The source runs the stops with [Promise.all]: the [stopped] events come
    in the order in which the disconnects complete, which is taken here to
    be the order of the map. *)
Definition stopAll (m : t) : t :=
  fold_left stopInternal (JSMap.keys (servers m)) m.

End ServerManager.

(** ** security.ts: secret provider *)

Module SecretProvider.

(** [Map<string, string>] *)
Definition t : Type := list (string * string).

Definition new : t := [].

Definition DEFAULT_PREFIX : string := "GOLEM_MCP_".

(** [s.startsWith(p)] *)
Definition startsWith (s p : string) : bool := prefix p s.

(** [env] is [process.env]; [None] is an omitted prefix. *)
Definition loadFromEnv (secrets : t) (env : JSObject.t (option string))
  (prefix : option string) : t :=
  let p := match prefix with Some p => p | None => DEFAULT_PREFIX end in
  fold_left
    (fun acc kv =>
       match snd kv with
       | Some value =>
           if startsWith (fst kv) p
           then JSMap.set String.eqb
                  (JS.str_slice (fst kv) (Z.of_nat (String.length p)) None) value acc
           else acc
       | None => acc
       end)
    (JSObject.entries env) secrets.

Definition get (secrets : t) (name : string) : option string :=
  JSMap.get String.eqb name secrets.

Definition set (secrets : t) (name value : string) : t :=
  JSMap.set String.eqb name value secrets.

(** One character through [toUpperCase()] and then
    [replace(/[^A-Z0-9]/g, '_')].  The two calls are taken together because
    the upper case of a code unit in U+0080..U+00FF can lie above U+00FF; it
    is replaced by [_] wherever it lies.  The sharp s (U+00DF) has the upper
    case [SS], which the replacement keeps. *)
Definition upper_sanitized (c : ascii) : string :=
  let n := N_of_ascii c in
  if ((97 <=? n) && (n <=? 122))%N then String (ascii_of_N (n - 32)) EmptyString
  else if ((65 <=? n) && (n <=? 90) || (48 <=? n) && (n <=? 57))%N
       then String c EmptyString
  else if (n =? 223)%N then "SS"
  else "_".

Fixpoint env_name (name : string) : string :=
  match name with
  | EmptyString => EmptyString
  | String c r => upper_sanitized c ++ env_name r
  end.

Definition server_prefix (name : string) : string := env_name name ++ "_".

Definition buildEnv (secrets : t) (serverConfig : ServerConfig.t) : JSObject.t string :=
  let env0 :=
    match ServerConfig.env serverConfig with
    | Some o => JSObject.spread o
    | None => []
    end in
  let prefix := server_prefix (ServerConfig.name serverConfig) in
  fold_left
    (fun env kv =>
       if startsWith (fst kv) prefix then JSObject.put (fst kv) (snd kv) env else env)
    secrets env0.

End SecretProvider.

(** ** router.ts

    [invoke] awaits [client.callTool]; what that call does and how long it
    takes are arguments, as is the clock reading used for the audit entry.
    A returned result has the declared type [ToolCallResult].
    [listAllTools] awaits [client.listTools] once per running server; what
    each listing does is a function of the client. *)

Module ToolRouter.

Record ToolCallResult : Type := {
  content : list Json.value;
  isError : option bool
}.

Record RouteResult : Type := {
  server : string;
  tool : string;
  result : ToolCallResult;
  durationMs : Z
}.

Record t : Type := {
  serverManager : ServerManager.t;
  manifest : ManifestManager.GolemManifest;
  guard : PermissionGuard.t;
  audit : AuditLog.t
}.

(** What [await client.callTool(toolName, args)] turns out to do. *)
Inductive call_outcome : Type :=
| Returned (r : ToolCallResult)
| Thrown (text : string).

Definition resolveToolName (r : t) (qualifiedName : string) : option (string * string) :=
  let dotIndex := JS.indexOf qualifiedName "." in
  if negb (dotIndex =? -1) then
    Some (JS.str_slice qualifiedName 0 (Some dotIndex),
          JS.str_slice qualifiedName (dotIndex + 1) None)
  else
    match ManifestManager.findTool (manifest r) qualifiedName with
    | Some (srv, found) => Some (srv, ToolDefinition.name found)
    | None =>
        match find (fun st => ServerStatus.eqb (ServerState.status st) ServerStatus.running)
                (ServerManager.list (serverManager r)) with
        | Some st => Some (ServerState.name st, qualifiedName)
        | None => None
        end
    end.

Definition with_audit (r : t) (log : AuditLog.t) : t :=
  {| serverManager := serverManager r; manifest := manifest r; guard := guard r;
     audit := log |}.

(** [`${perm.reason}`] *)
Definition reason_text (perm : PermissionGuard.PermissionCheckResult) : string :=
  match PermissionGuard.reason perm with
  | Some text => text
  | None => "undefined"
  end.

(** [this.audit.logDenial(server, toolName, perm.reason!)]: the assertion
    [!] is erased, so a missing reason is recorded as missing. *)
Definition log_denial (now : string) (log : AuditLog.t) (srv toolName : string)
  (perm : PermissionGuard.PermissionCheckResult) : AuditLog.t :=
  match PermissionGuard.reason perm with
  | Some text => AuditLog.logDenial now log srv toolName text
  | None =>
      AuditLog.record log
        {| AuditLog.timestamp := now; AuditLog.server := srv; AuditLog.tool := toolName;
           AuditLog.action := AuditLog.deny; AuditLog.arguments := None;
           AuditLog.result := None; AuditLog.reason := None;
           AuditLog.durationMs := None |}
  end.

Definition invoke (r : t) (qualifiedName : string) (args : option (JSObject.t Json.value))
  (now : string) (call : call_outcome) (elapsed : Z) : t * outcome RouteResult :=
  match resolveToolName r qualifiedName with
  | None =>
      (r, Throw ("Tool " ++ JS.dquote ++ qualifiedName ++ JS.dquote
                 ++ " not found in any registered server"))
  | Some (srv, toolName) =>
      match PermissionGuard.checkToolPermission (guard r) toolName None with
      | Throw text => (r, Throw text)
      | Ret perm =>
          if negb (PermissionGuard.allowed perm) then
            (with_audit r (log_denial now (audit r) srv toolName perm),
             Throw ("Permission denied: " ++ reason_text perm))
          else
            match ServerManager.getClient (serverManager r) srv with
            | None =>
                (r, Throw ("Server " ++ JS.dquote ++ srv ++ JS.dquote ++ " is not running"))
            | Some _ =>
                match call with
                | Returned res =>
                    (with_audit r
                       (AuditLog.logInvocation now (audit r) srv toolName args
                          (Some match isError res with
                                | Some true => AuditLog.failure
                                | _ => AuditLog.success
                                end)
                          (Some elapsed)),
                     Ret {| server := srv; tool := toolName; result := res;
                            durationMs := elapsed |})
                | Thrown text =>
                    (with_audit r
                       (AuditLog.logInvocation now (audit r) srv toolName args
                          (Some AuditLog.failure) (Some elapsed)),
                     Throw text)
                end
            end
      end
  end.

(** One turn of the loop of [listAllTools]. *)
Definition listAllTools_step (now : string) (listing : N -> option (list ToolDefinition.t))
  (sm : ServerManager.t)
  (acc : ManifestManager.GolemManifest * list (string * ToolDefinition.t))
  (st : ServerState.t) : ManifestManager.GolemManifest * list (string * ToolDefinition.t) :=
  let (mf, found) := acc in
  if negb (ServerStatus.eqb (ServerState.status st) ServerStatus.running) then acc
  else
    match ServerManager.getClient sm (ServerState.name st) with
    | None => acc
    | Some c =>
        match listing c with
        | None => acc
        | Some tools =>
            let found' := (found ++ map (pair (ServerState.name st)) tools)%list in
            match ManifestManager.updateTools now mf (ServerState.name st) tools with
            | Ret mf' => (mf', found')
            | Throw _ => (mf, found')
            end
        end
    end.

Definition listAllTools (r : t) (now : string)
  (listing : N -> option (list ToolDefinition.t))
  : t * list (string * ToolDefinition.t) :=
  let (mf, found) :=
    fold_left (listAllTools_step now listing (serverManager r))
      (ServerManager.list (serverManager r)) (manifest r, []) in
  ({| serverManager := serverManager r; manifest := mf; guard := guard r;
      audit := audit r |}, found).

End ToolRouter.

(** ** Vocabulary of the statements *)

(** The last [k] elements of [l], in order (all of [l] when [k] exceeds its
    length). *)
Definition last_n {A : Type} (k : nat) (l : list A) : list A :=
  skipn (List.length l - k) l.

(** Order of indexed properties by array index. *)
Definition index_le {V} (a b : N * (string * V)) : Prop := (fst a <= fst b)%N.

(** The terms a glob pattern stands for when [?] is not in it: [.*] for
    each [*], the character itself otherwise. *)
Definition glob_terms (pattern : string) : list PermissionGuard.term :=
  map (fun c => if Ascii.eqb c "*"
                then PermissionGuard.TAtom PermissionGuard.ADot PermissionGuard.QStar
                else PermissionGuard.TAtom (PermissionGuard.AChar c) PermissionGuard.QOne)
      (list_ascii_of_string pattern).

(** No line terminator (LF, CR) occurs in [s]. *)
Definition single_line (s : string) : Prop :=
  Forall (fun c => PermissionGuard.atom_matches PermissionGuard.ADot c = true)
    (list_ascii_of_string s).

(** The first server of [l], in list order, that caches a tool named [q],
    with that tool. *)
Definition first_cached (q : string)
  (l : list (string * ManifestManager.ServerManifestEntry))
  : option (string * ToolDefinition.t) :=
  match find (fun ne => match ManifestManager.find_tool q (snd ne) with
                        | Some _ => true
                        | None => false
                        end) l with
  | Some (name, entry) => option_map (pair name) (ManifestManager.find_tool q entry)
  | None => None
  end.

(** A key that is an array index / that is not. *)
Definition is_index {V} (p : string * V) : bool :=
  match JSObject.array_index (fst p) with Some _ => true | None => false end.

(** A tool of a given name, with an object schema. *)
Definition tool_named (name : string) : ToolDefinition.t :=
  {| ToolDefinition.name := name; ToolDefinition.description := None;
     ToolDefinition.inputSchema := Json.JObject [("type", Json.JString "object")] |}.

(** A stdio server config with the optional fields omitted. *)
Definition stdio_config (name : string) : ServerConfig.t :=
  {| ServerConfig.name := name; ServerConfig.command := "node";
     ServerConfig.args := None; ServerConfig.env := None;
     ServerConfig.transport := ServerConfig.stdio;
     ServerConfig.autoStart := None; ServerConfig.permissions := None |}.

(** [addServer(name)] followed by [updateTools(name, tools)]. *)
Definition with_server (m : ManifestManager.GolemManifest) (name : string)
  (tools : list ToolDefinition.t) : ManifestManager.GolemManifest :=
  match ManifestManager.updateTools "2026-01-01T00:00:00.000Z"
          (ManifestManager.addServer m (stdio_config name)) name tools with
  | Ret m' => m'
  | Throw _ => m
  end.

(** Invariant of the protocol engine: a pending request has its timer
    armed for the same method, an unsettled promise and an id below the
    counter. *)
Definition engine_inv (p : MCPProtocol.t) : Prop :=
  forall id method,
    JSMap.get Z.eqb id (MCPProtocol.pending p) = Some method ->
    JSMap.get Z.eqb id (MCPProtocol.timers p) = Some method
    /\ MCPProtocol.promise_of p id = Some MCPProtocol.Pending
    /\ id < MCPProtocol.nextId p.

(** Request [id] was rejected with [e] and has left the table for good. *)
Definition expired (id : Z) (e : MCPProtocol.js_error) (p : MCPProtocol.t) : Prop :=
  id < MCPProtocol.nextId p
  /\ JSMap.get Z.eqb id (MCPProtocol.pending p) = None
  /\ JSMap.get Z.eqb id (MCPProtocol.timers p) = None
  /\ MCPProtocol.promise_of p id = Some (MCPProtocol.Rejected e).

(** The managers that calls of the public methods can produce ([stop] and
    [stopAll] are [stopInternal] on known names, [restart] is [stopInternal]
    followed by [start]). *)
Inductive reachable : ServerManager.t -> Prop :=
| reach_new : reachable ServerManager.new
| reach_start (m : ServerManager.t) (cfg : ServerConfig.t)
    (env : ServerManager.connect_result) :
    reachable m -> reachable (fst (ServerManager.start m cfg env))
| reach_stop (m : ServerManager.t) (name : string) :
    reachable m -> reachable (ServerManager.stopInternal m name)
| reach_startAll (m : ServerManager.t)
    (configs : list (ServerConfig.t * ServerManager.connect_result)) :
    reachable m -> reachable (fst (ServerManager.startAll m configs)).

Definition client_of (p : string * ServerManager.ManagedServer) : N :=
  ServerManager.client (snd p).

(** Invariant of the manager: an entry's state carries the entry's key, and
    every entry has a client of its own, allocated earlier. *)
Definition manager_wf (m : ServerManager.t) : Prop :=
  (forall k ms, In (k, ms) (ServerManager.servers m) ->
     ServerState.name (ServerManager.state ms) = k
     /\ (ServerManager.client ms < ServerManager.nextClient m)%N)
  /\ NoDup (map client_of (ServerManager.servers m)).

(** Client [c] belongs to no entry that is not running. *)
Definition only_running (c : N) (m : ServerManager.t) : Prop :=
  (c < ServerManager.nextClient m)%N
  /\ forall k ms, In (k, ms) (ServerManager.servers m) ->
       ServerManager.client ms = c -> ServerManager.is_running ms = true.

(** The state [start] reports when it fails: [status = error] and the
    message. *)
Definition failed_state (name text : string) : ServerState.t :=
  {| ServerState.name := name; ServerState.status := ServerStatus.error;
     ServerState.pid := None;
     ServerState.capabilities := None; ServerState.serverInfo := None;
     ServerState.toolCount := None; ServerState.startedAt := None;
     ServerState.error := Some text |}.

(** A config with [autoStart: false]. *)
Definition manual_config (name : string) : ServerConfig.t :=
  {| ServerConfig.name := name; ServerConfig.command := "node";
     ServerConfig.args := None; ServerConfig.env := None;
     ServerConfig.transport := ServerConfig.stdio;
     ServerConfig.autoStart := Some false; ServerConfig.permissions := None |}.

(** A successful handshake that lists three tools. *)
Definition connects : ServerManager.connect_result :=
  ServerManager.Connected None None "2026-01-01T00:00:00.000Z" (Some 3).

(** Between calls the names of the managed servers are distinct, a server
    is managed under the name of its config, and every managed server is
    running or, when registered by [startAll] without being started,
    stopped. *)
Definition manager_quiet (m : ServerManager.t) : Prop :=
  NoDup (JSMap.keys (ServerManager.servers m))
  /\ forall k ms, In (k, ms) (ServerManager.servers m) ->
       ServerConfig.name (ServerManager.config ms) = k
       /\ (ServerState.status (ServerManager.state ms) = ServerStatus.running
           \/ ServerState.status (ServerManager.state ms) = ServerStatus.stopped).

(** The state [stopInternal] emits for a server whose state was [st]. *)
Definition stopped_state (st : ServerState.t) : ServerState.t :=
  {| ServerState.name := ServerState.name st;
     ServerState.status := ServerStatus.stopped;
     ServerState.pid := ServerState.pid st;
     ServerState.capabilities := None; ServerState.serverInfo := None;
     ServerState.toolCount := None; ServerState.startedAt := None;
     ServerState.error := None |}.

(** What [listAllTools] obtains from the server with state [st]: the tools
    its client lists, when the server is running and the listing succeeds. *)
Definition tools_listed (sm : ServerManager.t)
  (listing : N -> option (list ToolDefinition.t)) (st : ServerState.t)
  : option (list ToolDefinition.t) :=
  if ServerStatus.eqb (ServerState.status st) ServerStatus.running
  then match ServerManager.getClient sm (ServerState.name st) with
       | Some c => listing c
       | None => None
       end
  else None.

(** Request [id] has been settled with [o]: it is allocated, neither
    pending nor timed, and its promise holds [o], which is not [Pending]. *)
Definition answered (id : Z) (o : MCPProtocol.promise) (p : MCPProtocol.t) : Prop :=
  id < MCPProtocol.nextId p
  /\ JSMap.get Z.eqb id (MCPProtocol.pending p) = None
  /\ JSMap.get Z.eqb id (MCPProtocol.timers p) = None
  /\ MCPProtocol.promise_of p id = Some o
  /\ o <> MCPProtocol.Pending.

(** The number of [request] calls among the events. *)
Definition requests_made (evs : list MCPProtocol.event) : nat :=
  List.length
    (filter (fun ev => match ev with MCPProtocol.CallRequest _ _ => true | _ => false end)
       evs).

(** No promise has been created for an id that is not yet allocated. *)
Definition ids_below_counter (p : MCPProtocol.t) : Prop :=
  forall id, MCPProtocol.nextId p <= id -> MCPProtocol.promise_of p id = None.

(** The characters an environment prefix is made of: [A-Z], [0-9], [_]. *)
Definition is_env_char (c : ascii) : bool :=
  let n := N_of_ascii c in
  ((65 <=? n) && (n <=? 90) || (48 <=? n) && (n <=? 57) || (n =? 95))%N.

(** The value of [serverConfig.env[k]], [None] where there is none. *)
Definition config_env (cfg : ServerConfig.t) (k : string) : option string :=
  match ServerConfig.env cfg with
  | Some o => JSObject.get k o
  | None => None
  end.

(** The substrings that make a lower-cased key sensitive. *)
Definition EFFECTIVE_KEYS : list string :=
  ["password"; "secret"; "token"; "api_key"; "authorization"].

(** [record] called on each entry of [es] in turn. *)
Definition record_all (log : AuditLog.t) (es : list AuditLog.AuditEntry) : AuditLog.t :=
  fold_left AuditLog.record es log.

(** A denial entry, as [logDenial] builds it; used to run the log on
    concrete inputs. *)
Definition denial (tool : string) : AuditLog.AuditEntry :=
  {| AuditLog.timestamp := "2026-01-01T00:00:00.000Z"; AuditLog.server := "srv";
     AuditLog.tool := tool; AuditLog.action := AuditLog.deny;
     AuditLog.arguments := None; AuditLog.result := None;
     AuditLog.reason := Some "denied"; AuditLog.durationMs := None |}.

(* ===================================================================== *)
(** * Part II.  Theorems                                                   *)
(* ===================================================================== *)

Example string_of_N_0 : JS.string_of_N 0 = "0".
Proof. reflexivity. Qed.

Example string_of_N_42 : JS.string_of_N 42 = "42".
Proof. reflexivity. Qed.

Example toLowerCase_apiKey : JS.toLowerCase "apiKey" = "apikey".
Proof. reflexivity. Qed.

Example entries_order :
  JSObject.entries [("b", 1); ("10", 2); ("2", 3); ("01", 4)]
  = [("2", 3); ("10", 2); ("b", 1); ("01", 4)].
Proof. reflexivity. Qed.


(** ** Arrays: [slice] *)

Lemma slice_zero {A : Type} (l : list A) : JS.slice l 0 = l.
Proof.
  unfold JS.slice, JS.relative_index. simpl.
  rewrite Z.min_l by lia. reflexivity.
Qed.

Lemma slice_negative {A : Type} (l : list A) (n : Z) :
  0 < n -> JS.slice l (- n) = last_n (Z.to_nat n) l.
Proof.
  intros Hn. unfold JS.slice, JS.relative_index, last_n.
  destruct (Z.ltb_spec (- n) 0) as [_ | H]; [| lia].
  f_equal. lia.
Qed.

Lemma last_n_length {A : Type} (k : nat) (l : list A) :
  List.length (last_n k l) = Nat.min k (List.length l).
Proof. unfold last_n. rewrite length_skipn. lia. Qed.

Lemma last_n_all {A : Type} (k : nat) (l : list A) :
  (List.length l <= k)%nat -> last_n k l = l.
Proof.
  intros H. unfold last_n. replace (List.length l - k)%nat with 0%nat by lia.
  reflexivity.
Qed.

Lemma last_n_snoc {A : Type} (k : nat) (l : list A) (x : A) :
  last_n (S k) (l ++ [x]) = (last_n k l ++ [x])%list.
Proof.
  unfold last_n. rewrite length_app. simpl.
  replace (List.length l + 1 - S k)%nat with (List.length l - k)%nat by lia.
  rewrite skipn_app.
  replace (List.length l - k - List.length l)%nat with 0%nat by lia.
  reflexivity.
Qed.

Lemma last_n_last_n {A : Type} (j k : nat) (l : list A) :
  (j <= k)%nat -> last_n j (last_n k l) = last_n j l.
Proof.
  intros H. unfold last_n at 1. rewrite last_n_length.
  unfold last_n. rewrite skipn_skipn. f_equal. lia.
Qed.

(** ** AuditLog: capacity and [recent] *)

Lemma record_entries (log : AuditLog.t) (e : AuditLog.AuditEntry) :
  0 < AuditLog.maxEntries log ->
  AuditLog.entries (AuditLog.record log e)
  = last_n (Z.to_nat (AuditLog.maxEntries log)) (AuditLog.entries log ++ [e]).
Proof.
  intros Hpos. unfold AuditLog.record.
  destruct (Z.gtb_spec (Z.of_nat (List.length (AuditLog.entries log ++ [e])))
              (AuditLog.maxEntries log)) as [Hgt | Hle]; simpl.
  - apply slice_negative; assumption.
  - symmetry. apply last_n_all. lia.
Qed.

Lemma record_maxEntries (log : AuditLog.t) (e : AuditLog.AuditEntry) :
  AuditLog.maxEntries (AuditLog.record log e) = AuditLog.maxEntries log.
Proof.
  unfold AuditLog.record.
  destruct (_ >? _); reflexivity.
Qed.

Lemma record_all_snoc (log : AuditLog.t) (es : list AuditLog.AuditEntry)
  (e : AuditLog.AuditEntry) :
  record_all log (es ++ [e]) = AuditLog.record (record_all log es) e.
Proof. unfold record_all. rewrite fold_left_app. reflexivity. Qed.

Lemma record_all_maxEntries (log : AuditLog.t) (es : list AuditLog.AuditEntry) :
  AuditLog.maxEntries (record_all log es) = AuditLog.maxEntries log.
Proof.
  induction es as [| e es IH] using rev_ind; [reflexivity |].
  rewrite record_all_snoc, record_maxEntries. exact IH.
Qed.

(** After any sequence of records on a fresh log of capacity [N >= 1], the
    log holds exactly the last [N] of them. *)
Lemma record_all_entries (N : Z) (es : list AuditLog.AuditEntry) :
  0 < N ->
  AuditLog.entries (record_all (AuditLog.new (Some N)) es) = last_n (Z.to_nat N) es.
Proof.
  intros HN. induction es as [| e es IH] using rev_ind; [reflexivity |].
  rewrite record_all_snoc, record_entries
    by (rewrite record_all_maxEntries; exact HN).
  rewrite record_all_maxEntries, IH. simpl.
  destruct (Z.to_nat N) as [| k] eqn:Hk; [lia |].
  rewrite !last_n_snoc, last_n_last_n by lia. reflexivity.
Qed.

(** C6 (the code at capacity 0).  A log constructed with [maxEntries = 0]
    never evicts: after any [k] records it holds all [k] of them, because
    [slice(-0)] is [slice(0)].  Its count exceeds the capacity after the
    first record. *)
Theorem capacity_zero_never_evicts (es : list AuditLog.AuditEntry) :
  AuditLog.entries (record_all (AuditLog.new (Some 0)) es) = es
  /\ AuditLog.count (record_all (AuditLog.new (Some 0)) es) = Z.of_nat (List.length es)
  /\ AuditLog.count (AuditLog.record (AuditLog.new (Some 0)) (denial "t")) = 1.
Proof.
  assert (H : AuditLog.entries (record_all (AuditLog.new (Some 0)) es) = es).
  { induction es as [| e es IH] using rev_ind; [reflexivity |].
    rewrite record_all_snoc. unfold AuditLog.record.
    rewrite record_all_maxEntries, IH. simpl AuditLog.maxEntries.
    destruct (Z.gtb_spec (Z.of_nat (List.length (es ++ [e]))) 0) as [_ | Hle]; simpl.
    - apply slice_zero.
    - reflexivity. }
  unfold AuditLog.count. rewrite H. repeat split; reflexivity.
Qed.

(** X4.  For a capacity [N >= 1]: after any sequence of records the count is at
    most [N]; once at least [N] records were made the count is [N] and
    [recent(N)] is the last [N] records, oldest first. *)
Theorem capacity_bound_and_eviction (N : Z) (es : list AuditLog.AuditEntry) :
  1 <= N ->
  AuditLog.count (record_all (AuditLog.new (Some N)) es) <= N
  /\ (N <= Z.of_nat (List.length es) ->
      AuditLog.count (record_all (AuditLog.new (Some N)) es) = N
      /\ AuditLog.recent (record_all (AuditLog.new (Some N)) es) (Some N)
         = last_n (Z.to_nat N) es).
Proof.
  intros HN. unfold AuditLog.count, AuditLog.recent.
  rewrite record_all_entries by lia. rewrite last_n_length.
  split; [lia |]. intros Hk. split; [lia |].
  rewrite slice_negative by lia. apply last_n_last_n. lia.
Qed.

Lemma capacity_bound_and_eviction_witness :
  AuditLog.count (record_all (AuditLog.new (Some 2)) [denial "a"; denial "b"; denial "c"]) <= 2
  /\ AuditLog.recent (record_all (AuditLog.new (Some 2)) [denial "a"; denial "b"; denial "c"])
       (Some 2) = [denial "b"; denial "c"].
Proof.
  destruct (capacity_bound_and_eviction 2 [denial "a"; denial "b"; denial "c"]) as [H1 H2];
    [lia |].
  split; [exact H1 |].
  destruct H2 as [_ H2]; [simpl; lia |]. exact H2.
Defined.

(** C7 (the code at count 0).  [recent(0)] returns every entry of the log,
    not none: [slice(-0)] is [slice(0)]. *)
Theorem recent_zero_returns_all (log : AuditLog.t) :
  AuditLog.recent log (Some 0) = AuditLog.entries log
  /\ AuditLog.recent (AuditLog.record (AuditLog.new None) (denial "t")) (Some 0)
     = [denial "t"].
Proof.
  split.
  - unfold AuditLog.recent. apply slice_zero.
  - reflexivity.
Qed.

(** X5.  For a count [c >= 1], [recent(c)] is the last [min(c, size)] entries in
    insertion order; an omitted count is 50. *)
Theorem recent_positive (log : AuditLog.t) (c : Z) :
  1 <= c ->
  AuditLog.recent log (Some c)
  = last_n (Z.to_nat (Z.min c (AuditLog.count log))) (AuditLog.entries log)
  /\ AuditLog.recent log None = AuditLog.recent log (Some 50).
Proof.
  intros Hc. split; [| reflexivity].
  unfold AuditLog.recent, AuditLog.count.
  rewrite slice_negative by lia. unfold last_n. f_equal. lia.
Qed.

Lemma recent_positive_witness :
  AuditLog.recent (record_all (AuditLog.new None) [denial "a"; denial "b"; denial "c"]) (Some 2)
  = [denial "b"; denial "c"].
Proof.
  destruct (recent_positive
              (record_all (AuditLog.new None) [denial "a"; denial "b"; denial "c"]) 2) as [H _];
    [lia |].
  exact H.
Defined.

(** ** Objects: [get], [define], [assign], [entries] *)

Lemma get_define_same {V} (k : string) (v : V) (o : JSObject.t V) :
  JSObject.get k (JSObject.define k v o) = Some v.
Proof.
  induction o as [| [k' v'] r IH]; simpl.
  - rewrite String.eqb_refl. reflexivity.
  - destruct (String.eqb k k') eqn:E; simpl; rewrite E; [reflexivity | exact IH].
Qed.

Lemma get_define_other {V} (k k0 : string) (v : V) (o : JSObject.t V) :
  k <> k0 -> JSObject.get k (JSObject.define k0 v o) = JSObject.get k o.
Proof.
  intros Hne. induction o as [| [k' v'] r IH]; simpl.
  - destruct (String.eqb_spec k k0); [contradiction | reflexivity].
  - destruct (String.eqb_spec k0 k') as [-> | Hk0]; simpl.
    + destruct (String.eqb_spec k k'); [contradiction | reflexivity].
    + destruct (String.eqb k k'); [reflexivity | exact IH].
Qed.

Lemma get_assign {V} (k k0 : string) (v : V) (o : JSObject.t V) :
  k <> "__proto__" ->
  JSObject.get k (JSObject.assign k0 v o)
  = if String.eqb k k0 then Some v else JSObject.get k o.
Proof.
  intros Hproto. unfold JSObject.assign.
  destruct (String.eqb_spec k0 "__proto__") as [-> | Hk0].
  - destruct (String.eqb_spec k "__proto__"); [contradiction | reflexivity].
  - destruct (String.eqb_spec k k0) as [-> | Hne].
    + apply get_define_same.
    + apply get_define_other; assumption.
Qed.

Lemma get_In {V} (k : string) (v : V) (o : JSObject.t V) :
  NoDup (map fst o) -> (JSObject.get k o = Some v <-> In (k, v) o).
Proof.
  induction o as [| [k' v'] r IH]; simpl; intros Hnd.
  - split; [discriminate | contradiction].
  - inversion Hnd as [| ? ? Hnotin Hnd']; subst.
    destruct (String.eqb_spec k k') as [-> | Hne].
    + split.
      * intros [= ->]. left; reflexivity.
      * intros [[= ->] | Hin]; [reflexivity |].
        exfalso. apply Hnotin. apply (in_map fst) in Hin. exact Hin.
    + rewrite IH by assumption. split.
      * intros Hin; right; exact Hin.
      * intros [[= E _] | Hin]; [congruence | exact Hin].
Qed.

Lemma get_None_notin {V} (k : string) (o : JSObject.t V) :
  JSObject.get k o = None <-> ~ In k (map fst o).
Proof.
  induction o as [| [k' v'] r IH]; simpl.
  - split; [intros _ [] | reflexivity].
  - destruct (String.eqb_spec k k') as [-> | Hne].
    + split; [discriminate | intros H; exfalso; apply H; left; reflexivity].
    + rewrite IH. split.
      * intros H [E | Hin]; [congruence | contradiction].
      * intros H Hin. apply H. right; exact Hin.
Qed.

Lemma insert_indexed_perm {V} (n : N) (p : string * V) (l : list (N * (string * V))) :
  Permutation (JSObject.insert_indexed n p l) ((n, p) :: l).
Proof.
  induction l as [| [m q] r IH]; simpl.
  - apply Permutation_refl.
  - destruct (n <? m)%N.
    + apply Permutation_refl.
    + eapply perm_trans; [apply perm_skip; exact IH | apply perm_swap].
Qed.

(** [Object.entries] lists every own property exactly once. *)
Lemma entries_perm {V} (o : JSObject.t V) : Permutation (JSObject.entries o) o.
Proof.
  unfold JSObject.entries, JSObject.named_entries.
  induction o as [| [k v] r IH]; simpl.
  - apply Permutation_refl.
  - destruct (JSObject.array_index k) as [n |]; simpl.
    + eapply perm_trans.
      * apply Permutation_app_tail. apply Permutation_map. apply insert_indexed_perm.
      * simpl. apply perm_skip. exact IH.
    + eapply perm_trans; [apply Permutation_sym, Permutation_middle |].
      apply perm_skip. exact IH.
Qed.

Lemma entries_NoDup {V} (o : JSObject.t V) :
  NoDup (map fst o) -> NoDup (map fst (JSObject.entries o)).
Proof.
  intros H. eapply Permutation_NoDup; [| exact H].
  apply Permutation_map, Permutation_sym, entries_perm.
Qed.

Lemma get_entries {V} (k : string) (o : JSObject.t V) :
  NoDup (map fst o) -> JSObject.get k (JSObject.entries o) = JSObject.get k o.
Proof.
  intros Hnd. destruct (JSObject.get k o) as [v |] eqn:E.
  - apply get_In; [apply entries_NoDup; exact Hnd |].
    eapply Permutation_in; [apply Permutation_sym, entries_perm |].
    apply get_In; assumption.
  - apply get_None_notin. apply get_None_notin in E. intros Hin. apply E.
    eapply Permutation_in; [apply Permutation_map, entries_perm | exact Hin].
Qed.

(** Without array-index keys, [Object.entries] is creation order. *)
Lemma entries_insertion_order {V} (o : JSObject.t V) :
  Forall (fun p => JSObject.array_index (fst p) = None) o -> JSObject.entries o = o.
Proof.
  intros H. unfold JSObject.entries, JSObject.named_entries.
  assert (Hidx : JSObject.indexed_entries o = []).
  { induction H as [| [k v] r Hk _ IH]; simpl; [reflexivity |].
    simpl in Hk. rewrite Hk. exact IH. }
  rewrite Hidx. simpl.
  induction H as [| [k v] r Hk Hr IH]; simpl; [reflexivity |].
  simpl in Hk. rewrite Hk. f_equal. apply IH.
  simpl in Hidx. rewrite Hk in Hidx. exact Hidx.
Qed.

Lemma insert_indexed_sorted {V} (n : N) (p : string * V) (l : list (N * (string * V))) :
  StronglySorted index_le l -> StronglySorted index_le (JSObject.insert_indexed n p l).
Proof.
  induction 1 as [| [m q] r Hr IH Hall]; simpl.
  - constructor; [constructor | constructor].
  - destruct (N.ltb_spec n m) as [Hlt | Hge].
    + constructor; [constructor; assumption |].
      constructor; [unfold index_le; simpl; lia |].
      eapply Forall_impl; [| exact Hall].
      intros [m' q'] H. unfold index_le in *. simpl in *. lia.
    + constructor; [exact IH |].
      eapply Permutation_Forall; [apply Permutation_sym, insert_indexed_perm |].
      constructor; [unfold index_le; simpl; lia | exact Hall].
Qed.

Lemma indexed_entries_sorted {V} (o : JSObject.t V) :
  StronglySorted index_le (JSObject.indexed_entries o).
Proof.
  induction o as [| [k v] r IH]; simpl; [constructor |].
  destruct (JSObject.array_index k); [apply insert_indexed_sorted |]; exact IH.
Qed.

Lemma indexed_entries_index {V} (o : JSObject.t V) :
  Forall (fun e => JSObject.array_index (fst (snd e)) = Some (fst e) /\ In (snd e) o)
    (JSObject.indexed_entries o).
Proof.
  induction o as [| [k v] r IH]; simpl; [constructor |].
  assert (IH' : Forall (fun e => JSObject.array_index (fst (snd e)) = Some (fst e)
                                 /\ ((k, v) = snd e \/ In (snd e) r))
                  (JSObject.indexed_entries r)).
  { eapply Forall_impl; [| exact IH]. intros e [H1 H2]. split; [exact H1 | right; exact H2]. }
  destruct (JSObject.array_index k) as [n |] eqn:E; [| exact IH'].
  eapply Permutation_Forall; [apply Permutation_sym, insert_indexed_perm |].
  constructor; [| exact IH']. simpl. split; [exact E | left; reflexivity].
Qed.

(** ** AuditLog: redaction *)

(** C1 (the code on the key [apiKey]).  [logInvocation] records the value
    of an argument named [apiKey] (or [apikey]) unchanged: the key is
    lower-cased before it is compared with the mixed-case entry ['apiKey']
    of [SENSITIVE_KEYS], and the list has no entry ['apikey']. *)
Theorem apiKey_argument_not_redacted :
  AuditLog.is_sensitive "apiKey" = false
  /\ AuditLog.is_sensitive "apikey" = false
  /\ map AuditLog.arguments
       (AuditLog.entries
          (AuditLog.logInvocation "2026-01-01T00:00:00.000Z" (AuditLog.new None)
             "srv" "deploy"
             (Some [("apiKey", Json.JString "sk-live-1"); ("api_key", Json.JString "sk-live-2")])
             (Some AuditLog.success) (Some 12)))
     = [Some [("apiKey", Json.JString "sk-live-1"); ("api_key", AuditLog.REDACTED)]].
Proof. repeat split; reflexivity. Qed.

Lemma prefix_In (a b : string) (c : ascii) :
  prefix a b = true -> In c (list_ascii_of_string a) -> In c (list_ascii_of_string b).
Proof.
  revert b. induction a as [| x a IH]; intros b Hp Hin; [contradiction |].
  destruct b as [| y b]; [discriminate |]. simpl in Hp.
  destruct (Ascii.ascii_dec x y) as [-> | ]; [| discriminate].
  destruct Hin as [-> | Hin]; [left; reflexivity | right; apply IH; assumption].
Qed.

Lemma includes_In (s sub : string) (c : ascii) :
  JS.includes s sub = true -> In c (list_ascii_of_string sub) ->
  In c (list_ascii_of_string s).
Proof.
  induction s as [| x s IH]; cbn [JS.includes]; intros H Hin.
  - destruct (prefix sub "") eqn:E; [| discriminate].
    eapply prefix_In; eassumption.
  - destruct (prefix sub (String x s)) eqn:E.
    + apply (prefix_In _ _ _ E Hin).
    + right. apply IH; assumption.
Qed.

Lemma lower_char_not_K (c : ascii) : JS.lower_char c <> "K"%char.
Proof.
  destruct c as [[] [] [] [] [] [] [] []]; vm_compute; discriminate.
Qed.

Lemma toLowerCase_no_K (s : string) :
  ~ In "K"%char (list_ascii_of_string (JS.toLowerCase s)).
Proof.
  induction s as [| c s IH]; simpl; [intros [] |].
  intros [H | H]; [exact (lower_char_not_K c H) | exact (IH H)].
Qed.

(** The entry ['apiKey'] of [SENSITIVE_KEYS] never matches. *)
Lemma is_sensitive_effective (key : string) :
  AuditLog.is_sensitive key
  = existsb (fun s => JS.includes (JS.toLowerCase key) s) EFFECTIVE_KEYS.
Proof.
  unfold AuditLog.is_sensitive, AuditLog.SENSITIVE_KEYS, EFFECTIVE_KEYS. simpl.
  destruct (JS.includes (JS.toLowerCase key) "apiKey") eqn:E; [| reflexivity].
  exfalso. apply (toLowerCase_no_K key).
  apply (includes_In _ _ _ E). simpl. tauto.
Qed.

Lemma redact_fold_get (l : list (string * Json.value)) (acc : JSObject.t Json.value)
  (k : string) :
  NoDup (map fst l) -> k <> "__proto__" ->
  JSObject.get k
    (fold_left
       (fun redacted kv =>
          if AuditLog.is_sensitive (fst kv)
          then JSObject.assign (fst kv) AuditLog.REDACTED redacted
          else JSObject.assign (fst kv) (snd kv) redacted) l acc)
  = match JSObject.get k l with
    | Some v => Some (if AuditLog.is_sensitive k then AuditLog.REDACTED else v)
    | None => JSObject.get k acc
    end.
Proof.
  intros Hnd Hk. revert acc. induction l as [| [k' v'] r IH]; intros acc; simpl.
  - reflexivity.
  - inversion Hnd as [| ? ? Hnotin Hnd']; subst.
    rewrite IH by assumption.
    destruct (String.eqb_spec k k') as [-> | Hne].
    + assert (E : JSObject.get k' r = None) by (apply get_None_notin; exact Hnotin).
      rewrite E.
      destruct (AuditLog.is_sensitive k'); rewrite get_assign by assumption;
        rewrite String.eqb_refl; reflexivity.
    + destruct (JSObject.get k r); [reflexivity |].
      destruct (AuditLog.is_sensitive k'); rewrite get_assign by assumption;
        (destruct (String.eqb_spec k k'); [contradiction | reflexivity]).
Qed.

Lemma record_last (log : AuditLog.t) (e : AuditLog.AuditEntry) :
  0 < AuditLog.maxEntries log ->
  exists older, AuditLog.entries (AuditLog.record log e) = (older ++ [e])%list.
Proof.
  intros H. rewrite record_entries by assumption.
  destruct (Z.to_nat (AuditLog.maxEntries log)) as [| n] eqn:E; [lia |].
  rewrite last_n_snoc. eexists; reflexivity.
Qed.

(** X1.  Redaction as it works: in a log of positive capacity the newest entry
    after [logInvocation] is the invocation, and each top-level argument key
    (other than [__proto__]) is recorded with ["[REDACTED]"] when its
    lower-cased form contains ["password"], ["secret"], ["token"],
    ["api_key"] or ["authorization"], and with its original value
    otherwise. *)
Theorem logInvocation_redacts (now : string) (log : AuditLog.t) (server tool : string)
  (args : JSObject.t Json.value) (result : option AuditLog.AuditResult)
  (durationMs : option Z) (k : string) (v : Json.value) :
  0 < AuditLog.maxEntries log ->
  NoDup (map fst args) ->
  k <> "__proto__" ->
  JSObject.get k args = Some v ->
  exists older recorded,
    AuditLog.entries (AuditLog.logInvocation now log server tool (Some args) result durationMs)
    = (older ++ [{| AuditLog.timestamp := now; AuditLog.server := server;
                    AuditLog.tool := tool; AuditLog.action := AuditLog.invoke;
                    AuditLog.arguments := Some recorded; AuditLog.result := result;
                    AuditLog.reason := None; AuditLog.durationMs := durationMs |}])%list
    /\ JSObject.get k recorded
       = Some (if existsb (fun s => JS.includes (JS.toLowerCase k) s) EFFECTIVE_KEYS
               then AuditLog.REDACTED else v).
Proof.
  intros Hcap Hnd Hk Hget.
  destruct (record_last log
              {| AuditLog.timestamp := now; AuditLog.server := server;
                 AuditLog.tool := tool; AuditLog.action := AuditLog.invoke;
                 AuditLog.arguments := AuditLog.redactSensitive (Some args);
                 AuditLog.result := result; AuditLog.reason := None;
                 AuditLog.durationMs := durationMs |} Hcap) as [older Holder].
  exists older. eexists. split; [exact Holder |].
  rewrite redact_fold_get by (try apply entries_NoDup; assumption).
  rewrite get_entries by assumption. rewrite Hget.
  rewrite is_sensitive_effective. reflexivity.
Qed.

Lemma logInvocation_redacts_witness :
  exists older recorded,
    AuditLog.entries
      (AuditLog.logInvocation "now" (AuditLog.new None) "srv" "login"
         (Some [("user", Json.JString "ann"); ("Password", Json.JString "hunter2")])
         None None)
    = (older ++ [{| AuditLog.timestamp := "now"; AuditLog.server := "srv";
                    AuditLog.tool := "login"; AuditLog.action := AuditLog.invoke;
                    AuditLog.arguments := Some recorded; AuditLog.result := None;
                    AuditLog.reason := None; AuditLog.durationMs := None |}])%list
    /\ JSObject.get "Password" recorded = Some AuditLog.REDACTED.
Proof.
  apply (logInvocation_redacts "now" (AuditLog.new None) "srv" "login"
           [("user", Json.JString "ann"); ("Password", Json.JString "hunter2")]
           None None "Password" (Json.JString "hunter2")).
  - simpl. lia.
  - simpl. repeat constructor; simpl; intuition discriminate.
  - discriminate.
  - reflexivity.
Defined.

(** ** PermissionGuard: [matchGlob] *)

Section MatchGlob.
Import PermissionGuard.

(** C2 (the code on patterns with [?]).  [matchGlob] does not escape [?]:
    in the regular expression it is a quantifier of the character before
    it.  A pattern [delete_?*] therefore matches [delete_file], a pattern
    [a?b*] does not match the literal [a?b], and a pattern that begins with
    [?] makes [new RegExp] throw; glob semantics gives the opposite answers.
    [checkToolPermission] permits a tool the rule does not name. *)
Theorem question_mark_is_a_quantifier :
  matchGlob "delete_?*" "delete_file" = Ret true
  /\ glob_spec "delete_?*" "delete_file" = false
  /\ matchGlob "a?b*" "a?b" = Ret false
  /\ glob_spec "a?b*" "a?b" = true
  /\ matchGlob "?*" "x" = Throw "Invalid regular expression: /^?.*$/: Nothing to repeat"
  /\ checkToolPermission
       (loadRules new [{| tool := "delete_?*"; allow := true; scopes := None |}])
       "delete_file" None
     = Ret {| allowed := true; reason := None |}.
Proof. repeat split; reflexivity. Qed.

Lemma compile_ordinary (c : ascii) (pd : pending) (acc : list term) (r : string) :
  is_escaped c = false -> Ascii.eqb c "*" = false -> Ascii.eqb c "?" = false ->
  compile pd acc (String c r) = compile (PAtom (AChar c)) (flush pd acc) r.
Proof.
  destruct c as [[] [] [] [] [] [] [] []]; intros H1 H2 H3;
    try discriminate H1; try discriminate H2; try discriminate H3; reflexivity.
Qed.

Lemma compile_escaped (c : ascii) (pd : pending) (acc : list term) (r : string) :
  is_escaped c = true ->
  compile pd acc (String "\" (String c r)) = compile (PAtom (AChar c)) (flush pd acc) r.
Proof.
  destruct c as [[] [] [] [] [] [] [] []]; intros H1; try discriminate H1; reflexivity.
Qed.

Lemma escaped_not_star (c : ascii) :
  is_escaped c = true -> Ascii.eqb c "*" = false /\ Ascii.eqb c "?" = false.
Proof.
  destruct c as [[] [] [] [] [] [] [] []]; intros H1; try discriminate H1; split; reflexivity.
Qed.

Lemma replace_star_escaped (c : ascii) (r : string) :
  is_escaped c = true ->
  replace_star (String "\" (String c r)) = String "\" (String c (replace_star r)).
Proof.
  intros H. destruct (escaped_not_star c H) as [E _].
  cbn [replace_star]. rewrite E. reflexivity.
Qed.

(** The source [matchGlob] builds never leaves the fragment [compile]
    parses. *)
Lemma compile_glob_supported (p : string) (pd : pending) (acc : list term) :
  compile pd acc (replace_star (escape_meta p) ++ "$") <> Unsupported.
Proof.
  revert pd acc. induction p as [| c p IH]; intros pd acc.
  - simpl. discriminate.
  - cbn [escape_meta]. destruct (is_escaped c) eqn:Hesc.
    + rewrite replace_star_escaped by assumption.
      cbn [String.append]. rewrite compile_escaped by assumption. apply IH.
    + cbn [replace_star]. destruct (Ascii.eqb_spec c "*") as [-> | Hstar].
      * cbn [String.append]. cbn [compile]. simpl Ascii.eqb. cbv iota.
        apply IH.
      * destruct (Ascii.eqb_spec c "?") as [-> | Hq].
        -- cbn [String.append]. cbn [compile]. simpl Ascii.eqb. cbv iota.
           destruct pd; try discriminate; apply IH.
        -- cbn [String.append]. rewrite compile_ordinary; auto.
           ++ apply Ascii.eqb_neq; assumption.
           ++ apply Ascii.eqb_neq; assumption.
Qed.

Lemma glob_source_supported (p : string) : RegExp (glob_source p) <> Unsupported.
Proof.
  unfold RegExp, glob_source. cbn [String.append compile]. simpl Ascii.eqb. cbv iota.
  apply compile_glob_supported.
Qed.

Lemma compile_glob_terms (p : string) (pd : pending) (acc : list term) :
  ~ In "?"%char (list_ascii_of_string p) ->
  compile pd acc (replace_star (escape_meta p) ++ "$")
  = Compiled (rev (flush pd acc) ++ glob_terms p ++ [TEnd]).
Proof.
  revert pd acc. induction p as [| c p IH]; intros pd acc Hq.
  - reflexivity.
  - assert (Hq' : ~ In "?"%char (list_ascii_of_string p))
      by (intros H; apply Hq; right; exact H).
    assert (Hc : Ascii.eqb c "?" = false)
      by (apply Ascii.eqb_neq; intros ->; apply Hq; left; reflexivity).
    cbn [escape_meta]. unfold glob_terms. cbn [list_ascii_of_string map].
    fold (glob_terms p).
    destruct (is_escaped c) eqn:Hesc.
    + rewrite replace_star_escaped by assumption.
      cbn [String.append]. rewrite compile_escaped by assumption.
      destruct (escaped_not_star c Hesc) as [-> _].
      rewrite IH by assumption. cbn [flush rev]. rewrite <- app_assoc. reflexivity.
    + cbn [replace_star]. destruct (Ascii.eqb_spec c "*") as [-> | Hstar].
      * cbn [String.append]. cbn [compile]. simpl Ascii.eqb. cbv iota.
        rewrite IH by assumption. cbn [flush rev]. rewrite <- app_assoc. reflexivity.
      * cbn [String.append]. rewrite compile_ordinary; auto.
        -- rewrite IH by assumption. cbn [flush rev]. rewrite <- app_assoc. reflexivity.
        -- apply Ascii.eqb_neq; assumption.
Qed.

Lemma search_anchored (ts : list term) (s : string) : search (TStart :: ts) false s = false.
Proof. induction s as [| c s IH]; simpl; [reflexivity | exact IH]. Qed.

Lemma test_anchored (ts : list term) (s : string) :
  test (TStart :: ts) s = match_here ts true s.
Proof.
  unfold test. destruct s as [| c s]; cbn [search].
  - cbn [match_here]. simpl. apply orb_false_r.
  - rewrite search_anchored. cbn [match_here]. simpl. apply orb_false_r.
Qed.

Lemma match_here_glob (p : string) (st : bool) (v : string) :
  single_line v -> match_here (glob_terms p ++ [TEnd]) st v = glob_spec p v.
Proof.
  revert st v. induction p as [| c p IH]; intros st v Hv.
  - destruct v; reflexivity.
  - unfold glob_terms. cbn [list_ascii_of_string map]. fold (glob_terms p).
    cbn [glob_spec]. destruct (Ascii.eqb c "*").
    + cbn [app match_here]. revert st.
      induction v as [| x v IHv]; intros st.
      * rewrite IH by assumption. rewrite orb_false_r. reflexivity.
      * inversion Hv as [| ? ? Hx Hv']; subst.
        rewrite IH by assumption. rewrite Hx. cbn [andb].
        f_equal. apply IHv. exact Hv'.
    + cbn [app match_here]. destruct v as [| x v]; [reflexivity |].
      inversion Hv as [| ? ? Hx Hv']; subst.
      cbn [atom_matches]. rewrite IH by assumption. reflexivity.
Qed.

(** X2.  On a pattern without [?] and a tool name without line terminators,
    [matchGlob] returns and agrees with glob semantics: [*] matches any run
    of characters and every other character of the pattern, the escaped
    metacharacters [. + ^ $ { } ( ) | [ ] \] included, matches itself. *)
Theorem matchGlob_refines_glob (pattern value : string) :
  ~ In "?"%char (list_ascii_of_string pattern) ->
  single_line value ->
  matchGlob pattern value = Ret (glob_spec pattern value).
Proof.
  intros Hq Hv. unfold matchGlob, RegExp, glob_source.
  cbn [String.append compile]. simpl Ascii.eqb. cbv iota.
  rewrite compile_glob_terms by assumption.
  cbn [flush rev app]. rewrite test_anchored, match_here_glob by assumption.
  reflexivity.
Qed.

Lemma matchGlob_refines_glob_witness :
  matchGlob "file.*[x]" "file.read[x]" = Ret true.
Proof.
  apply (matchGlob_refines_glob "file.*[x]" "file.read[x]").
  - simpl. intuition discriminate.
  - unfold single_line. simpl. repeat constructor.
Defined.

End MatchGlob.

(** ** ManifestManager: [load] *)

(** C3 (the code on valid JSON that is no manifest).  A manifest file whose
    text is [null] parses, so [load] stores and returns [null], not the
    empty manifest, and the next method of the manager throws a TypeError
    when it evaluates [this.manifest.servers]. *)
Theorem load_keeps_non_manifest_json :
  Json.parse "null" = Some Json.JNull
  /\ snd (ManifestManager.load Json.parse (ManifestManager.new "m.json")
            (ManifestManager.File "null")) = Json.JNull
  /\ Json.JNull <> ManifestManager.empty_manifest
  /\ ManifestManager.read_servers
       (fst (ManifestManager.load Json.parse (ManifestManager.new "m.json")
               (ManifestManager.File "null")))
     = Throw "TypeError: Cannot read properties of null (reading 'servers')".
Proof. repeat split; try reflexivity. discriminate. Qed.

(** X3.  What [load] does on a freshly constructed manager, for any behaviour of
    [JSON.parse]: the empty manifest when the file is absent, cannot be read
    or does not parse; the parsed value, of whatever shape, when it parses.
    The value returned is the one stored. *)
Theorem load_fresh (JSON_parse : string -> option Json.value) (path : string) :
  let fresh := ManifestManager.new path in
  snd (ManifestManager.load JSON_parse fresh ManifestManager.Absent)
  = ManifestManager.empty_manifest
  /\ snd (ManifestManager.load JSON_parse fresh ManifestManager.Unreadable)
     = ManifestManager.empty_manifest
  /\ (forall raw, JSON_parse raw = None ->
      snd (ManifestManager.load JSON_parse fresh (ManifestManager.File raw))
      = ManifestManager.empty_manifest)
  /\ (forall raw parsed, JSON_parse raw = Some parsed ->
      snd (ManifestManager.load JSON_parse fresh (ManifestManager.File raw)) = parsed)
  /\ (forall disk,
      ManifestManager.manifest (fst (ManifestManager.load JSON_parse fresh disk))
      = snd (ManifestManager.load JSON_parse fresh disk)).
Proof.
  simpl. repeat split.
  - intros raw H. rewrite H. reflexivity.
  - intros raw parsed H. rewrite H. reflexivity.
Qed.

Example load_corrupted :
  snd (ManifestManager.load Json.parse (ManifestManager.new "m.json")
         (ManifestManager.File "not json"))
  = ManifestManager.empty_manifest.
Proof. reflexivity. Qed.

(** ** Strings: [split] *)





Lemma append_assoc (a b c : string) : (a ++ b) ++ c = a ++ (b ++ c).
Proof. induction a as [| x a IH]; simpl; [| rewrite IH]; reflexivity. Qed.



(** ** StdioTransport: framing *)

Section Framing.
Import StdioTransport.
Variable JSON_parse : string -> option Json.value.
Variable listeners : event -> bool.
Hypothesis listeners_return : forall ev, listeners ev = true.





End Framing.




(** The listener that the repository attaches is [MCPProtocol.handleMessage],
    which throws on a value such as [null]: the line then emits the message
    and the parse-failure error, and with no [error] listener the call is
    left by an exception, the rest of the chunk unprocessed. *)
Example throwing_listener :
  StdioTransport.handleData Json.parse (fun _ => false)
    {| StdioTransport.buffer := ""; StdioTransport._isConnected := true |}
    ("null" ++ String JS.LF ("{}" ++ String JS.LF "tail"))
  = ({| StdioTransport.buffer := "tail"; StdioTransport._isConnected := true |},
     [StdioTransport.message Json.JNull;
      StdioTransport.error "Failed to parse JSON-RPC message: null"],
     false).
Proof. reflexivity. Qed.

(** ** Strings: [indexOf], [slice] *)

Lemma indexOf_absent (s : string) (c : ascii) :
  ~ In c (list_ascii_of_string s) -> JS.indexOf s c = -1.
Proof.
  induction s as [| d s IH]; simpl; intros H; [reflexivity |].
  destruct (Ascii.eqb_spec d c) as [-> | Hne].
  - exfalso. apply H. left; reflexivity.
  - rewrite IH by (intros Hin; apply H; right; exact Hin). reflexivity.
Qed.

Lemma indexOf_first (a b : string) (c : ascii) :
  ~ In c (list_ascii_of_string a) ->
  JS.indexOf (a ++ String c b) c = Z.of_nat (String.length a).
Proof.
  induction a as [| d a IH]; intros H.
  - simpl. rewrite Ascii.eqb_refl. reflexivity.
  - cbn [String.append JS.indexOf String.length].
    destruct (Ascii.eqb_spec d c) as [-> | Hne].
    + exfalso. apply H. left; reflexivity.
    + rewrite IH by (intros Hin; apply H; right; exact Hin).
      destruct (Z.eqb_spec (Z.of_nat (String.length a)) (-1)); lia.
Qed.

Lemma length_append (a b : string) :
  String.length (a ++ b) = (String.length a + String.length b)%nat.
Proof. induction a as [| c a IH]; simpl; [| rewrite IH]; reflexivity. Qed.

Lemma substring_prefix (a b : string) : substring 0 (String.length a) (a ++ b) = a.
Proof.
  induction a as [| c a IH]; simpl.
  - destruct b; reflexivity.
  - rewrite IH. reflexivity.
Qed.

Lemma substring_all (s : string) : substring 0 (String.length s) s = s.
Proof. induction s as [| c s IH]; simpl; [| rewrite IH]; reflexivity. Qed.

Lemma substring_suffix (a b : string) :
  substring (String.length a) (String.length b) (a ++ b) = b.
Proof.
  induction a as [| c a IH]; simpl; [apply substring_all | exact IH].
Qed.

Lemma str_slice_before (a b : string) (c : ascii) :
  JS.str_slice (a ++ String c b) 0 (Some (Z.of_nat (String.length a))) = a.
Proof.
  unfold JS.str_slice, JS.relative_index. rewrite length_append. simpl String.length.
  destruct (Z.ltb_spec 0 0) as [? | _]; [lia |].
  destruct (Z.ltb_spec (Z.of_nat (String.length a)) 0) as [? | _]; [lia |].
  rewrite Z.min_l by lia. rewrite Z.min_l by lia.
  replace (Z.to_nat 0) with 0%nat by reflexivity.
  replace (Z.to_nat (Z.max (Z.of_nat (String.length a) - 0) 0)) with (String.length a) by lia.
  apply substring_prefix.
Qed.

Lemma str_slice_after (a b : string) (c : ascii) :
  JS.str_slice (a ++ String c b) (Z.of_nat (String.length a) + 1) None = b.
Proof.
  unfold JS.str_slice, JS.relative_index. rewrite length_append. simpl String.length.
  destruct (Z.ltb_spec (Z.of_nat (String.length a) + 1) 0) as [? | _]; [lia |].
  rewrite Z.min_l by lia.
  replace (Z.to_nat (Z.of_nat (String.length a) + 1)) with (String.length (a ++ String c ""))
    by (rewrite length_append; simpl; lia).
  replace (Z.to_nat _) with (String.length b) by lia.
  replace (a ++ String c b) with ((a ++ String c "") ++ b)
    by (rewrite append_assoc; reflexivity).
  apply substring_suffix.
Qed.

(** ** ManifestManager: [findTool] *)

Lemma indexed_entries_perm {V} (o : JSObject.t V) :
  Permutation (map snd (JSObject.indexed_entries o)) (filter is_index o).
Proof.
  induction o as [| [k v] r IH]; simpl; [apply Permutation_refl |].
  unfold is_index at 1. simpl.
  destruct (JSObject.array_index k) as [n |]; [| exact IH].
  eapply perm_trans; [apply Permutation_map, insert_indexed_perm |].
  simpl. apply perm_skip. exact IH.
Qed.

Lemma named_entries_filter {V} (o : JSObject.t V) :
  JSObject.named_entries o = filter (fun p => negb (is_index p)) o.
Proof.
  unfold JSObject.named_entries, is_index. apply filter_ext.
  intros [k v]. simpl. destruct (JSObject.array_index k); reflexivity.
Qed.

Lemma scan_first_cached (q : string)
  (l : list (string * ManifestManager.ServerManifestEntry)) :
  ManifestManager.scan q l = first_cached q l.
Proof.
  unfold first_cached. induction l as [| [name entry] r IH]; simpl; [reflexivity |].
  destruct (ManifestManager.find_tool q entry) eqn:E; simpl.
  - rewrite E. reflexivity.
  - exact IH.
Qed.

Lemma first_dot_split (q : string) :
  In "."%char (list_ascii_of_string q) ->
  exists srv tl, q = srv ++ String "." tl /\ ~ In "."%char (list_ascii_of_string srv).
Proof.
  induction q as [| c q IH]; simpl; [intros [] |].
  destruct (Ascii.ascii_dec c ".") as [-> | Hne].
  - intros _. exists EmptyString, q. split; [reflexivity | intros []].
  - intros [H | H]; [contradiction |].
    destruct (IH H) as [srv [tl [-> Hsrv]]].
    exists (String c srv), tl. split; [reflexivity |].
    intros [E | Hin]; [apply Hne; exact E | exact (Hsrv Hin)].
Qed.

Lemma scan_in_first_cached (pc : ManifestManager.PrototypeChain) (q : string)
  (l : list (string * ManifestManager.ServerManifestEntry)) :
  ManifestManager.beyond_entry pc = None ->
  ManifestManager.scan_in pc q l = first_cached q l.
Proof.
  intros Hpc. rewrite <- scan_first_cached.
  induction l as [| [name entry] r IH]; [reflexivity |].
  cbn [ManifestManager.scan_in ManifestManager.scan].
  unfold ManifestManager.entry_tools, ManifestManager.find_tool,
    ManifestManager.find_by_name.
  rewrite Hpc. destruct (ManifestManager.tools entry) as [ts |]; [| exact IH].
  destruct (find _ ts); [reflexivity | exact IH].
Qed.

Lemma findTool_in_dotted (pc : ManifestManager.PrototypeChain)
  (m : ManifestManager.GolemManifest) (srv tl : string) :
  ~ In "."%char (list_ascii_of_string srv) ->
  ManifestManager.findTool_in pc m (srv ++ String "." tl)
  = match JSObject.get srv (ManifestManager.servers m) with
    | Some entry =>
        Ret match ManifestManager.entry_tools pc entry with
            | Some ts => option_map (pair srv) (ManifestManager.find_by_name tl ts)
            | None => None
            end
    | None =>
        match ManifestManager.beyond_servers pc srv with
        | ManifestManager.NoTools => Ret None
        | ManifestManager.ToolList ts =>
            Ret (option_map (pair srv) (ManifestManager.find_by_name tl ts))
        | ManifestManager.NotAList => Throw "TypeError: entry.tools.find is not a function"
        end
    end.
Proof.
  intros Hdot. unfold ManifestManager.findTool_in. rewrite indexOf_first by assumption.
  destruct (Z.eqb_spec (Z.of_nat (String.length srv)) (-1)) as [? | _]; [lia |].
  rewrite str_slice_before, str_slice_after.
  destruct (JSObject.get srv (ManifestManager.servers m)) as [entry |].
  - destruct (ManifestManager.entry_tools pc entry) as [ts |]; [| reflexivity].
    destruct (ManifestManager.find_by_name tl ts); reflexivity.
  - destruct (ManifestManager.beyond_servers pc srv) as [| ts |]; try reflexivity.
Qed.

(** While the prototype chain is unmodified, [findTool] reads own
    properties only. *)
Lemma findTool_in_unmodified (m : ManifestManager.GolemManifest) (q : string) :
  ManifestManager.findTool_in ManifestManager.unmodified_chain m q
  = Ret (ManifestManager.findTool m q).
Proof.
  unfold ManifestManager.findTool_in, ManifestManager.findTool.
  destruct (JS.indexOf q "." =? -1).
  - rewrite scan_in_first_cached by reflexivity. rewrite scan_first_cached. reflexivity.
  - destruct (JSObject.get _ (ManifestManager.servers m)) as [entry |]; [| reflexivity].
    unfold ManifestManager.entry_tools, ManifestManager.find_tool,
      ManifestManager.find_by_name.
    cbn [ManifestManager.beyond_entry ManifestManager.unmodified_chain].
    destruct (ManifestManager.tools entry) as [ts |]; reflexivity.
Qed.

(** C8, as the code has it.  A query with a dot is split at its first dot
    into server and tool name.  When the server is registered and has cached
    tools, the query is answered from them, whatever the prototype chain
    holds.  When the prototype chain supplies no [tools], as in a process
    that leaves [Object.prototype] unmodified, the query returns
    [undefined] for a server that is unknown or has no cached tools.  A
    query without a dot, the chain supplying no [tools], returns the first
    cached tool of that name in the order of [Object.entries]: the servers
    whose names are array indices first, by ascending index, then the other
    servers in insertion order; that is insertion order when no server name
    is an array index. *)
Theorem findTool_resolution (m : ManifestManager.GolemManifest) :
  (forall q, In "."%char (list_ascii_of_string q) ->
     exists srv tl, q = srv ++ String "." tl /\ ~ In "."%char (list_ascii_of_string srv))
  /\ (forall pc srv tl entry ts,
        ~ In "."%char (list_ascii_of_string srv) ->
        JSObject.get srv (ManifestManager.servers m) = Some entry ->
        ManifestManager.tools entry = Some ts ->
        ManifestManager.findTool_in pc m (srv ++ String "." tl)
        = Ret (option_map (pair srv)
                 (find (fun t => String.eqb (ToolDefinition.name t) tl) ts)))
  /\ (forall pc srv tl,
        ~ In "."%char (list_ascii_of_string srv) ->
        ManifestManager.beyond_servers pc srv = ManifestManager.NoTools ->
        ManifestManager.beyond_entry pc = None ->
        ManifestManager.findTool_in pc m (srv ++ String "." tl)
        = Ret match JSObject.get srv (ManifestManager.servers m) with
              | None => None
              | Some entry =>
                  match ManifestManager.tools entry with
                  | None => None
                  | Some ts =>
                      option_map (pair srv)
                        (find (fun t => String.eqb (ToolDefinition.name t) tl) ts)
                  end
              end)
  /\ (forall pc q,
        ~ In "."%char (list_ascii_of_string q) ->
        ManifestManager.beyond_entry pc = None ->
        ManifestManager.findTool_in pc m q
        = Ret (first_cached q (JSObject.entries (ManifestManager.servers m))))
  /\ (exists indexed,
        JSObject.entries (ManifestManager.servers m)
        = (map snd indexed
           ++ filter (fun p => negb (is_index p)) (ManifestManager.servers m))%list
        /\ StronglySorted index_le indexed
        /\ Forall (fun e => JSObject.array_index (fst (snd e)) = Some (fst e)) indexed
        /\ Permutation (map snd indexed) (filter is_index (ManifestManager.servers m)))
  /\ (Forall (fun p => is_index p = false) (ManifestManager.servers m) ->
        JSObject.entries (ManifestManager.servers m) = ManifestManager.servers m).
Proof.
  split; [exact first_dot_split |].
  split.
  { intros pc srv tl entry ts Hdot Hget Htools. rewrite findTool_in_dotted by assumption.
    rewrite Hget. unfold ManifestManager.entry_tools. rewrite Htools. reflexivity. }
  split.
  { intros pc srv tl Hdot Hsrv Hentry. rewrite findTool_in_dotted by assumption.
    rewrite Hsrv. unfold ManifestManager.entry_tools. rewrite Hentry.
    destruct (JSObject.get srv (ManifestManager.servers m)) as [entry |]; [| reflexivity].
    destruct (ManifestManager.tools entry); reflexivity. }
  split.
  { intros pc q Hdot Hentry. unfold ManifestManager.findTool_in.
    rewrite indexOf_absent by assumption. cbn [Z.eqb Z.opp Pos.eqb].
    rewrite scan_in_first_cached by assumption. reflexivity. }
  split.
  - exists (JSObject.indexed_entries (ManifestManager.servers m)). repeat split.
    + unfold JSObject.entries. rewrite named_entries_filter. reflexivity.
    + apply indexed_entries_sorted.
    + eapply Forall_impl; [| apply indexed_entries_index]. intros e [H _]. exact H.
    + apply indexed_entries_perm.
  - intros H. apply entries_insertion_order.
    eapply Forall_impl; [| exact H]. intros [k v]. unfold is_index. simpl.
    destruct (JSObject.array_index k); [discriminate | reflexivity].
Qed.

(** C8 as stated fails when a server name is an array index: with servers
    [b] and then [1] registered, both caching a tool [t], [findTool("t")]
    answers with server [1], the second in insertion order. *)
Lemma findTool_prefers_index_named_server :
  let m := with_server (with_server ManifestManager.empty "b" [tool_named "t"])
             "1" [tool_named "t"] in
  map fst (ManifestManager.servers m) = ["b"; "1"]
  /\ ManifestManager.findTool m "t" = Some ("1", tool_named "t")
  /\ first_cached "t" (ManifestManager.servers m) = Some ("b", tool_named "t")
  /\ ManifestManager.findTool_in ManifestManager.unmodified_chain m "t"
     = Ret (Some ("1", tool_named "t")).
Proof. repeat split; reflexivity. Qed.

(** Where the chain does hold tools the answers differ: after
    [updateTools("constructor", [t])] on the empty manifest, which stores
    the tools on the inherited constructor, the query [constructor.t] finds
    a tool of a server that is not registered. *)
Example findTool_through_the_chain :
  ManifestManager.findTool_in
    {| ManifestManager.beyond_servers :=
         fun name => if String.eqb name "constructor"
                     then ManifestManager.ToolList [tool_named "t"]
                     else ManifestManager.NoTools;
       ManifestManager.beyond_entry := None |}
    ManifestManager.empty "constructor.t"
  = Ret (Some ("constructor", tool_named "t")).
Proof. reflexivity. Qed.

Example findTool_scenario :
  let m := with_server (with_server ManifestManager.empty "srv1" [tool_named "echo"])
             "srv2" [tool_named "add"] in
  ManifestManager.findTool m "srv1.echo" = Some ("srv1", tool_named "echo")
  /\ ManifestManager.findTool m "add" = Some ("srv2", tool_named "add")
  /\ ManifestManager.findTool m "srv1.add" = None
  /\ ManifestManager.findTool m "nonexistent" = None.
Proof. repeat split; reflexivity. Qed.

(** ** Maps *)

Section MapFacts.
Context {K V : Type}.
Variable eqb : K -> K -> bool.
Hypothesis eqb_spec : forall a b, reflect (a = b) (eqb a b).

Lemma map_get_set (k k0 : K) (v : V) (m : list (K * V)) :
  JSMap.get eqb k (JSMap.set eqb k0 v m)
  = if eqb k k0 then Some v else JSMap.get eqb k m.
Proof.
  induction m as [| [k' v'] r IH]; simpl.
  - reflexivity.
  - destruct (eqb_spec k0 k') as [-> | Hne]; simpl.
    + destruct (eqb_spec k k'); reflexivity.
    + rewrite IH. destruct (eqb_spec k k') as [-> | Hk].
      * destruct (eqb_spec k' k0); [congruence | reflexivity].
      * reflexivity.
Qed.

Lemma map_get_delete (k k0 : K) (m : list (K * V)) :
  JSMap.get eqb k (JSMap.delete eqb k0 m)
  = if eqb k k0 then None else JSMap.get eqb k m.
Proof.
  induction m as [| [k' v'] r IH]; simpl.
  - destruct (eqb k k0); reflexivity.
  - destruct (eqb_spec k0 k') as [-> | Hne]; simpl.
    + rewrite IH. destruct (eqb_spec k k'); reflexivity.
    + rewrite IH. destruct (eqb_spec k k') as [-> | Hk].
      * destruct (eqb_spec k' k0); [congruence | reflexivity].
      * reflexivity.
Qed.

Lemma map_get_In (k : K) (v : V) (m : list (K * V)) :
  JSMap.get eqb k m = Some v -> In (k, v) m.
Proof.
  induction m as [| [k' v'] r IH]; simpl; [discriminate |].
  destruct (eqb_spec k k') as [-> | Hne].
  - intros [= ->]. left; reflexivity.
  - intros H. right. apply IH. exact H.
Qed.

Lemma map_get_None (k : K) (m : list (K * V)) :
  JSMap.get eqb k m = None -> ~ In k (JSMap.keys m).
Proof.
  induction m as [| [k' v'] r IH]; simpl; [intros _ [] |].
  destruct (eqb_spec k k') as [-> | Hne]; [discriminate |].
  intros H [E | Hin]; [congruence | exact (IH H Hin)].
Qed.

Lemma map_In_get (k : K) (m : list (K * V)) :
  In k (JSMap.keys m) -> exists v, JSMap.get eqb k m = Some v.
Proof.
  intros Hin. destruct (JSMap.get eqb k m) as [v |] eqn:E; [exists v; reflexivity |].
  exfalso. exact (map_get_None _ _ E Hin).
Qed.

Lemma map_In_set (k : K) (v : V) (m : list (K * V)) (p : K * V) :
  In p (JSMap.set eqb k v m) -> p = (k, v) \/ In p m.
Proof.
  induction m as [| [k' v'] r IH]; simpl.
  - intros [<- | []]. left; reflexivity.
  - destruct (eqb_spec k k') as [-> | Hne]; simpl.
    + intros [<- | Hin]; [left; reflexivity | right; right; exact Hin].
    + intros [<- | Hin]; [right; left; reflexivity |].
      destruct (IH Hin) as [-> | H]; [left; reflexivity | right; right; exact H].
Qed.

Lemma map_In_delete (k : K) (m : list (K * V)) (p : K * V) :
  In p (JSMap.delete eqb k m) -> In p m /\ fst p <> k.
Proof.
  induction m as [| [k' v'] r IH]; simpl; [intros [] |].
  destruct (eqb_spec k k') as [-> | Hne]; simpl.
  - intros Hin. destruct (IH Hin) as [H1 H2]. split; [right; exact H1 | exact H2].
  - intros [<- | Hin]; [split; [left; reflexivity | simpl; congruence] |].
    destruct (IH Hin) as [H1 H2]. split; [right; exact H1 | exact H2].
Qed.

Lemma map_set_set (k : K) (v1 v2 : V) (m : list (K * V)) :
  JSMap.set eqb k v2 (JSMap.set eqb k v1 m) = JSMap.set eqb k v2 m.
Proof.
  induction m as [| [k' v'] r IH]; simpl.
  - destruct (eqb_spec k k); [reflexivity | congruence].
  - destruct (eqb_spec k k') as [-> | Hne]; simpl.
    + destruct (eqb_spec k' k'); [reflexivity | congruence].
    + destruct (eqb_spec k k'); [congruence |]. rewrite IH. reflexivity.
Qed.

Lemma map_delete_set (k : K) (v : V) (m : list (K * V)) :
  JSMap.delete eqb k (JSMap.set eqb k v m) = JSMap.delete eqb k m.
Proof.
  induction m as [| [k' v'] r IH]; simpl.
  - destruct (eqb_spec k k); [reflexivity | congruence].
  - destruct (eqb_spec k k') as [-> | Hne]; simpl.
    + destruct (eqb_spec k' k'); [reflexivity | congruence].
    + destruct (eqb_spec k k'); [congruence |]. rewrite IH. reflexivity.
Qed.

Lemma map_set_fresh {A : Type} (f : K * V -> A) (k : K) (v : V) (m : list (K * V)) :
  NoDup (map f m) ->
  (forall k', f (k', v) = f (k, v)) ->
  ~ In (f (k, v)) (map f m) ->
  NoDup (map f (JSMap.set eqb k v m)).
Proof.
  intros Hnd Hf Hfresh. induction m as [| [k' v'] r IH]; simpl.
  - constructor; [intros [] | constructor].
  - simpl in Hnd, Hfresh. inversion Hnd as [| ? ? Hnotin Hnd']; subst.
    destruct (eqb_spec k k') as [-> | Hne]; simpl.
    + constructor; [| exact Hnd'].
      intros Hin. apply Hfresh. right. exact Hin.
    + constructor.
      * intros Hin. apply in_map_iff in Hin. destruct Hin as [p [Hp Hin]].
        destruct (map_In_set _ _ _ _ Hin) as [-> | Hold].
        -- apply Hfresh. left. symmetry. exact Hp.
        -- apply Hnotin. rewrite <- Hp. apply in_map. exact Hold.
      * apply IH; [exact Hnd' |]. intros Hin. apply Hfresh. right. exact Hin.
Qed.

Lemma map_delete_NoDup {A : Type} (f : K * V -> A) (k : K) (m : list (K * V)) :
  NoDup (map f m) -> NoDup (map f (JSMap.delete eqb k m)).
Proof.
  induction m as [| [k' v'] r IH]; simpl; intros Hnd; [constructor |].
  inversion Hnd as [| ? ? Hnotin Hnd']; subst.
  destruct (eqb k k'); [apply IH; exact Hnd' |].
  simpl. constructor; [| apply IH; exact Hnd'].
  intros Hin. apply Hnotin. apply in_map_iff in Hin. destruct Hin as [p [Hp Hin]].
  rewrite <- Hp. apply in_map. apply (map_In_delete _ _ _ Hin).
Qed.

End MapFacts.

Lemma NoDup_map_injective {A B : Type} (f : A -> B) (l : list A) (x y : A) :
  NoDup (map f l) -> In x l -> In y l -> f x = f y -> x = y.
Proof.
  induction l as [| a l IH]; simpl; intros Hnd Hx Hy Hf; [contradiction |].
  inversion Hnd as [| ? ? Hnotin Hnd']; subst.
  destruct Hx as [-> | Hx], Hy as [-> | Hy].
  - reflexivity.
  - exfalso. apply Hnotin. rewrite Hf. apply in_map. exact Hy.
  - exfalso. apply Hnotin. rewrite <- Hf. apply in_map. exact Hx.
  - apply IH; assumption.
Qed.

(** ** MCPProtocol: timeout and late response *)

Section Protocol.
Import MCPProtocol.

Local Abbreviation zget := (JSMap.get Z.eqb).

Lemma zget_set (k k0 : Z) {V} (v : V) (m : list (Z * V)) :
  zget k (JSMap.set Z.eqb k0 v m) = if Z.eqb k k0 then Some v else zget k m.
Proof. apply map_get_set. exact Z.eqb_spec. Qed.

Lemma zget_delete (k k0 : Z) {V} (m : list (Z * V)) :
  zget k (JSMap.delete Z.eqb k0 m) = if Z.eqb k k0 then None else zget k m.
Proof. apply map_get_delete. exact Z.eqb_spec. Qed.

Lemma settle_other (i j : Z) (o : promise) (ps : list (Z * promise)) :
  i <> j -> zget i (settle j o ps) = zget i ps.
Proof.
  intros Hne. unfold settle. destruct (zget j ps) as [[] |]; try reflexivity.
  rewrite zget_set. destruct (Z.eqb_spec i j); [contradiction | reflexivity].
Qed.

Lemma settle_pending (i : Z) (o : promise) (ps : list (Z * promise)) :
  zget i ps = Some Pending -> zget i (settle i o ps) = Some o.
Proof.
  intros H. unfold settle. rewrite H, zget_set, Z.eqb_refl. reflexivity.
Qed.

Lemma settle_rejected (i j : Z) (e : js_error) (o : promise) (ps : list (Z * promise)) :
  zget i ps = Some (Rejected e) -> zget i (settle j o ps) = Some (Rejected e).
Proof.
  intros H. destruct (Z.eq_dec i j) as [-> | Hne].
  - unfold settle. rewrite H. exact H.
  - rewrite settle_other by assumption. exact H.
Qed.

Lemma reject_all_rejected (e0 e : js_error) (i : Z) (entries : list (Z * string))
  (ps : list (Z * promise)) :
  zget i ps = Some (Rejected e) ->
  zget i (fst (reject_all e0 entries ps)) = Some (Rejected e).
Proof.
  revert ps. induction entries as [| [j m] r IH]; intros ps H; simpl; [exact H |].
  specialize (IH (settle j (Rejected e0) ps) (settle_rejected _ _ _ _ _ H)).
  destruct (reject_all e0 r (settle j (Rejected e0) ps)). exact IH.
Qed.

Lemma reject_all_effects (e0 : js_error) (entries : list (Z * string))
  (ps : list (Z * promise)) (eff : effect) :
  In eff (snd (reject_all e0 entries ps)) ->
  exists j, In j (JSMap.keys entries)
            /\ (eff = ClearTimeout j \/ eff = Reject j e0 \/ eff = PendingDelete j).
Proof.
  revert ps. induction entries as [| [j m] r IH]; intros ps; simpl; [intros [] |].
  specialize (IH (settle j (Rejected e0) ps)).
  destruct (reject_all e0 r (settle j (Rejected e0) ps)) as [ps' effs]. simpl in *.
  intros [<- | [<- | [<- | Hin]]].
  - exists j. split; [left; reflexivity | tauto].
  - exists j. split; [left; reflexivity | tauto].
  - exists j. split; [left; reflexivity | tauto].
  - destruct (IH Hin) as [j' [Hj Heq]]. exists j'. split; [right; exact Hj | exact Heq].
Qed.

Lemma engine_inv_new (tmo : option Z) : engine_inv (new tmo).
Proof. intros id m H. discriminate H. Qed.

Ltac engine_simpl :=
  unfold promise_of in *;
  cbn [fst snd nextId pending timers promises sending initialized timeout] in *.

Lemma engine_inv_step (p : t) (ev : event) : engine_inv p -> engine_inv (fst (step p ev)).
Proof.
  intros Hinv.
  assert (Hdel : forall j o,
    engine_inv {| nextId := nextId p; pending := JSMap.delete Z.eqb j (pending p);
                  initialized := initialized p; timeout := timeout p;
                  timers := JSMap.delete Z.eqb j (timers p); sending := sending p;
                  promises := settle j o (promises p) |}).
  { intros j o id m' H. engine_simpl.
    rewrite !zget_delete in *. destruct (Z.eqb_spec id j) as [-> | Hne]; [discriminate |].
    destruct (Hinv id m' H) as [H1 [H2 H3]]. engine_simpl.
    rewrite settle_other by assumption. repeat split; assumption. }
  destruct ev as [m ps | m ps | | j | j f | msg | code |]; cbn [step].
  - (* request *)
    unfold request. intros id m' H. engine_simpl.
    rewrite !zget_set in *. destruct (Z.eqb_spec id (nextId p)) as [-> | Hne].
    + repeat split; [exact H | lia].
    + destruct (Hinv id m' H) as [H1 [H2 H3]]. engine_simpl.
      repeat split; [exact H1 | exact H2 | lia].
  - exact Hinv.
  - exact Hinv.
  - (* timer *)
    unfold on_timeout. destruct (zget j (timers p)) as [mj |]; [| exact Hinv].
    apply Hdel.
  - (* send settled *)
    unfold on_send_settled. destruct (existsb (Z.eqb j) (sending p)); [| exact Hinv].
    destruct f as [err |]; [| exact Hinv].
    intros id m' H. engine_simpl.
    exact (Hdel j (Rejected err) id m' H).
  - (* message *)
    assert (Hresp : forall rid result error,
               engine_inv (fst (handle_response p rid result error))).
    { intros rid result error. unfold handle_response.
      destruct rid as [n | s0]; [| exact Hinv].
      destruct (zget n (pending p)); [| exact Hinv].
      apply Hdel. }
    destruct msg; cbn [handleMessage fst]; try exact Hinv; apply Hresp.
  - unfold handleClose. destruct (reject_all _ _ _). intros id m' H. discriminate H.
  - unfold shutdown_sweep. destruct (reject_all _ _ _). intros id m' H. discriminate H.
Qed.

Lemma run_app_fst (p : t) (evs : list event) (ev : event) :
  fst (run p (evs ++ [ev])) = fst (step (fst (run p evs)) ev).
Proof.
  revert p. induction evs as [| e evs IH]; intros p; simpl.
  - destruct (step p ev). reflexivity.
  - destruct (step p e) as [p1 effs1]. specialize (IH p1).
    destruct (run p1 (evs ++ [ev])), (run p1 evs). simpl in *. exact IH.
Qed.

Lemma engine_inv_run (tmo : option Z) (evs : list event) :
  engine_inv (fst (run (new tmo) evs)).
Proof.
  induction evs as [| ev evs IH] using rev_ind; [apply engine_inv_new |].
  rewrite run_app_fst. apply engine_inv_step. exact IH.
Qed.

Lemma expired_step (id : Z) (e : js_error) (p : t) (ev : event) :
  expired id e p -> expired id e (fst (step p ev)).
Proof.
  intros [Hlt [Hpend [Htimer Hprom]]].
  assert (Hdel : forall j o,
    expired id e {| nextId := nextId p; pending := JSMap.delete Z.eqb j (pending p);
                    initialized := initialized p; timeout := timeout p;
                    timers := JSMap.delete Z.eqb j (timers p); sending := sending p;
                    promises := settle j o (promises p) |}).
  { intros j o. unfold expired. engine_simpl. rewrite !zget_delete, Hpend, Htimer.
    repeat split; try (destruct (id =? j); reflexivity); [exact Hlt |].
    apply settle_rejected. exact Hprom. }
  assert (Hall : forall e0,
    expired id e {| nextId := nextId p; pending := []; initialized := false;
                    timeout := timeout p; timers := []; sending := sending p;
                    promises := fst (reject_all e0 (pending p) (promises p)) |}).
  { intros e0. unfold expired. engine_simpl. repeat split; [exact Hlt |].
    apply reject_all_rejected. exact Hprom. }
  destruct ev as [m ps | m ps | | j | j f | msg | code |]; cbn [step].
  - unfold request, expired. engine_simpl. rewrite !zget_set.
    destruct (Z.eqb_spec id (nextId p)); [lia |].
    repeat split; [lia | assumption | assumption | assumption].
  - unfold expired. engine_simpl. repeat split; assumption.
  - unfold expired. engine_simpl. repeat split; assumption.
  - unfold on_timeout. destruct (zget j (timers p)); [apply Hdel |].
    unfold expired. repeat split; assumption.
  - unfold on_send_settled. destruct (existsb (Z.eqb j) (sending p));
      [| unfold expired; repeat split; assumption].
    destruct f as [err |].
    + exact (Hdel j (Rejected err)).
    + unfold expired. engine_simpl. repeat split; assumption.
  - assert (Hresp : forall rid result error,
               expired id e (fst (handle_response p rid result error))).
    { intros rid result error. unfold handle_response.
      destruct rid as [n | s0]; [| unfold expired; repeat split; assumption].
      destruct (zget n (pending p)); [apply Hdel |].
      unfold expired. repeat split; assumption. }
    destruct msg; cbn [handleMessage fst]; try apply Hresp;
      unfold expired; repeat split; assumption.
  - unfold handleClose. specialize (Hall (Error ("Transport closed with code " ++ code_text code))).
    destruct (reject_all _ _ _). exact Hall.
  - unfold shutdown_sweep. specialize (Hall (Error "Protocol shutting down")).
    destruct (reject_all _ _ _). exact Hall.
Qed.

(** Once request [id] has expired, a step never resolves it, and calls its
    [reject] only from the [catch] of its own failed [send]. *)
Lemma expired_effects (id : Z) (e : js_error) (p : t) (ev : event) (eff : effect) :
  expired id e p -> In eff (snd (step p ev)) ->
  (forall v, eff <> Resolve id v)
  /\ (forall e', eff = Reject id e' -> ev = SendSettles id (Some e')).
Proof.
  intros [Hlt [Hpend [Htimer Hprom]]] Hin.
  assert (Hkeys : ~ In id (JSMap.keys (pending p)))
    by (apply (map_get_None Z.eqb Z.eqb_spec); exact Hpend).
  assert (Hall : forall e0 ps, In eff (snd (reject_all e0 (pending p) ps)) ->
            (forall v, eff <> Resolve id v) /\ (forall e', eff <> Reject id e')).
  { intros e0 ps H. destruct (reject_all_effects _ _ _ _ H) as [j [Hj Heq]].
    split; [intros v Hv; subst; intuition discriminate |].
    intros e' He'. subst. destruct Heq as [Heq | [Heq | Heq]]; try discriminate.
    injection Heq as <- _. contradiction. }
  destruct ev as [m ps | m ps | | j | j f | msg | code |]; cbn [step] in Hin.
  - unfold request in Hin. cbn [snd] in Hin.
    split; [intros v Hv | intros e' He']; subst; simpl in Hin; intuition discriminate.
  - cbn [notify snd] in Hin.
    split; [intros v Hv | intros e' He']; subst; simpl in Hin; intuition discriminate.
  - destruct Hin.
  - unfold on_timeout in Hin. destruct (zget j (timers p)) as [mj |] eqn:Ej; [| destruct Hin].
    cbn [snd] in Hin. assert (j <> id) by congruence.
    split; [intros v Hv | intros e' He']; subst; simpl in Hin;
      destruct Hin as [Hin | [Hin | []]]; try discriminate; congruence.
  - unfold on_send_settled in Hin.
    destruct (existsb (Z.eqb j) (sending p)); [| destruct Hin].
    destruct f as [err |]; [| destruct Hin]. cbn [snd] in Hin.
    split; [intros v Hv | intros e' He']; subst; simpl in Hin;
      destruct Hin as [Hin | [Hin | [Hin | []]]]; try discriminate.
    injection Hin as -> ->. reflexivity.
  - assert (Hresp : forall rid result error,
               In eff (snd (handle_response p rid result error)) ->
               (forall v, eff <> Resolve id v) /\ (forall e', eff <> Reject id e')).
    { intros rid result error H. unfold handle_response in H.
      destruct rid as [n | s0]; [| destruct H].
      destruct (zget n (pending p)) eqn:En; [| destruct H].
      assert (n <> id) by congruence. cbn [snd] in H.
      split; [intros v Hv | intros e' He']; subst; simpl in H;
        destruct H as [H | [H | [H | []]]]; try discriminate;
        destruct error; try discriminate; congruence. }
    destruct msg as [rid m ps | rid result error | m ps |]; cbn [handleMessage] in Hin.
    + destruct (Hresp _ _ _ Hin) as [H1 H2]. split; [exact H1 |].
      intros e' He'. exfalso. exact (H2 e' He').
    + destruct (Hresp _ _ _ Hin) as [H1 H2]. split; [exact H1 |].
      intros e' He'. exfalso. exact (H2 e' He').
    + cbn [snd] in Hin.
      split; [intros v Hv | intros e' He']; subst; simpl in Hin; intuition discriminate.
    + destruct Hin.
  - unfold handleClose in Hin.
    specialize (Hall (Error ("Transport closed with code " ++ code_text code)) (promises p)).
    destruct (reject_all _ _ _) as [ps' effs]. cbn [snd] in *.
    apply in_app_or in Hin. destruct Hin as [Hin | [<- | []]].
    + destruct (Hall Hin) as [H1 H2]. split; [exact H1 |].
      intros e' He'. exfalso. exact (H2 e' He').
    + split; [intros v Hv | intros e' He']; discriminate.
  - unfold shutdown_sweep in Hin.
    specialize (Hall (Error "Protocol shutting down") (promises p)).
    destruct (reject_all _ _ _) as [ps' effs]. cbn [snd] in *.
    destruct (Hall Hin) as [H1 H2]. split; [exact H1 |].
    intros e' He'. exfalso. exact (H2 e' He').
Qed.

Lemma expired_run (id : Z) (e : js_error) (evs : list event) (p : t) :
  expired id e p ->
  expired id e (fst (run p evs))
  /\ (forall eff, In eff (snd (run p evs)) ->
      (forall v, eff <> Resolve id v)
      /\ (forall e', eff = Reject id e' -> In (SendSettles id (Some e')) evs)).
Proof.
  revert p. induction evs as [| ev rest IH]; intros p Hexp.
  - split; [exact Hexp | intros eff []].
  - cbn [run].
    pose proof (expired_step id e p ev Hexp) as Hstep.
    pose proof (fun eff => expired_effects id e p ev eff Hexp) as Heffs.
    destruct (step p ev) as [p1 effs1]. cbn [fst snd] in *.
    destruct (IH p1 Hstep) as [IH1 IH2].
    destruct (run p1 rest) as [p2 effs2]. cbn [fst snd] in *.
    split; [exact IH1 |].
    intros eff Hin. apply in_app_or in Hin. destruct Hin as [Hin | Hin].
    + destruct (Heffs eff Hin) as [H1 H2]. split; [exact H1 |].
      intros e' He'. left. exact (H2 e' He').
    + destruct (IH2 eff Hin) as [H1 H2]. split; [exact H1 |].
      intros e' He'. right. exact (H2 e' He').
Qed.

End Protocol.

(** C4, as the code has it.  Take any engine reached from construction and
    a request [id] that is still pending there when its timer fires.  The
    timer callback removes the pending entry and then rejects the promise,
    which was unsettled, with the error [Request <method> (id=<id>) timed
    out after <timeout>ms].  Whatever
    happens afterwards, the promise stays rejected with that error, a
    response carrying that id is dropped (no action, state unchanged), no
    step resolves the request, and the only later call of its [reject] is
    the [catch] of its own [transport.send], which the settled promise
    ignores. *)
Theorem timeout_then_late_response
  (tmo : option Z) (before after : list MCPProtocol.event) (id : Z) (method : string) :
  let p1 := fst (MCPProtocol.run (MCPProtocol.new tmo) before) in
  JSMap.get Z.eqb id (MCPProtocol.pending p1) = Some method ->
  let e := MCPProtocol.Error
             ("Request " ++ method ++ " (id=" ++ JS.string_of_Z id ++ ") timed out after "
              ++ JS.string_of_Z (MCPProtocol.timeout p1) ++ "ms") in
  let p2 := fst (MCPProtocol.step p1 (MCPProtocol.TimerFires id)) in
  let p3 := fst (MCPProtocol.run p2 after) in
  MCPProtocol.promise_of p1 id = Some MCPProtocol.Pending
  /\ snd (MCPProtocol.step p1 (MCPProtocol.TimerFires id))
     = [MCPProtocol.PendingDelete id; MCPProtocol.Reject id e]
  /\ JSMap.get Z.eqb id (MCPProtocol.pending p2) = None
  /\ MCPProtocol.promise_of p2 id = Some (MCPProtocol.Rejected e)
  /\ MCPProtocol.promise_of p3 id = Some (MCPProtocol.Rejected e)
  /\ (forall result error,
      MCPProtocol.step p3
        (MCPProtocol.Receives (MCPProtocol.Response (MCPProtocol.IdNumber id) result error))
      = (p3, []))
  /\ (forall v, ~ In (MCPProtocol.Resolve id v) (snd (MCPProtocol.run p2 after)))
  /\ (forall e', In (MCPProtocol.Reject id e') (snd (MCPProtocol.run p2 after)) ->
      In (MCPProtocol.SendSettles id (Some e')) after).
Proof.
  intros p1 Hpending e p2 p3.
  destruct (engine_inv_run tmo before id method Hpending) as [Htimer [Hprom Hlt]].
  fold p1 in Htimer, Hprom, Hlt.
  assert (Hstep : MCPProtocol.step p1 (MCPProtocol.TimerFires id)
                  = (p2, [MCPProtocol.PendingDelete id; MCPProtocol.Reject id e])).
  { unfold p2, e. cbn [MCPProtocol.step]. unfold MCPProtocol.on_timeout.
    rewrite Htimer. reflexivity. }
  assert (Hexp : expired id e p2).
  { unfold p2. cbn [MCPProtocol.step]. unfold MCPProtocol.on_timeout. rewrite Htimer.
    cbn [fst]. unfold expired, MCPProtocol.promise_of.
    cbn [MCPProtocol.nextId MCPProtocol.pending MCPProtocol.timers MCPProtocol.promises].
    rewrite !zget_delete, Z.eqb_refl. repeat split; [exact Hlt |].
    apply settle_pending. exact Hprom. }
  destruct (expired_run id e after p2 Hexp) as [Hexp3 Heffs]. fold p3 in Hexp3.
  split; [exact Hprom |].
  split; [rewrite Hstep; reflexivity |].
  split; [apply Hexp |].
  split; [apply Hexp |].
  split; [apply Hexp3 |].
  split.
  - intros result error. cbn [MCPProtocol.step MCPProtocol.handleMessage].
    unfold MCPProtocol.handle_response.
    destruct Hexp3 as [_ [Hnone _]]. rewrite Hnone. reflexivity.
  - split.
    + intros v Hin. destruct (Heffs _ Hin) as [H _]. exact (H v eq_refl).
    + intros e' Hin. destruct (Heffs _ Hin) as [_ H]. exact (H e' eq_refl).
Qed.

Lemma timeout_then_late_response_witness :
  let late := MCPProtocol.Receives
                (MCPProtocol.Response (MCPProtocol.IdNumber 1) (Some Json.JNull) None) in
  let e := MCPProtocol.Error "Request slow/method (id=1) timed out after 50ms" in
  JSMap.get Z.eqb 1
    (MCPProtocol.pending
       (fst (MCPProtocol.run (MCPProtocol.new (Some 50))
               [MCPProtocol.CallRequest "slow/method" None]))) = Some "slow/method"
  /\ snd (MCPProtocol.run (MCPProtocol.new (Some 50))
            [MCPProtocol.CallRequest "slow/method" None; MCPProtocol.TimerFires 1; late])
     = [MCPProtocol.SetTimeout 1; MCPProtocol.PendingSet 1;
        MCPProtocol.Send (MCPProtocol.Request (MCPProtocol.IdNumber 1) "slow/method" None);
        MCPProtocol.PendingDelete 1; MCPProtocol.Reject 1 e]
  /\ MCPProtocol.promise_of
       (fst (MCPProtocol.run (MCPProtocol.new (Some 50))
               [MCPProtocol.CallRequest "slow/method" None; MCPProtocol.TimerFires 1; late]))
       1 = Some (MCPProtocol.Rejected e).
Proof.
  intros late e.
  assert (H : JSMap.get Z.eqb 1
                (MCPProtocol.pending
                   (fst (MCPProtocol.run (MCPProtocol.new (Some 50))
                           [MCPProtocol.CallRequest "slow/method" None])))
              = Some "slow/method") by reflexivity.
  pose proof (timeout_then_late_response (Some 50)
                [MCPProtocol.CallRequest "slow/method" None] [late] 1 "slow/method" H)
    as [_ [_ [_ [_ [H3 _]]]]].
  split; [exact H |]. split; [reflexivity | exact H3].
Defined.

(** C4 as stated fails for a request that is settled before its timer
    fires.  After the sweep of [shutdown()], or after a failed send, the
    timer is cleared; a response that arrives after the timeout interval is
    dropped, and the caller has been rejected with [Protocol shutting down],
    or with the error of the send, not with a timeout error. *)
Lemma settled_request_gets_no_timeout_error :
  let late := MCPProtocol.Receives
                (MCPProtocol.Response (MCPProtocol.IdNumber 1) (Some Json.JNull) None) in
  let swept := [MCPProtocol.CallRequest "slow/method" None; MCPProtocol.ShutdownSweep;
                MCPProtocol.TimerFires 1; late] in
  let unsent := [MCPProtocol.CallRequest "slow/method" None;
                 MCPProtocol.SendSettles 1 (Some (MCPProtocol.Error "write EPIPE"));
                 MCPProtocol.TimerFires 1; late] in
  MCPProtocol.promise_of (fst (MCPProtocol.run (MCPProtocol.new (Some 50)) swept)) 1
  = Some (MCPProtocol.Rejected (MCPProtocol.Error "Protocol shutting down"))
  /\ snd (MCPProtocol.run (MCPProtocol.new (Some 50)) swept)
     = [MCPProtocol.SetTimeout 1; MCPProtocol.PendingSet 1;
        MCPProtocol.Send (MCPProtocol.Request (MCPProtocol.IdNumber 1) "slow/method" None);
        MCPProtocol.ClearTimeout 1;
        MCPProtocol.Reject 1 (MCPProtocol.Error "Protocol shutting down");
        MCPProtocol.PendingDelete 1]
  /\ MCPProtocol.promise_of (fst (MCPProtocol.run (MCPProtocol.new (Some 50)) unsent)) 1
     = Some (MCPProtocol.Rejected (MCPProtocol.Error "write EPIPE"))
  /\ snd (MCPProtocol.run (MCPProtocol.new (Some 50)) unsent)
     = [MCPProtocol.SetTimeout 1; MCPProtocol.PendingSet 1;
        MCPProtocol.Send (MCPProtocol.Request (MCPProtocol.IdNumber 1) "slow/method" None);
        MCPProtocol.PendingDelete 1; MCPProtocol.ClearTimeout 1;
        MCPProtocol.Reject 1 (MCPProtocol.Error "write EPIPE")].
Proof. repeat split; reflexivity. Qed.

(** ** ServerManager *)

Section Manager.
Import ServerManager.

Local Abbreviation sget := (JSMap.get String.eqb).
Local Abbreviation sset := (JSMap.set String.eqb).
Local Abbreviation sdel := (JSMap.delete String.eqb).

Lemma start_fresh_servers (m : t) (cfg : ServerConfig.t) (env : connect_result) :
  servers (fst (start_fresh m cfg env))
  = match env with
    | Connected caps info now listed =>
        sset (ServerConfig.name cfg)
          {| config := cfg; client := nextClient m;
             state :=
               {| ServerState.name := ServerConfig.name cfg;
                  ServerState.status := ServerStatus.running;
                  ServerState.pid := None;
                  ServerState.capabilities := caps; ServerState.serverInfo := info;
                  ServerState.toolCount :=
                    Some match listed with Some n => n | None => 0 end;
                  ServerState.startedAt := Some now; ServerState.error := None |} |}
          (servers m)
    | ConnectFailed _ => sdel (ServerConfig.name cfg) (servers m)
    end.
Proof.
  unfold start_fresh. destruct env; cbn [fst servers].
  - apply (map_set_set String.eqb String.eqb_spec).
  - apply (map_delete_set String.eqb String.eqb_spec).
Qed.

Lemma start_fresh_nextClient (m : t) (cfg : ServerConfig.t) (env : connect_result) :
  nextClient (fst (start_fresh m cfg env)) = (nextClient m + 1)%N.
Proof. unfold start_fresh. destruct env; reflexivity. Qed.

Lemma start_fresh_disconnected (m : t) (cfg : ServerConfig.t) (env : connect_result) :
  disconnected (fst (start_fresh m cfg env)) = disconnected m.
Proof. unfold start_fresh. destruct env; reflexivity. Qed.

Lemma wf_set_fresh (m : t) (k : string) (ms : ManagedServer) (next : N) :
  manager_wf m ->
  ServerState.name (state ms) = k -> client ms = nextClient m ->
  (nextClient m < next)%N ->
  forall e d,
  manager_wf {| servers := sset k ms (servers m); emitted := e; nextClient := next;
                disconnected := d |}.
Proof.
  intros [Hnames Hnd] Hname Hclient Hnext e d. split; cbn [servers nextClient].
  - intros k' ms' Hin.
    destruct (map_In_set String.eqb String.eqb_spec _ _ _ _ Hin) as [[= -> ->] | Hold].
    + split; [exact Hname | lia].
    + destruct (Hnames _ _ Hold) as [H1 H2]. split; [exact H1 | lia].
  - apply (map_set_fresh String.eqb String.eqb_spec); [exact Hnd | reflexivity |].
    unfold client_of at 1. cbn [snd]. intros Hin. apply in_map_iff in Hin.
    destruct Hin as [[k' ms'] [Hc Hin]]. unfold client_of in Hc. cbn [snd] in Hc.
    destruct (Hnames _ _ Hin) as [_ Hlt]. lia.
Qed.

Lemma wf_delete (m : t) (k : string) (next : N) :
  manager_wf m -> (nextClient m <= next)%N ->
  forall e d,
  manager_wf {| servers := sdel k (servers m); emitted := e; nextClient := next;
                disconnected := d |}.
Proof.
  intros [Hnames Hnd] Hnext e d. split; cbn [servers nextClient].
  - intros k' ms' Hin.
    destruct (map_In_delete String.eqb String.eqb_spec _ _ _ Hin) as [Hold _].
    destruct (Hnames _ _ Hold) as [H1 H2]. split; [exact H1 | lia].
  - apply (map_delete_NoDup String.eqb String.eqb_spec). exact Hnd.
Qed.

Lemma wf_stopInternal (m : t) (name : string) :
  manager_wf m -> manager_wf (stopInternal m name).
Proof.
  intros Hwf. unfold stopInternal. destruct (sget name (servers m)); [| exact Hwf].
  apply wf_delete; [exact Hwf | lia].
Qed.

Lemma wf_start_fresh (m : t) (cfg : ServerConfig.t) (env : connect_result) :
  manager_wf m -> manager_wf (fst (start_fresh m cfg env)).
Proof.
  intros Hwf.
  pose proof (start_fresh_servers m cfg env) as Hs.
  pose proof (start_fresh_nextClient m cfg env) as Hn.
  destruct env as [caps info now listed | text].
  - match type of Hs with _ = sset ?k ?ms _ =>
      assert (H : manager_wf {| servers := sset k ms (servers m); emitted := [];
                                nextClient := (nextClient m + 1)%N; disconnected := [] |})
        by (apply (wf_set_fresh m); try reflexivity; [exact Hwf | lia])
    end.
    destruct H as [H1 H2]. cbn [servers nextClient] in H1, H2.
    split; rewrite Hs, ?Hn; assumption.
  - assert (H : manager_wf {| servers := sdel (ServerConfig.name cfg) (servers m);
                              emitted := []; nextClient := (nextClient m + 1)%N;
                              disconnected := [] |})
      by (apply (wf_delete m); [exact Hwf | lia]).
    destruct H as [H1 H2]. cbn [servers nextClient] in H1, H2.
    split; rewrite Hs, ?Hn; assumption.
Qed.

Lemma wf_start (m : t) (cfg : ServerConfig.t) (env : connect_result) :
  manager_wf m -> manager_wf (fst (start m cfg env)).
Proof.
  intros Hwf. unfold start.
  destruct (sget (ServerConfig.name cfg) (servers m)) as [existing |].
  - destruct (is_running existing); [exact Hwf |].
    apply wf_start_fresh, wf_stopInternal, Hwf.
  - apply wf_start_fresh, Hwf.
Qed.

Lemma wf_startAll_step (acc : t * Datatypes.list (string * ServerState.t))
  (item : ServerConfig.t * connect_result) :
  manager_wf (fst acc) -> manager_wf (fst (startAll_step acc item)).
Proof.
  destruct acc as [m results], item as [cfg env]. cbn [fst]. intros Hwf.
  unfold startAll_step.
  destruct (ServerConfig.autoStart cfg) as [[|] |].
  - pose proof (wf_start m cfg env Hwf) as H.
    destruct (start m cfg env) as [m' [st | text]]; exact H.
  - cbn [fst]. apply wf_set_fresh; try reflexivity; [exact Hwf | lia].
  - pose proof (wf_start m cfg env Hwf) as H.
    destruct (start m cfg env) as [m' [st | text]]; exact H.
Qed.

Lemma wf_startAll_fold (configs : Datatypes.list (ServerConfig.t * connect_result))
  (acc : t * Datatypes.list (string * ServerState.t)) :
  manager_wf (fst acc) -> manager_wf (fst (fold_left startAll_step configs acc)).
Proof.
  revert acc. induction configs as [| item rest IH]; intros acc Hwf; [exact Hwf |].
  simpl. apply IH, wf_startAll_step, Hwf.
Qed.

Lemma reachable_wf (m : t) : reachable m -> manager_wf m.
Proof.
  induction 1 as [| m cfg env _ IH | m name _ IH | m configs _ IH].
  - split; [intros k ms [] | constructor].
  - apply wf_start, IH.
  - apply wf_stopInternal, IH.
  - unfold startAll. apply wf_startAll_fold. exact IH.
Qed.

Lemma list_names (m : t) (st : ServerState.t) :
  manager_wf m -> In st (list m) ->
  exists ms, In (ServerState.name st, ms) (servers m) /\ state ms = st.
Proof.
  intros [Hnames _] Hin. unfold list, JSMap.values in Hin.
  rewrite map_map in Hin. apply in_map_iff in Hin. destruct Hin as [[k ms] [Hst Hin]].
  cbn [snd] in Hst. destruct (Hnames _ _ Hin) as [Hk _].
  exists ms. subst st. rewrite Hk. split; [exact Hin | reflexivity].
Qed.

Lemma start_fresh_failed (m : t) (cfg : ServerConfig.t) (env : connect_result)
  (m' : t) (text : string) :
  manager_wf m ->
  start_fresh m cfg env = (m', Throw text) ->
  (forall st, In st (list m') -> ServerState.name st <> ServerConfig.name cfg)
  /\ get m' (ServerConfig.name cfg) = None
  /\ exists earlier,
       emitted m'
       = (earlier ++ [(ServerConfig.name cfg, failed_state (ServerConfig.name cfg) text)])%list.
Proof.
  intros Hwf Hstart.
  pose proof (wf_start_fresh m cfg env Hwf) as Hwf'.
  pose proof (start_fresh_servers m cfg env) as Hs.
  rewrite Hstart in Hwf', Hs. cbn [fst] in Hwf', Hs.
  destruct env as [caps info now listed | text'];
    [unfold start_fresh in Hstart; discriminate |].
  split; [| split].
  - intros st Hin Hname.
    destruct (list_names m' st Hwf' Hin) as [ms [Hms _]].
    rewrite Hs, Hname in Hms.
    destruct (map_In_delete String.eqb String.eqb_spec _ _ _ Hms) as [_ Hne].
    apply Hne. reflexivity.
  - unfold get. rewrite Hs.
    rewrite (map_get_delete String.eqb String.eqb_spec), String.eqb_refl. reflexivity.
  - unfold start_fresh in Hstart. injection Hstart as <- <-. cbn [emitted].
    eexists. reflexivity.
Qed.

(** A turn of [startAll] for another name leaves the entry and the result
    of [n] alone. *)
Lemma start_other_name (m : t) (cfg : ServerConfig.t) (env : connect_result) (n : string) :
  ServerConfig.name cfg <> n ->
  sget n (servers (fst (start m cfg env))) = sget n (servers m).
Proof.
  intros Hne.
  assert (Hfresh : forall m0, sget n (servers (fst (start_fresh m0 cfg env)))
                              = sget n (servers m0)).
  { intros m0. rewrite start_fresh_servers. destruct env.
    - rewrite (map_get_set String.eqb String.eqb_spec).
      destruct (String.eqb_spec n (ServerConfig.name cfg)); [congruence | reflexivity].
    - rewrite (map_get_delete String.eqb String.eqb_spec).
      destruct (String.eqb_spec n (ServerConfig.name cfg)); [congruence | reflexivity]. }
  unfold start.
  destruct (sget (ServerConfig.name cfg) (servers m)) as [existing |] eqn:E;
    [| apply Hfresh].
  destruct (is_running existing); [reflexivity |].
  rewrite Hfresh. unfold stopInternal. rewrite E. cbn [servers].
  rewrite (map_get_delete String.eqb String.eqb_spec).
  destruct (String.eqb_spec n (ServerConfig.name cfg)); [congruence | reflexivity].
Qed.

Lemma startAll_step_other_name (acc : t * Datatypes.list (string * ServerState.t))
  (item : ServerConfig.t * connect_result) (n : string) :
  ServerConfig.name (fst item) <> n ->
  sget n (servers (fst (startAll_step acc item))) = sget n (servers (fst acc))
  /\ sget n (snd (startAll_step acc item)) = sget n (snd acc).
Proof.
  destruct acc as [m results], item as [cfg env]. cbn [fst snd]. intros Hne.
  assert (Hres : forall st, sget n (sset (ServerConfig.name cfg) st results) = sget n results).
  { intros st. rewrite (map_get_set String.eqb String.eqb_spec).
    destruct (String.eqb_spec n (ServerConfig.name cfg)); [congruence | reflexivity]. }
  pose proof (start_other_name m cfg env n Hne) as Hstart.
  unfold startAll_step.
  destruct (ServerConfig.autoStart cfg) as [[|] |].
  - destruct (start m cfg env) as [m' [st | text]]; cbn [fst snd] in *;
      split; [exact Hstart | apply Hres | exact Hstart | apply Hres].
  - cbn [fst snd servers]. split; [| apply Hres].
    rewrite (map_get_set String.eqb String.eqb_spec).
    destruct (String.eqb_spec n (ServerConfig.name cfg)); [congruence | reflexivity].
  - destruct (start m cfg env) as [m' [st | text]]; cbn [fst snd] in *;
      split; [exact Hstart | apply Hres | exact Hstart | apply Hres].
Qed.

Lemma startAll_fold_other_names (post : Datatypes.list (ServerConfig.t * connect_result))
  (acc : t * Datatypes.list (string * ServerState.t)) (n : string) :
  Forall (fun item => ServerConfig.name (fst item) <> n) post ->
  sget n (servers (fst (fold_left startAll_step post acc))) = sget n (servers (fst acc))
  /\ sget n (snd (fold_left startAll_step post acc)) = sget n (snd acc).
Proof.
  intros H. revert acc. induction H as [| item rest Hitem _ IH]; intros acc.
  - split; reflexivity.
  - simpl. destruct (IH (startAll_step acc item)) as [H1 H2].
    destruct (startAll_step_other_name acc item n Hitem) as [H3 H4].
    split; congruence.
Qed.

Lemma start_nextClient (m : t) (cfg : ServerConfig.t) (env : connect_result) :
  (nextClient m <= nextClient (fst (start m cfg env)))%N.
Proof.
  unfold start. destruct (sget (ServerConfig.name cfg) (servers m)) as [existing |] eqn:E.
  - destruct (is_running existing); [cbn [fst]; lia |].
    rewrite start_fresh_nextClient. unfold stopInternal. rewrite E. cbn [nextClient]. lia.
  - rewrite start_fresh_nextClient. lia.
Qed.

Lemma startAll_step_nextClient (acc : t * Datatypes.list (string * ServerState.t))
  (item : ServerConfig.t * connect_result) :
  (nextClient (fst acc) <= nextClient (fst (startAll_step acc item)))%N.
Proof.
  destruct acc as [m results], item as [cfg env]. cbn [fst].
  pose proof (start_nextClient m cfg env) as H. unfold startAll_step.
  destruct (ServerConfig.autoStart cfg) as [[|] |].
  - destruct (start m cfg env) as [m' [st | text]]; exact H.
  - cbn [fst nextClient]. lia.
  - destruct (start m cfg env) as [m' [st | text]]; exact H.
Qed.

Lemma startAll_fold_nextClient (configs : Datatypes.list (ServerConfig.t * connect_result))
  (acc : t * Datatypes.list (string * ServerState.t)) :
  (nextClient (fst acc) <= nextClient (fst (fold_left startAll_step configs acc)))%N.
Proof.
  revert acc. induction configs as [| item rest IH]; intros acc; [simpl; lia |].
  simpl. pose proof (IH (startAll_step acc item)).
  pose proof (startAll_step_nextClient acc item). lia.
Qed.

(** A client that only running entries hold is not disconnected by
    [start], and still only running entries hold it afterwards. *)
Lemma only_running_start (c : N) (m : t) (cfg : ServerConfig.t) (env : connect_result) :
  only_running c m ->
  only_running c (fst (start m cfg env))
  /\ exists extra, disconnected (fst (start m cfg env)) = (disconnected m ++ extra)%list
                   /\ ~ In c extra.
Proof.
  intros [Hlt Hrun].
  assert (Hfresh : forall m0, only_running c m0 -> only_running c (fst (start_fresh m0 cfg env))).
  { intros m0 [Hlt0 Hrun0]. split.
    - rewrite start_fresh_nextClient. lia.
    - intros k ms Hin Hc. rewrite start_fresh_servers in Hin. destruct env.
      + destruct (map_In_set String.eqb String.eqb_spec _ _ _ _ Hin) as [[= _ ->] | Hold];
          [reflexivity | exact (Hrun0 _ _ Hold Hc)].
      + destruct (map_In_delete String.eqb String.eqb_spec _ _ _ Hin) as [Hold _].
        exact (Hrun0 _ _ Hold Hc). }
  unfold start.
  destruct (sget (ServerConfig.name cfg) (servers m)) as [existing |] eqn:E.
  - destruct (is_running existing) eqn:Erun.
    + cbn [fst]. split; [split; assumption |]. exists []. rewrite app_nil_r.
      split; [reflexivity | intros []].
    + split.
      * apply Hfresh. unfold stopInternal. rewrite E. split; cbn [nextClient servers].
        -- exact Hlt.
        -- intros k ms Hin Hc.
           destruct (map_In_delete String.eqb String.eqb_spec _ _ _ Hin) as [Hold _].
           exact (Hrun _ _ Hold Hc).
      * rewrite start_fresh_disconnected. unfold stopInternal. rewrite E.
        cbn [disconnected]. exists [client existing]. split; [reflexivity |].
        intros [Hc | []].
        pose proof (Hrun _ _ (map_get_In String.eqb String.eqb_spec _ _ _ E) Hc).
        congruence.
  - split; [apply Hfresh; split; assumption |].
    rewrite start_fresh_disconnected. exists []. rewrite app_nil_r.
    split; [reflexivity | intros []].
Qed.

Lemma only_running_step (c : N) (acc : t * Datatypes.list (string * ServerState.t))
  (item : ServerConfig.t * connect_result) :
  only_running c (fst acc) ->
  only_running c (fst (startAll_step acc item))
  /\ exists extra,
       disconnected (fst (startAll_step acc item)) = (disconnected (fst acc) ++ extra)%list
       /\ ~ In c extra.
Proof.
  destruct acc as [m results], item as [cfg env]. cbn [fst]. intros Hor.
  pose proof (only_running_start c m cfg env Hor) as Hstart.
  unfold startAll_step.
  destruct (ServerConfig.autoStart cfg) as [[|] |].
  - destruct (start m cfg env) as [m' [st | text]]; exact Hstart.
  - cbn [fst]. destruct Hor as [Hlt Hrun]. split.
    + split; cbn [nextClient servers]; [lia |].
      intros k ms Hin Hc.
      destruct (map_In_set String.eqb String.eqb_spec _ _ _ _ Hin) as [[= _ ->] | Hold].
      * cbn [client] in Hc. lia.
      * exact (Hrun _ _ Hold Hc).
    + cbn [disconnected]. exists []. rewrite app_nil_r. split; [reflexivity | intros []].
  - destruct (start m cfg env) as [m' [st | text]]; exact Hstart.
Qed.

Lemma only_running_fold (c : N) (configs : Datatypes.list (ServerConfig.t * connect_result))
  (acc : t * Datatypes.list (string * ServerState.t)) :
  only_running c (fst acc) ->
  exists extra,
    disconnected (fst (fold_left startAll_step configs acc))
    = (disconnected (fst acc) ++ extra)%list
    /\ ~ In c extra.
Proof.
  revert acc. induction configs as [| item rest IH]; intros acc Hor.
  - exists []. rewrite app_nil_r. split; [reflexivity | intros []].
  - simpl. destruct (only_running_step c acc item Hor) as [Hor' [extra1 [Hd1 Hn1]]].
    destruct (IH _ Hor') as [extra2 [Hd2 Hn2]].
    exists (extra1 ++ extra2)%list. split.
    + rewrite Hd2, Hd1, app_assoc. reflexivity.
    + intros Hin. apply in_app_or in Hin. tauto.
Qed.

End Manager.

(** C5, as the code has it.  Let [start(config)] throw.  When no server of
    that name was running, then afterwards [list()] has no state of that
    name, [get] finds none, the last [stateChange] event is the [error]
    state of that name with the message thrown, and the guard of [start]
    lets a retry through: a retry whose handshake succeeds returns a
    [running] state.  When a server of that name was running, the message
    thrown is [already running], the manager is as it was, so the running
    server stays in [list()], and no event was emitted. *)
Theorem failed_start_frees_the_name
  (m m' : ServerManager.t) (cfg : ServerConfig.t) (env : ServerManager.connect_result)
  (text : string) :
  reachable m ->
  ServerManager.start m cfg env = (m', Throw text) ->
  match ServerManager.getClient m (ServerConfig.name cfg) with
  | None =>
      (forall st, In st (ServerManager.list m') ->
         ServerState.name st <> ServerConfig.name cfg)
      /\ ServerManager.get m' (ServerConfig.name cfg) = None
      /\ (exists earlier,
            ServerManager.emitted m'
            = (earlier
               ++ [(ServerConfig.name cfg, failed_state (ServerConfig.name cfg) text)])%list)
      /\ (forall env', ServerManager.start m' cfg env' = ServerManager.start_fresh m' cfg env')
      /\ (forall caps info now listed,
            exists st,
              snd (ServerManager.start m' cfg (ServerManager.Connected caps info now listed))
              = Ret st
              /\ ServerState.status st = ServerStatus.running)
  | Some _ =>
      text = "Server " ++ JS.dquote ++ ServerConfig.name cfg ++ JS.dquote
             ++ " is already running"
      /\ m' = m
      /\ ServerManager.emitted m' = ServerManager.emitted m
      /\ (exists st, In st (ServerManager.list m')
                     /\ ServerState.name st = ServerConfig.name cfg
                     /\ ServerState.status st = ServerStatus.running)
      /\ (forall env', ServerManager.start m' cfg env' = (m', Throw text))
  end.
Proof.
  intros Hreach Hstart.
  pose proof (reachable_wf m Hreach) as Hwf.
  destruct (ServerManager.getClient m (ServerConfig.name cfg)) as [c |] eqn:Hclient.
  - (* a server of that name is running *)
    unfold ServerManager.getClient in Hclient. unfold ServerManager.start in Hstart.
    destruct (JSMap.get String.eqb (ServerConfig.name cfg) (ServerManager.servers m))
      as [existing |] eqn:E; [| discriminate Hclient].
    destruct (ServerManager.is_running existing) eqn:Erun; [| discriminate Hclient].
    injection Hstart as <- <-.
    split; [reflexivity |]. split; [reflexivity |]. split; [reflexivity |].
    split.
    + exists (ServerManager.state existing).
      pose proof (map_get_In String.eqb String.eqb_spec _ _ _ E) as Hin.
      destruct Hwf as [Hnames _]. destruct (Hnames _ _ Hin) as [Hname _].
      split; [| split; [exact Hname |]].
      * unfold ServerManager.list, JSMap.values. rewrite map_map.
        apply (in_map (fun p => ServerManager.state (snd p)) _ _ Hin).
      * unfold ServerManager.is_running in Erun.
        destruct (ServerState.status (ServerManager.state existing));
          try discriminate Erun; reflexivity.
    + intros env'. unfold ServerManager.start. rewrite E, Erun. reflexivity.
  - (* the failure occurred while connecting *)
    assert (Hfresh : exists m0, manager_wf m0
                                /\ ServerManager.start_fresh m0 cfg env = (m', Throw text)).
    { unfold ServerManager.start in Hstart. unfold ServerManager.getClient in Hclient.
      destruct (JSMap.get String.eqb (ServerConfig.name cfg) (ServerManager.servers m))
        as [existing |].
      - destruct (ServerManager.is_running existing); [discriminate Hclient |].
        eexists. split; [apply wf_stopInternal; exact Hwf | exact Hstart].
      - exists m. split; assumption. }
    destruct Hfresh as [m0 [Hwf0 Hfresh]].
    destruct (start_fresh_failed m0 cfg env m' text Hwf0 Hfresh) as [Hlist [Hget Hemit]].
    assert (Hnone : JSMap.get String.eqb (ServerConfig.name cfg) (ServerManager.servers m')
                    = None).
    { unfold ServerManager.get in Hget.
      destruct (JSMap.get String.eqb (ServerConfig.name cfg) (ServerManager.servers m'));
        [discriminate | reflexivity]. }
    assert (Hretry : forall env',
               ServerManager.start m' cfg env' = ServerManager.start_fresh m' cfg env').
    { intros env'. unfold ServerManager.start. rewrite Hnone. reflexivity. }
    repeat split; try assumption.
    intros caps info now listed. rewrite Hretry. eexists. split; reflexivity.
Qed.

Lemma failed_start_frees_the_name_witness :
  let cfg := stdio_config "bad-server" in
  let m' := fst (ServerManager.start ServerManager.new cfg
                   (ServerManager.ConnectFailed "Request initialize (id=1) timed out after 2000ms")) in
  let running := fst (ServerManager.start ServerManager.new cfg connects) in
  ServerManager.list m' = []
  /\ ServerManager.get m' "bad-server" = None
  /\ map (fun ev => ServerState.status (snd ev)) (ServerManager.emitted m')
     = [ServerStatus.starting; ServerStatus.error]
  /\ ServerManager.start running cfg connects
     = (running, Throw ("Server " ++ JS.dquote ++ "bad-server" ++ JS.dquote
                        ++ " is already running")).
Proof.
  intros cfg m' running.
  pose proof (failed_start_frees_the_name ServerManager.new m' cfg
                (ServerManager.ConnectFailed "Request initialize (id=1) timed out after 2000ms")
                "Request initialize (id=1) timed out after 2000ms"
                reach_new eq_refl) as H.
  change (ServerManager.getClient ServerManager.new (ServerConfig.name cfg))
    with (@None N) in H.
  destruct H as [_ [H _]].
  pose proof (failed_start_frees_the_name running running cfg connects
                (ServerManager.already_running "bad-server")
                (reach_start _ _ _ reach_new) eq_refl) as H2.
  change (ServerManager.getClient running (ServerConfig.name cfg))
    with (Some 0%N) in H2.
  destruct H2 as [_ [_ [_ [_ H2]]]].
  split; [reflexivity |]. split; [exact H |]. split; [reflexivity |].
  exact (H2 connects).
Defined.

(** C5 as stated fails when [start] throws because the server is already
    running: the running server stays in [list()] and no [error] event is
    emitted. *)
Lemma start_of_running_server_throws_and_keeps_it :
  let cfg := stdio_config "srv" in
  let m := fst (ServerManager.start ServerManager.new cfg connects) in
  ServerManager.start m cfg connects = (m, Throw (ServerManager.already_running "srv"))
  /\ map ServerState.name (ServerManager.list m) = ["srv"]
  /\ map (fun ev => ServerState.status (snd ev)) (ServerManager.emitted m)
     = [ServerStatus.starting; ServerStatus.running].
Proof. repeat split; reflexivity. Qed.

(** C10, as the code has it.  Let [startAll] run on a list in which a config
    of name [n] has [autoStart: false] and no later config has that name.
    [startAll] has no failing path (a failed [start] becomes an [error]
    result).  Whatever was registered under [n], and whatever the earlier
    configs did,
    afterwards the entry of [n] is a [stopped] slot ([get] reports it,
    [getClient] returns nothing, the result map holds it) with a client
    allocated during this call, held by no entry of the manager before; and
    a client that was running under [n] before the call is not disconnected
    by it. *)
Theorem startAll_registers_manual_config
  (m : ServerManager.t) (cfg : ServerConfig.t) (env : ServerManager.connect_result)
  (pre post : list (ServerConfig.t * ServerManager.connect_result)) :
  reachable m ->
  ServerConfig.autoStart cfg = Some false ->
  Forall (fun item => ServerConfig.name (fst item) <> ServerConfig.name cfg) post ->
  let n := ServerConfig.name cfg in
  let after := ServerManager.startAll m (pre ++ (cfg, env) :: post) in
  ServerManager.get (fst after) n = Some (ServerManager.bare_state n ServerStatus.stopped)
  /\ ServerManager.getClient (fst after) n = None
  /\ JSMap.get String.eqb n (snd after)
     = Some (ServerManager.bare_state n ServerStatus.stopped)
  /\ (exists slot,
        JSMap.get String.eqb n (ServerManager.servers (fst after)) = Some slot
        /\ (ServerManager.nextClient m <= ServerManager.client slot)%N
        /\ forall k ms, In (k, ms) (ServerManager.servers m) ->
             ServerManager.client ms <> ServerManager.client slot)
  /\ (forall c, ServerManager.getClient m n = Some c ->
        exists extra,
          ServerManager.disconnected (fst after)
          = (ServerManager.disconnected m ++ extra)%list
          /\ ~ In c extra).
Proof.
  intros Hreach Hauto Hpost n after.
  pose proof (reachable_wf m Hreach) as [Hnames Hnd].
  set (acc := fold_left ServerManager.startAll_step pre (m, [])).
  set (slot := {| ServerManager.config := cfg;
                  ServerManager.client := ServerManager.nextClient (fst acc);
                  ServerManager.state := ServerManager.bare_state n ServerStatus.stopped |}).
  assert (Hafter : JSMap.get String.eqb n (ServerManager.servers (fst after)) = Some slot
                   /\ JSMap.get String.eqb n (snd after)
                      = Some (ServerManager.bare_state n ServerStatus.stopped)).
  { unfold after, ServerManager.startAll. rewrite fold_left_app. cbn [fold_left].
    fold acc.
    destruct (startAll_fold_other_names post
                (ServerManager.startAll_step acc (cfg, env)) n Hpost) as [Hs Hr].
    rewrite Hs, Hr. destruct acc as [m1 r1]. unfold ServerManager.startAll_step.
    rewrite Hauto. cbn [fst snd ServerManager.servers]. fold n.
    rewrite !(map_get_set String.eqb String.eqb_spec), String.eqb_refl.
    split; reflexivity. }
  destruct Hafter as [Hs Hr].
  pose proof (startAll_fold_nextClient pre (m, [])) as Hmono. fold acc in Hmono.
  cbn [fst] in Hmono.
  split; [unfold ServerManager.get; rewrite Hs; reflexivity |].
  split; [unfold ServerManager.getClient; rewrite Hs; reflexivity |].
  split; [exact Hr |].
  split.
  - exists slot. split; [exact Hs |]. cbn [ServerManager.client slot]. split; [exact Hmono |].
    intros k ms Hin. destruct (Hnames _ _ Hin) as [_ Hlt]. lia.
  - intros c Hc.
    assert (Hor : only_running c m).
    { unfold ServerManager.getClient in Hc.
      destruct (JSMap.get String.eqb n (ServerManager.servers m)) as [running |] eqn:E;
        [| discriminate].
      destruct (ServerManager.is_running running) eqn:Erun; [| discriminate].
      injection Hc as <-.
      pose proof (map_get_In String.eqb String.eqb_spec _ _ _ E) as Hin.
      split; [apply (Hnames _ _ Hin) |].
      intros k ms Hin' Hclient.
      assert (Heq : (k, ms) = (n, running))
        by (apply (NoDup_map_injective client_of _ _ _ Hnd Hin' Hin); exact Hclient).
      injection Heq as _ ->. exact Erun. }
    exact (only_running_fold c (pre ++ (cfg, env) :: post) (m, []) Hor).
Qed.

Lemma startAll_registers_manual_config_witness :
  let m := fst (ServerManager.start ServerManager.new (stdio_config "n") connects) in
  let after := ServerManager.startAll m [(manual_config "n", connects)] in
  ServerManager.getClient m "n" = Some 0%N
  /\ ServerManager.get (fst after) "n"
     = Some (ServerManager.bare_state "n" ServerStatus.stopped)
  /\ ServerManager.getClient (fst after) "n" = None
  /\ ServerManager.disconnected (fst after) = [].
Proof.
  intros m after.
  pose proof (startAll_registers_manual_config m (manual_config "n") connects [] []
                (reach_start _ _ _ reach_new) eq_refl (Forall_nil _))
    as [H1 [H2 _]].
  split; [reflexivity |]. split; [exact H1 |]. split; [exact H2 | reflexivity].
Defined.

(** C10 as stated fails when a later config of the list has the same name:
    after [startAll] on [{n, autoStart: false}; {n}] the server [n] is
    running. *)
Lemma later_config_of_same_name_starts_it :
  let m := fst (ServerManager.start ServerManager.new (stdio_config "n") connects) in
  let after := ServerManager.startAll m
                 [(manual_config "n", connects); (stdio_config "n", connects)] in
  option_map ServerState.status (ServerManager.get (fst after) "n")
  = Some ServerStatus.running
  /\ ServerManager.getClient (fst after) "n" = Some 2%N.
Proof. split; reflexivity. Qed.

(** ** PermissionGuard: allowlist and rule resolution *)

Section Guard.
Import PermissionGuard.

Lemma scope_eqb_eq (a b : PermissionScope) : scope_eqb a b = true <-> a = b.
Proof. destruct a, b; simpl; split; intros H; try reflexivity; discriminate. Qed.

Lemma missing_scopes_none (required granted : list PermissionScope) :
  filter (fun s => negb (existsb (scope_eqb s) granted)) required = []
  <-> incl required granted.
Proof.
  induction required as [| s r IH]; simpl.
  - split; [intros _ x [] | reflexivity].
  - destruct (existsb (scope_eqb s) granted) eqn:E; simpl.
    + rewrite IH. apply existsb_exists in E. destruct E as [x [Hin Hx]].
      apply scope_eqb_eq in Hx. subst x. split.
      * intros H y [<- | Hy]; [exact Hin | apply H; exact Hy].
      * intros H y Hy. apply H. right; exact Hy.
    + split; [discriminate |]. intros H. exfalso.
      assert (Hin : In s granted) by (apply H; left; reflexivity).
      assert (Hex : existsb (scope_eqb s) granted = true).
      { apply existsb_exists. exists s. split; [exact Hin | apply scope_eqb_eq; reflexivity]. }
      congruence.
Qed.

Lemma find_filter {A : Type} (p q : A -> bool) (l : list A) :
  find p (filter q l) = find (fun x => q x && p x) l.
Proof.
  induction l as [| x l IH]; simpl; [reflexivity |].
  destruct (q x); simpl; [destruct (p x); [reflexivity | exact IH] | exact IH].
Qed.

Lemma glob_spec_star (v : string) : glob_spec "*" v = true.
Proof.
  induction v as [| c v IH]; [reflexivity |].
  cbn [glob_spec] in *. simpl Ascii.eqb in *. cbv iota in *.
  cbn [orb]. exact IH.
Qed.

(** On patterns without [?] and single-line names, the throwing search
    through the glob rules is an ordinary [find] with glob semantics. *)
Lemma find_throwing_glob (toolName : string) (l : list ToolPermission) :
  Forall (fun r => ~ In "?"%char (list_ascii_of_string (tool r))) l ->
  single_line toolName ->
  find_throwing (fun r => matchGlob (tool r) toolName) l
  = Ret (find (fun r => glob_spec (tool r) toolName) l).
Proof.
  intros Hl Hv. induction Hl as [| r l Hr _ IH]; [reflexivity |].
  cbn [find_throwing find].
  assert (Hm : matchGlob (tool r) toolName = Ret (glob_spec (tool r) toolName)).
  { unfold matchGlob, RegExp, glob_source.
    cbn [String.append compile]. simpl Ascii.eqb. cbv iota.
    rewrite compile_glob_terms by assumption.
    cbn [flush rev app]. rewrite test_anchored, match_here_glob by assumption.
    reflexivity. }
  rewrite Hm. destruct (glob_spec (tool r) toolName); [reflexivity | exact IH].
Qed.

(** X6.  The server allowlist.  With no allowlist ([null]) every server may
    be started; with an allowlist a server may be started exactly when its
    name is a member, so the empty allowlist forbids every server; a denial
    always carries a reason and a permission never does.  Setting the
    allowlist leaves the tool rules as they are. *)
Theorem server_allowlist_membership (g : t) (names : list string) (name : string) :
  allowed (isServerAllowed (setServerAllowlist g None) name) = true
  /\ (allowed (isServerAllowed (setServerAllowlist g (Some names)) name) = true
      <-> In name names)
  /\ allowed (isServerAllowed (setServerAllowlist g (Some [])) name) = false
  /\ (forall l,
        allowed (isServerAllowed (setServerAllowlist g l) name) = false
        <-> reason (isServerAllowed (setServerAllowlist g l) name) <> None)
  /\ (forall l toolName required,
        checkToolPermission (setServerAllowlist g l) toolName required
        = checkToolPermission g toolName required).
Proof.
  split; [reflexivity |]. split; [| split; [reflexivity | split]].
  - unfold isServerAllowed, setServerAllowlist. cbn [serverAllowlist].
    destruct (existsb (String.eqb name) names) eqn:E; cbn [allowed].
    + apply existsb_exists in E. destruct E as [x [Hin Hx]].
      apply String.eqb_eq in Hx. subst x. split; [intros _; exact Hin | reflexivity].
    + split; [discriminate |]. intros Hin. exfalso.
      assert (Hex : existsb (String.eqb name) names = true).
      { apply existsb_exists. exists name. split; [exact Hin | apply String.eqb_refl]. }
      congruence.
  - intros l. unfold isServerAllowed, setServerAllowlist. cbn [serverAllowlist].
    destruct l as [l |]; [destruct (existsb (String.eqb name) l) |];
      cbn [allowed reason]; split; try discriminate; try congruence.
  - reflexivity.
Qed.

(** X7.  A rule whose [tool] equals the tool name decides the check, and the
    first such rule does.  The glob rules are then not evaluated, so the
    check returns even when a glob rule of the list is no valid regular
    expression.  The tool is permitted exactly when that rule allows and,
    when scopes are both required and listed by the rule, every required
    scope is listed; a rule that lists no scopes satisfies every scope
    requirement. *)
Theorem exact_rule_decides (g : t) (toolName : string) (r : ToolPermission)
  (required : option (list PermissionScope)) :
  find (fun x => String.eqb (tool x) toolName) (rules g) = Some r ->
  findMatchingRule g toolName = Ret (Some r)
  /\ exists res,
       checkToolPermission g toolName required = Ret res
       /\ (allowed res = true
           <-> allow r = true
               /\ forall req granted,
                    required = Some req -> scopes r = Some granted -> incl req granted).
Proof.
  intros Hfind.
  assert (Hm : findMatchingRule g toolName = Ret (Some r))
    by (unfold findMatchingRule; rewrite Hfind; reflexivity).
  split; [exact Hm |].
  unfold checkToolPermission. rewrite Hm.
  destruct (rules g) as [| r0 rs] eqn:Hrules; [discriminate |].
  cbn [List.length Nat.eqb].
  destruct (allow r) eqn:Hallow; cbn [negb].
  - destruct required as [req |]; [destruct (scopes r) as [granted |] eqn:Hsc |].
    + destruct (filter (fun s => negb (existsb (scope_eqb s) granted)) req)
        as [| s0 miss] eqn:Hmiss.
      * rewrite andb_false_r. eexists; split; [reflexivity |]. cbn [allowed].
        split; [| reflexivity]. intros _. split; [reflexivity |].
        intros req' granted' [= <-] [= <-]. apply missing_scopes_none. exact Hmiss.
      * destruct req as [| q req']; [discriminate Hmiss |].
        cbn [List.length Nat.ltb Nat.leb andb].
        eexists; split; [reflexivity |]. cbn [allowed].
        split; [discriminate |]. intros [_ H]. exfalso.
        specialize (H _ _ eq_refl eq_refl). apply missing_scopes_none in H.
        rewrite H in Hmiss. discriminate.
    + eexists; split; [reflexivity |]. cbn [allowed].
      split; [| reflexivity]. intros _. split; [reflexivity |]. discriminate.
    + eexists; split; [reflexivity |]. cbn [allowed].
      split; [| reflexivity]. intros _. split; [reflexivity |]. discriminate.
  - eexists; split; [reflexivity |]. cbn [allowed].
    split; [discriminate | intros [H _]; discriminate H].
Qed.

Lemma exact_rule_decides_witness :
  findMatchingRule
    (loadRules new [{| tool := "?*"; allow := false; scopes := None |};
                    {| tool := "run"; allow := true; scopes := Some [read; execute] |}])
    "run"
  = Ret (Some {| tool := "run"; allow := true; scopes := Some [read; execute] |})
  /\ checkToolPermission
       (loadRules new [{| tool := "?*"; allow := false; scopes := None |};
                       {| tool := "run"; allow := true; scopes := Some [read; execute] |}])
       "run" (Some [execute])
     = Ret {| allowed := true; reason := None |}.
Proof.
  destruct (exact_rule_decides
              (loadRules new [{| tool := "?*"; allow := false; scopes := None |};
                              {| tool := "run"; allow := true;
                                 scopes := Some [read; execute] |}])
              "run" {| tool := "run"; allow := true; scopes := Some [read; execute] |}
              (Some [execute]) eq_refl) as [H _].
  split; [exact H | reflexivity].
Defined.

(** X8.  Rule resolution for glob patterns without [?] and tool names
    without line terminators: the rule applied is the first rule whose
    [tool] equals the name, and otherwise the first rule, in list order,
    that contains [*] and matches the name as a glob.  The lookup never
    throws.  The final catch-all lookup of [findMatchingRule] adds nothing
    here: a rule [*] is itself a glob rule, taken in its list position, so
    it shadows every glob rule after it. *)
Theorem glob_rules_resolve_in_order (g : t) (toolName : string) :
  Forall (fun r => ~ In "?"%char (list_ascii_of_string (tool r))) (rules g) ->
  single_line toolName ->
  findMatchingRule g toolName
  = Ret match find (fun r => String.eqb (tool r) toolName) (rules g) with
        | Some exact => Some exact
        | None =>
            find (fun r => JS.includes (tool r) "*" && glob_spec (tool r) toolName)
              (rules g)
        end.
Proof.
  intros Hq Hv. unfold findMatchingRule.
  destruct (find (fun r => String.eqb (tool r) toolName) (rules g)); [reflexivity |].
  rewrite find_throwing_glob; [| | exact Hv].
  - rewrite find_filter.
    destruct (find (fun r => JS.includes (tool r) "*" && glob_spec (tool r) toolName)
                (rules g)) eqn:Eglob; [reflexivity |].
    destruct (find (fun r => String.eqb (tool r) "*") (rules g)) as [star |] eqn:Estar;
      [| reflexivity].
    exfalso. apply find_some in Estar. destruct Estar as [Hin Hstar].
    apply String.eqb_eq in Hstar.
    pose proof (find_none _ _ Eglob _ Hin) as Hno. cbv beta in Hno.
    rewrite Hstar, glob_spec_star in Hno. discriminate Hno.
  - rewrite Forall_forall in *. intros r Hr. apply filter_In in Hr. apply Hq, Hr.
Qed.

Lemma glob_rules_resolve_in_order_witness :
  findMatchingRule
    (loadRules new [{| tool := "*"; allow := false; scopes := None |};
                    {| tool := "file_*"; allow := true; scopes := None |}])
    "file_read"
  = Ret (Some {| tool := "*"; allow := false; scopes := None |}).
Proof.
  apply (glob_rules_resolve_in_order
           (loadRules new [{| tool := "*"; allow := false; scopes := None |};
                           {| tool := "file_*"; allow := true; scopes := None |}])
           "file_read").
  - repeat constructor; simpl; intuition discriminate.
  - unfold single_line. simpl. repeat constructor.
Defined.

End Guard.

(** ** SecretProvider *)

Section Secrets.
Import SecretProvider.

Lemma prefix_append (p r : string) : prefix p (p ++ r) = true.
Proof.
  induction p as [| c p IH]; simpl; [destruct r; reflexivity |].
  destruct (ascii_dec c c); [exact IH | contradiction].
Qed.

Lemma prefix_split (p s : string) : prefix p s = true -> exists r, s = p ++ r.
Proof.
  revert s. induction p as [| c p IH]; intros s H.
  - exists s. reflexivity.
  - destruct s as [| d s]; simpl in H; [discriminate |].
    destruct (ascii_dec c d) as [-> | _]; [| discriminate].
    destruct (IH s H) as [r ->]. exists r. reflexivity.
Qed.

Lemma str_slice_from (p r : string) :
  JS.str_slice (p ++ r) (Z.of_nat (String.length p)) None = r.
Proof.
  unfold JS.str_slice, JS.relative_index. rewrite length_append.
  destruct (Z.ltb_spec (Z.of_nat (String.length p)) 0) as [? | _]; [lia |].
  rewrite Z.min_l by lia.
  replace (Z.to_nat (Z.of_nat (String.length p))) with (String.length p) by lia.
  replace (Z.to_nat _) with (String.length r) by lia.
  apply substring_suffix.
Qed.

Lemma append_inj_l (p a b : string) : p ++ a = p ++ b -> a = b.
Proof. induction p as [| c p IH]; simpl; [auto | intros [= H]; auto]. Qed.

Lemma get_assign_other {V} (k k0 : string) (v : V) (o : JSObject.t V) :
  k <> k0 -> JSObject.get k (JSObject.assign k0 v o) = JSObject.get k o.
Proof.
  intros Hne. unfold JSObject.assign.
  destruct (String.eqb k0 "__proto__"); [reflexivity | apply get_define_other; exact Hne].
Qed.

(** The object built by defining the pairs of [es], in order, on [acc]. *)
Lemma get_fold_define {V} (k : string) (es : list (string * V)) (acc : JSObject.t V) :
  NoDup (map fst es) ->
  JSObject.get k (fold_left (fun a kv => JSObject.define (fst kv) (snd kv) a) es acc)
  = match JSObject.get k es with
    | Some v => Some v
    | None => JSObject.get k acc
    end.
Proof.
  revert acc. induction es as [| [k' v'] r IH]; intros acc Hnd; [reflexivity |].
  inversion Hnd as [| ? ? Hnotin Hnd']; subst.
  cbn [fold_left fst snd]. rewrite IH by assumption. cbn [JSObject.get].
  destruct (String.eqb_spec k k') as [-> | Hne].
  - assert (Hr : JSObject.get k' r = None) by (apply get_None_notin; exact Hnotin).
    rewrite Hr. apply get_define_same.
  - rewrite get_define_other by assumption. reflexivity.
Qed.

Lemma get_spread {V} (k : string) (o : JSObject.t V) :
  NoDup (map fst o) -> JSObject.get k (JSObject.spread o) = JSObject.get k o.
Proof.
  intros Hnd. unfold JSObject.spread.
  rewrite get_fold_define by (apply entries_NoDup; exact Hnd).
  rewrite get_entries by assumption.
  destruct (JSObject.get k o); reflexivity.
Qed.

Lemma loadFromEnv_fold (p name : string) (es : list (string * option string))
  (secrets : t) :
  NoDup (map fst es) ->
  get (fold_left
         (fun acc kv =>
            match snd kv with
            | Some value =>
                if startsWith (fst kv) p
                then JSMap.set String.eqb
                       (JS.str_slice (fst kv) (Z.of_nat (String.length p)) None) value acc
                else acc
            | None => acc
            end) es secrets) name
  = match JSObject.get (p ++ name) es with
    | Some (Some value) => Some value
    | _ => get secrets name
    end.
Proof.
  revert secrets. induction es as [| [k ov] r IH]; intros secrets Hnd; [reflexivity |].
  inversion Hnd as [| ? ? Hnotin Hnd']; subst.
  cbn [fold_left fst snd]. rewrite IH by assumption. cbn [JSObject.get].
  destruct (String.eqb_spec (p ++ name) k) as [<- | Hne].
  - assert (Hr : JSObject.get (p ++ name) r = None) by (apply get_None_notin; exact Hnotin).
    rewrite Hr. destruct ov as [v |]; [| reflexivity].
    unfold startsWith. rewrite prefix_append, str_slice_from. unfold get.
    rewrite (map_get_set String.eqb String.eqb_spec), String.eqb_refl. reflexivity.
  - assert (Hsame :
      get match ov with
          | Some value =>
              if startsWith k p
              then JSMap.set String.eqb
                     (JS.str_slice k (Z.of_nat (String.length p)) None) value secrets
              else secrets
          | None => secrets
          end name = get secrets name).
    { destruct ov as [v |]; [| reflexivity].
      unfold startsWith. destruct (prefix p k) eqn:Hp; [| reflexivity].
      destruct (prefix_split _ _ Hp) as [rest ->]. rewrite str_slice_from.
      unfold get. rewrite (map_get_set String.eqb String.eqb_spec).
      destruct (String.eqb_spec name rest) as [-> | _]; [contradiction Hne; reflexivity |].
      reflexivity. }
    destruct (JSObject.get (p ++ name) r) as [[v |] |]; [reflexivity | exact Hsame ..].
Qed.

(** X9.  [loadFromEnv] and [get] round trip.  After loading the environment
    with a prefix, the secret [name] is the value of the variable whose name
    is the prefix followed by [name], when that variable is set; otherwise it
    is what it was before the load.  An omitted prefix is [GOLEM_MCP_]. *)
Theorem loadFromEnv_lookup (secrets : t) (env : JSObject.t (option string))
  (prefix : option string) (name : string) :
  NoDup (map fst env) ->
  let p := match prefix with Some p => p | None => "GOLEM_MCP_" end in
  get (loadFromEnv secrets env prefix) name
  = match JSObject.get (p ++ name) env with
    | Some (Some value) => Some value
    | _ => get secrets name
    end.
Proof.
  intros Hnd p. unfold loadFromEnv. fold p.
  rewrite (loadFromEnv_fold p name) by (apply entries_NoDup; exact Hnd).
  rewrite get_entries by assumption. reflexivity.
Qed.

Lemma loadFromEnv_lookup_witness :
  get (loadFromEnv (set new "API_KEY" "old")
         [("PATH", Some "/bin"); ("GOLEM_MCP_API_KEY", Some "k1"); ("GOLEM_MCP_", Some "e")]
         None) "API_KEY" = Some "k1".
Proof.
  apply (loadFromEnv_lookup (set new "API_KEY" "old")
           [("PATH", Some "/bin"); ("GOLEM_MCP_API_KEY", Some "k1"); ("GOLEM_MCP_", Some "e")]
           None "API_KEY").
  repeat constructor; simpl; intuition discriminate.
Defined.

Lemma get_put {V} (k k0 : string) (v : V) (o : JSObject.t V) :
  JSObject.get k (JSObject.put k0 v o)
  = if String.eqb k k0
    then (if String.eqb k0 "__proto__"
          then match JSObject.get k0 o with Some _ => Some v | None => None end
          else Some v)
    else JSObject.get k o.
Proof.
  unfold JSObject.put. destruct (String.eqb_spec k k0) as [-> | Hne].
  - destruct (String.eqb k0 "__proto__"); [| apply get_define_same].
    destruct (JSObject.get k0 o) eqn:E; [apply get_define_same | exact E].
  - destruct (String.eqb k0 "__proto__"); [| apply get_define_other; exact Hne].
    destruct (JSObject.get k0 o); [apply get_define_other; exact Hne | reflexivity].
Qed.

Lemma buildEnv_fold (pre k : string) (ss : list (string * string))
  (acc : JSObject.t string) :
  NoDup (map fst ss) ->
  JSObject.get k
    (fold_left
       (fun env kv =>
          if startsWith (fst kv) pre then JSObject.put (fst kv) (snd kv) env else env)
       ss acc)
  = match (if startsWith k pre
              && (negb (String.eqb k "__proto__")
                  || match JSObject.get k acc with Some _ => true | None => false end)
           then get ss k else None) with
    | Some v => Some v
    | None => JSObject.get k acc
    end.
Proof.
  revert acc. induction ss as [| [k' v'] r IH]; intros acc Hnd.
  - cbn [fold_left]. unfold get. cbn [JSMap.get].
    destruct (startsWith k pre && _); reflexivity.
  - inversion Hnd as [| ? ? Hnotin Hnd']; subst.
    cbn [fold_left fst snd]. rewrite IH by assumption.
    unfold get. cbn [JSMap.get].
    destruct (String.eqb_spec k k') as [<- | Hne].
    + assert (Hr : JSMap.get String.eqb k r = None).
      { destruct (JSMap.get String.eqb k r) eqn:E; [| reflexivity].
        exfalso. apply Hnotin. apply (map_get_In String.eqb String.eqb_spec) in E.
        apply (in_map fst) in E. exact E. }
      rewrite Hr.
      match goal with
      | |- match (if ?c then None else None) with Some v => Some v | None => ?x end = _ =>
          replace (match (if c then None else None) with Some v => Some v | None => x end)
            with x by (destruct c; reflexivity)
      end.
      destruct (startsWith k pre); cbn [andb]; [| reflexivity].
      rewrite get_put, String.eqb_refl.
      destruct (String.eqb k "__proto__"); cbn [negb orb]; [| reflexivity].
      destruct (JSObject.get k acc); reflexivity.
    + assert (Hacc :
        JSObject.get k (if startsWith k' pre then JSObject.put k' v' acc else acc)
        = JSObject.get k acc).
      { destruct (startsWith k' pre); [| reflexivity].
        rewrite get_put. destruct (String.eqb_spec k k'); [contradiction | reflexivity]. }
      rewrite Hacc. reflexivity.
Qed.

(** X10.  [buildEnv].  The environment built for a server holds, under a
    key [k], the secret named [k] when [k] begins with the server's prefix,
    and otherwise the server's configured value: a secret overrides a
    configured variable of the same name, and a secret that does not begin
    with the prefix never reaches the server.  A secret named [__proto__]
    is passed on only over a configured variable of that name. *)
Theorem buildEnv_lookup (secrets : t) (cfg : ServerConfig.t) (k : string) :
  NoDup (map fst secrets) ->
  (forall o, ServerConfig.env cfg = Some o -> NoDup (map fst o)) ->
  JSObject.get k (buildEnv secrets cfg)
  = match (if startsWith k (server_prefix (ServerConfig.name cfg))
              && (negb (String.eqb k "__proto__")
                  || match config_env cfg k with Some _ => true | None => false end)
           then get secrets k else None) with
    | Some v => Some v
    | None => config_env cfg k
    end.
Proof.
  intros Hs Henv. unfold buildEnv. rewrite buildEnv_fold by assumption.
  unfold config_env. destruct (ServerConfig.env cfg) as [o |] eqn:E.
  - rewrite get_spread by (apply Henv; reflexivity). reflexivity.
  - reflexivity.
Qed.

Lemma buildEnv_lookup_witness :
  let cfg := {| ServerConfig.name := "my-db"; ServerConfig.command := "db";
                ServerConfig.args := None;
                ServerConfig.env := Some [("MY_DB_URL", "configured"); ("HOME", "/")];
                ServerConfig.transport := ServerConfig.stdio;
                ServerConfig.autoStart := None;
                ServerConfig.permissions := None |} in
  let secrets := set (set new "OTHER_TOKEN" "t") "MY_DB_URL" "secret" in
  JSObject.get "MY_DB_URL" (buildEnv secrets cfg) = Some "secret"
  /\ JSObject.get "OTHER_TOKEN" (buildEnv secrets cfg) = None
  /\ JSObject.get "HOME" (buildEnv secrets cfg) = Some "/".
Proof.
  intros cfg secrets.
  assert (Hs : NoDup (map fst secrets))
    by (repeat constructor; simpl; intuition discriminate).
  assert (He : forall o, ServerConfig.env cfg = Some o -> NoDup (map fst o))
    by (intros o [= <-]; repeat constructor; simpl; intuition discriminate).
  split; [exact (buildEnv_lookup secrets cfg "MY_DB_URL" Hs He) |].
  split; reflexivity.
Defined.

Lemma upper_sanitized_env_chars (c : ascii) :
  forallb is_env_char (list_ascii_of_string (upper_sanitized c)) = true.
Proof. destruct c as [[] [] [] [] [] [] [] []]; reflexivity. Qed.

Lemma upper_sanitized_lower (c : ascii) :
  upper_sanitized (JS.lower_char c) = upper_sanitized c.
Proof. destruct c as [[] [] [] [] [] [] [] []]; reflexivity. Qed.

Lemma list_ascii_append (a b : string) :
  list_ascii_of_string (a ++ b)
  = (list_ascii_of_string a ++ list_ascii_of_string b)%list.
Proof. induction a as [| c a IH]; simpl; [| rewrite IH]; reflexivity. Qed.

(** X11.  The prefix that selects a server's secrets is made of the
    characters [A-Z], [0-9] and [_] only, whatever the server is named.  For
    a name of ASCII characters (code units below U+0080) it does not depend
    on the letter case of the name: such servers whose names differ in case
    only are given the same secrets. *)
Theorem server_prefix_shape (name : string) :
  forallb is_env_char (list_ascii_of_string (server_prefix name)) = true
  /\ (Forall (fun c => (N_of_ascii c < 128)%N) (list_ascii_of_string name) ->
      server_prefix (JS.toLowerCase name) = server_prefix name).
Proof.
  unfold server_prefix. split.
  - rewrite list_ascii_append, forallb_app. apply andb_true_intro. split; [| reflexivity].
    induction name as [| c name IH]; [reflexivity |].
    cbn [env_name]. rewrite list_ascii_append, forallb_app, IH, upper_sanitized_env_chars.
    reflexivity.
  - intros _. f_equal. induction name as [| c name IH]; [reflexivity |].
    cbn [JS.toLowerCase env_name]. rewrite IH, upper_sanitized_lower. reflexivity.
Qed.

End Secrets.

(** ** ManifestManager: servers and cached tools *)

Section Manifest.
Import ManifestManager.

Lemma find_app {A : Type} (p : A -> bool) (a b : list A) :
  find p (a ++ b)%list = match find p a with Some x => Some x | None => find p b end.
Proof.
  induction a as [| x a IH]; simpl; [reflexivity |].
  destruct (p x); [reflexivity | exact IH].
Qed.

Lemma find_tagged (srv q : string) (ts : list ToolDefinition.t) :
  find (fun p : string * ToolDefinition.t => String.eqb (ToolDefinition.name (snd p)) q)
    (map (fun tool => (srv, tool)) ts)
  = option_map (pair srv) (find (fun t => String.eqb (ToolDefinition.name t) q) ts).
Proof.
  induction ts as [| t ts IH]; simpl; [reflexivity |].
  destruct (String.eqb (ToolDefinition.name t) q); [reflexivity | exact IH].
Qed.

Lemma findTool_dotted (m : GolemManifest) (srv tl : string) :
  ~ In "."%char (list_ascii_of_string srv) ->
  findTool m (srv ++ String "." tl)
  = match JSObject.get srv (servers m) with
    | None => None
    | Some entry => option_map (pair srv) (find_tool tl entry)
    end.
Proof.
  intros Hdot. unfold findTool. rewrite indexOf_first by assumption.
  destruct (Z.eqb_spec (Z.of_nat (String.length srv)) (-1)) as [? | _]; [lia |].
  rewrite str_slice_before, str_slice_after.
  destruct (JSObject.get srv (servers m)) as [entry |]; [| reflexivity].
  destruct (find_tool tl entry); reflexivity.
Qed.

Lemma get_delete_same {V} (k : string) (o : JSObject.t V) :
  JSObject.get k (JSObject.delete k o) = None.
Proof.
  induction o as [| [k' v'] r IH]; simpl; [reflexivity |].
  destruct (String.eqb k k') eqn:E; simpl; [exact IH | rewrite E; exact IH].
Qed.

Lemma get_delete_other {V} (k k0 : string) (o : JSObject.t V) :
  k <> k0 -> JSObject.get k (JSObject.delete k0 o) = JSObject.get k o.
Proof.
  intros Hne. induction o as [| [k' v'] r IH]; simpl; [reflexivity |].
  destruct (String.eqb_spec k0 k') as [<- | Hk0]; simpl.
  - destruct (String.eqb_spec k k0); [contradiction | exact IH].
  - destruct (String.eqb k k'); [reflexivity | exact IH].
Qed.

Lemma delete_absent {V} (k : string) (o : JSObject.t V) :
  JSObject.get k o = None -> JSObject.delete k o = o.
Proof.
  induction o as [| [k' v'] r IH]; simpl; [reflexivity |].
  destruct (String.eqb k k'); [discriminate |]. intros H. rewrite IH by exact H. reflexivity.
Qed.

(** X12.  [findTool] and [allTools] agree: a query without a dot returns
    the first element of [allTools()] whose tool has that name. *)
Theorem findTool_first_of_allTools (m : GolemManifest) (q : string) :
  ~ In "."%char (list_ascii_of_string q) ->
  findTool m q
  = find (fun p => String.eqb (ToolDefinition.name (snd p)) q) (allTools m).
Proof.
  intros Hdot. unfold findTool. rewrite indexOf_absent by assumption.
  cbn [Z.eqb Z.opp Pos.eqb]. unfold allTools.
  induction (JSObject.entries (servers m)) as [| [name entry] r IH]; [reflexivity |].
  cbn [scan flat_map fst snd]. rewrite find_app. unfold find_tool at 1.
  destruct (tools entry) as [ts |].
  - rewrite find_tagged.
    destruct (find (fun t => String.eqb (ToolDefinition.name t) q) ts);
      [reflexivity | exact IH].
  - exact IH.
Qed.

Lemma findTool_first_of_allTools_witness :
  let m := with_server (with_server empty "a" [tool_named "x"; tool_named "y"])
             "b" [tool_named "y"] in
  findTool m "y" = Some ("a", tool_named "y")
  /\ allTools m = [("a", tool_named "x"); ("a", tool_named "y"); ("b", tool_named "y")].
Proof.
  intros m. split; [| reflexivity].
  rewrite (findTool_first_of_allTools m "y") by (simpl; intuition discriminate).
  reflexivity.
Defined.

(** X13.  [updateTools] and the lookups round trip.  For a registered
    server the call returns; afterwards [getServer] gives the entry with
    the new tools and the time of the call, its other fields kept; the
    entries of the other servers are as before; and a qualified query
    [name.tool] finds the first tool of the new list with that name. *)
Theorem updateTools_round_trip (now : string) (m : GolemManifest) (name : string)
  (entry : ServerManifestEntry) (ts : list ToolDefinition.t) :
  JSObject.get name (servers m) = Some entry ->
  exists m',
    updateTools now m name ts = Ret m'
    /\ getServer m' name
       = Own {| config := config entry; capabilities := capabilities entry;
                tools := Some ts; resources := resources entry;
                prompts := prompts entry; lastDiscovered := Some now |}
    /\ (forall other, other <> name -> getServer m' other = getServer m other)
    /\ (~ In "."%char (list_ascii_of_string name) ->
        forall tl,
          findTool m' (name ++ String "." tl)
          = option_map (pair name)
              (find (fun t => String.eqb (ToolDefinition.name t) tl) ts)).
Proof.
  intros Hget. unfold updateTools. rewrite Hget. eexists. split; [reflexivity |].
  split; [| split].
  - unfold getServer. cbn [servers]. rewrite get_define_same. reflexivity.
  - intros other Hne. unfold getServer. cbn [servers].
    rewrite get_define_other by assumption. reflexivity.
  - intros Hdot tl. rewrite findTool_dotted by assumption. cbn [servers].
    rewrite get_define_same. reflexivity.
Qed.

Lemma updateTools_round_trip_witness :
  exists m',
    updateTools "t1" (addServer empty (stdio_config "fs")) "fs" [tool_named "read"] = Ret m'
    /\ findTool m' "fs.read" = Some ("fs", tool_named "read").
Proof.
  destruct (updateTools_round_trip "t1" (addServer empty (stdio_config "fs")) "fs"
              {| config := stdio_config "fs"; capabilities := None; tools := None;
                 resources := None; prompts := None; lastDiscovered := None |}
              [tool_named "read"] eq_refl) as [m' [H1 [_ [_ H4]]]].
  exists m'. split; [exact H1 |].
  apply (H4 ltac:(simpl; intuition discriminate) "read").
Defined.

(** X14.  [addServer] is an upsert that forgets.  For every name other than
    [__proto__] the server is registered with its config and nothing else,
    so cached tools of an earlier registration under that name are gone: a
    qualified query for that server is answered only from the [tools] that
    [Object.prototype] supplies, and finds nothing where it supplies none,
    as in a process that leaves [Object.prototype] unmodified.  The entries
    of the other servers are as before. *)
Theorem addServer_resets_entry (m : GolemManifest) (cfg : ServerConfig.t) :
  let name := ServerConfig.name cfg in
  (name <> "__proto__" ->
   getServer (addServer m cfg) name
   = Own {| config := cfg; capabilities := None; tools := None; resources := None;
            prompts := None; lastDiscovered := None |})
  /\ (name <> "__proto__" -> ~ In "."%char (list_ascii_of_string name) ->
      forall pc tl,
        findTool_in pc (addServer m cfg) (name ++ String "." tl)
        = Ret match beyond_entry pc with
              | Some ts =>
                  option_map (pair name)
                    (find (fun t => String.eqb (ToolDefinition.name t) tl) ts)
              | None => None
              end)
  /\ (name <> "__proto__" -> ~ In "."%char (list_ascii_of_string name) ->
      forall tl,
        findTool_in unmodified_chain (addServer m cfg) (name ++ String "." tl) = Ret None)
  /\ (forall other, other <> name ->
        JSObject.get other (servers (addServer m cfg)) = JSObject.get other (servers m)).
Proof.
  intros name.
  assert (Hin : name <> "__proto__" -> ~ In "."%char (list_ascii_of_string name) ->
                forall pc tl,
                  findTool_in pc (addServer m cfg) (name ++ String "." tl)
                  = Ret match beyond_entry pc with
                        | Some ts =>
                            option_map (pair name)
                              (find (fun t => String.eqb (ToolDefinition.name t) tl) ts)
                        | None => None
                        end).
  { intros Hp Hdot pc tl. rewrite findTool_in_dotted by assumption.
    unfold addServer. cbn [servers]. fold name.
    rewrite get_assign by assumption. rewrite String.eqb_refl.
    unfold entry_tools. cbn [tools]. reflexivity. }
  split; [| split; [exact Hin | split]].
  - intros Hp. unfold addServer, getServer. cbn [servers]. fold name.
    rewrite get_assign by assumption. rewrite String.eqb_refl. reflexivity.
  - intros Hp Hdot tl. rewrite (Hin Hp Hdot). reflexivity.
  - intros other Hne. unfold addServer. cbn [servers]. fold name.
    apply get_assign_other. exact Hne.
Qed.

(** X15.  [removeServer].  Afterwards the manifest has no entry under the
    name and the entries under other names are as before.  The call returns
    [true] exactly when the read [servers[name]] was not [undefined], which
    includes the names of the members of [Object.prototype]: for such a
    name that is no server the call returns [true] and removes nothing.
    When the manifest has no entry under the name it is left as it is. *)
Theorem removeServer_effect (m : GolemManifest) (name : string) :
  let after := fst (removeServer m name) in
  JSObject.get name (servers after) = None
  /\ (forall other, other <> name ->
        JSObject.get other (servers after) = JSObject.get other (servers m))
  /\ (snd (removeServer m name) = true <-> getServer m name <> Undefined)
  /\ (JSObject.get name (servers m) = None -> after = m).
Proof.
  intros after. subst after. unfold removeServer, getServer, JSObject.has_property.
  destruct (JSObject.get name (servers m)) as [entry |] eqn:E.
  - cbn [fst snd servers]. split; [apply get_delete_same |].
    split; [intros other Hne; apply get_delete_other; exact Hne |].
    split; [split; [discriminate | reflexivity] | discriminate].
  - destruct (JSObject.inherited name); cbn [fst snd servers].
    + rewrite delete_absent by assumption.
      split; [exact E |]. split; [reflexivity |].
      split; [split; [discriminate | reflexivity] |].
      intros _. destruct m; reflexivity.
    + split; [exact E |]. split; [reflexivity |].
      split; [split; [discriminate | intros H; contradiction H; reflexivity] | reflexivity].
Qed.

Lemma map_throwing_Forall2 {A B} (f : A -> outcome B) (l : list A) (out : list B) :
  map_throwing f l = Ret out -> Forall2 (fun x y => f x = Ret y) l out.
Proof.
  revert out. induction l as [| x l IH]; intros out; simpl.
  - intros [= <-]. constructor.
  - destruct (f x) as [y | text] eqn:Ex; [| discriminate].
    destruct (map_throwing f l) as [ys | text]; [| discriminate].
    intros [= <-]. constructor; [exact Ex | apply IH; reflexivity].
Qed.

Lemma with_defaults_returns (items : list Json.value) :
  (exists out, map_throwing with_defaults items = Ret out) <-> ~ In Json.JNull items.
Proof.
  induction items as [| s items IH]; simpl.
  - split; [intros _ [] | intros _; eexists; reflexivity].
  - split.
    + intros [out H] [-> | Hin].
      * simpl in H. discriminate.
      * destruct (with_defaults s); [| discriminate].
        destruct (map_throwing with_defaults items) as [ys |] eqn:E; [| discriminate].
        apply IH; [exists ys; reflexivity | exact Hin].
    + intros Hno.
      assert (Hs : exists d, with_defaults s = Ret d).
      { destruct s; try (eexists; reflexivity). exfalso. apply Hno. left; reflexivity. }
      destruct Hs as [d ->].
      destruct IH as [_ IH]. destruct IH as [ys ->]; [| eexists; reflexivity].
      intros Hin. apply Hno. right; exact Hin.
Qed.

(** X16.  [loadServerConfigs] on a file whose text parses.  The call
    returns exactly when the parsed value has an own member [servers] that
    is an array without [null] elements.  It then returns one
    object per element, in order.  In each object [transport] is the
    element's [transport] unless that is missing or [null], when it is
    [stdio], and [autoStart] is the element's [autoStart] unless that is
    missing or [null], when it is [true]; so an explicit [false] is kept.
    Every other member is the element's own. *)
Theorem loadServerConfigs_defaults (JSON_parse : string -> option Json.value)
  (configPath raw : string) (parsed : Json.value) :
  JSON_parse raw = Some parsed ->
  ((exists out, loadServerConfigs JSON_parse configPath (File raw) = Ret out)
   <-> exists items,
         own_member parsed "servers" = Some (Json.JArray items) /\ ~ In Json.JNull items)
  /\ forall items out,
       own_member parsed "servers" = Some (Json.JArray items) ->
       loadServerConfigs JSON_parse configPath (File raw) = Ret out ->
       Forall2
         (fun s d =>
            exists o,
              d = Json.JObject o
              /\ JSObject.get "transport" o
                 = Some (nullish_default (own_member s "transport") (Json.JString "stdio"))
              /\ JSObject.get "autoStart" o
                 = Some (nullish_default (own_member s "autoStart") (Json.JBool true))
              /\ forall k, k <> "transport" -> k <> "autoStart" ->
                   JSObject.get k o = JSObject.get k (spread_value s))
         items out.
Proof.
  intros Hparse.
  assert (Hload : forall items,
            own_member parsed "servers" = Some (Json.JArray items) ->
            loadServerConfigs JSON_parse configPath (File raw)
            = map_throwing with_defaults items).
  { intros items Hs. unfold loadServerConfigs. rewrite Hparse.
    destruct parsed; try discriminate Hs; rewrite Hs; reflexivity. }
  split.
  - split.
    + intros [out H]. unfold loadServerConfigs in H. rewrite Hparse in H.
      assert (Hmem : exists items, own_member parsed "servers" = Some (Json.JArray items)).
      { destruct parsed; try discriminate H;
          (destruct (own_member _ "servers") as [[] |] eqn:E; try discriminate H;
           eexists; reflexivity). }
      destruct Hmem as [items Hmem]. exists items. split; [exact Hmem |].
      apply with_defaults_returns. exists out. rewrite <- (Hload items Hmem).
      unfold loadServerConfigs. rewrite Hparse. exact H.
    + intros [items [Hmem Hno]]. rewrite (Hload items Hmem).
      apply with_defaults_returns. exact Hno.
  - intros items out Hmem H. rewrite (Hload items Hmem) in H.
    apply map_throwing_Forall2 in H.
    eapply Forall2_impl; [| exact H]. intros s d Hd. cbv beta in Hd.
    unfold with_defaults in Hd.
    assert (Hobj :
      d = Json.JObject
            (JSObject.define "autoStart"
               (nullish_default (own_member s "autoStart") (Json.JBool true))
               (JSObject.define "transport"
                  (nullish_default (own_member s "transport") (Json.JString "stdio"))
                  (spread_value s))))
      by (destruct s; try discriminate Hd; injection Hd as <-; reflexivity).
    eexists. split; [exact Hobj |]. split; [| split].
    + rewrite get_define_other by discriminate. apply get_define_same.
    + apply get_define_same.
    + intros k Ht Ha. rewrite !get_define_other by assumption. reflexivity.
Qed.

Lemma loadServerConfigs_defaults_witness :
  let parsed :=
    Json.JObject
      [("servers",
        Json.JArray [Json.JObject [("name", Json.JString "a");
                                   ("autoStart", Json.JBool false)];
                     Json.JObject [("name", Json.JString "b");
                                   ("transport", Json.JNull)]])] in
  exists out, loadServerConfigs (fun _ => Some parsed) "servers.json" (File "{}") = Ret out.
Proof.
  intros parsed.
  destruct (loadServerConfigs_defaults (fun _ => Some parsed) "servers.json" "{}" parsed
              eq_refl) as [[_ H] _].
  apply H. eexists. split; [reflexivity |].
  simpl. intuition discriminate.
Defined.

End Manifest.

(** ** MCPProtocol: settlement of requests *)

Section Settlement.
Import MCPProtocol.

Local Abbreviation zget' := (JSMap.get Z.eqb).

Lemma settle_settled (i j : Z) (o o' : promise) (ps : list (Z * promise)) :
  zget' i ps = Some o -> o <> Pending -> zget' i (settle j o' ps) = Some o.
Proof.
  intros H Ho. destruct (Z.eq_dec i j) as [-> | Hne].
  - unfold settle. rewrite H. destruct o; [contradiction Ho; reflexivity | exact H ..].
  - rewrite settle_other by assumption. exact H.
Qed.

Lemma reject_all_settled (e0 : js_error) (i : Z) (o : promise) (entries : list (Z * string))
  (ps : list (Z * promise)) :
  zget' i ps = Some o -> o <> Pending ->
  zget' i (fst (reject_all e0 entries ps)) = Some o.
Proof.
  revert ps. induction entries as [| [j m] r IH]; intros ps H Ho; simpl; [exact H |].
  specialize (IH (settle j (Rejected e0) ps) (settle_settled _ _ _ _ _ H Ho) Ho).
  destruct (reject_all e0 r (settle j (Rejected e0) ps)). exact IH.
Qed.

Lemma settle_none (i j : Z) (o : promise) (ps : list (Z * promise)) :
  zget' i ps = None -> zget' i (settle j o ps) = None.
Proof.
  intros H. destruct (Z.eq_dec i j) as [-> | Hne].
  - unfold settle. rewrite H. exact H.
  - rewrite settle_other by assumption. exact H.
Qed.

Lemma reject_all_none (e0 : js_error) (i : Z) (entries : list (Z * string))
  (ps : list (Z * promise)) :
  zget' i ps = None -> zget' i (fst (reject_all e0 entries ps)) = None.
Proof.
  revert ps. induction entries as [| [j m] r IH]; intros ps H; simpl; [exact H |].
  specialize (IH (settle j (Rejected e0) ps) (settle_none _ _ _ _ H)).
  destruct (reject_all e0 r (settle j (Rejected e0) ps)). exact IH.
Qed.

(** The sweep rejects every pending request whose promise is unsettled. *)
Lemma reject_all_pending (e0 : js_error) (i : Z) (m : string) (entries : list (Z * string))
  (ps : list (Z * promise)) :
  zget' i entries = Some m -> zget' i ps = Some Pending ->
  zget' i (fst (reject_all e0 entries ps)) = Some (Rejected e0).
Proof.
  revert ps. induction entries as [| [j mj] r IH]; intros ps Hin Hp; [discriminate Hin |].
  cbn [JSMap.get] in Hin. cbn [reject_all].
  destruct (Z.eqb_spec i j) as [-> | Hne].
  - pose proof (reject_all_settled e0 j (Rejected e0) r (settle j (Rejected e0) ps)
                  (settle_pending _ _ _ Hp) ltac:(discriminate)) as H.
    destruct (reject_all e0 r (settle j (Rejected e0) ps)). exact H.
  - specialize (IH (settle j (Rejected e0) ps) Hin).
    rewrite settle_other in IH by assumption. specialize (IH Hp).
    destruct (reject_all e0 r (settle j (Rejected e0) ps)). exact IH.
Qed.

Lemma answered_step (id : Z) (o : promise) (p : t) (ev : event) :
  answered id o p -> answered id o (fst (step p ev)).
Proof.
  intros [Hlt [Hpend [Htimer [Hprom Ho]]]].
  assert (Hdel : forall j o',
    answered id o {| nextId := nextId p; pending := JSMap.delete Z.eqb j (pending p);
                     initialized := initialized p; timeout := timeout p;
                     timers := JSMap.delete Z.eqb j (timers p); sending := sending p;
                     promises := settle j o' (promises p) |}).
  { intros j o'. unfold answered, promise_of.
    cbn [nextId pending timers promises]. rewrite !zget_delete, Hpend, Htimer.
    repeat split; try (destruct (id =? j); reflexivity); [exact Hlt | | exact Ho].
    apply settle_settled; assumption. }
  assert (Hall : forall e0,
    answered id o {| nextId := nextId p; pending := []; initialized := false;
                     timeout := timeout p; timers := []; sending := sending p;
                     promises := fst (reject_all e0 (pending p) (promises p)) |}).
  { intros e0. unfold answered, promise_of. cbn [nextId pending timers promises].
    repeat split; [exact Hlt | | exact Ho].
    apply reject_all_settled; assumption. }
  assert (Hsame : answered id o p) by (repeat split; assumption).
  destruct ev as [m ps | m ps | | j | j f | msg | code |]; cbn [step].
  - unfold request, answered, promise_of. cbn [fst nextId pending timers promises].
    rewrite !zget_set. destruct (Z.eqb_spec id (nextId p)); [lia |].
    repeat split; [lia | assumption ..].
  - exact Hsame.
  - exact Hsame.
  - unfold on_timeout. destruct (zget' j (timers p)); [apply Hdel | exact Hsame].
  - unfold on_send_settled. destruct (existsb (Z.eqb j) (sending p)); [| exact Hsame].
    destruct f as [err |]; [exact (Hdel j (Rejected err)) | exact Hsame].
  - assert (Hresp : forall rid result error,
               answered id o (fst (handle_response p rid result error))).
    { intros rid result error. unfold handle_response.
      destruct rid as [n | s0]; [| exact Hsame].
      destruct (zget' n (pending p)); [apply Hdel | exact Hsame]. }
    destruct msg; cbn [handleMessage fst]; try apply Hresp; exact Hsame.
  - unfold handleClose.
    specialize (Hall (Error ("Transport closed with code " ++ code_text code))).
    destruct (reject_all _ _ _). exact Hall.
  - unfold shutdown_sweep. specialize (Hall (Error "Protocol shutting down")).
    destruct (reject_all _ _ _). exact Hall.
Qed.

Lemma answered_run (id : Z) (o : promise) (evs : list event) (p : t) :
  answered id o p -> answered id o (fst (run p evs)).
Proof.
  intros H. induction evs as [| ev evs IH] using rev_ind; [exact H |].
  rewrite run_app_fst. apply answered_step. exact IH.
Qed.

(** A settled request ignores its timer and every response. *)
Lemma answered_inert (id : Z) (o : promise) (p : t) :
  answered id o p ->
  step p (TimerFires id) = (p, [])
  /\ forall result error, step p (Receives (Response (IdNumber id) result error)) = (p, []).
Proof.
  intros [_ [Hpend [Htimer _]]]. split.
  - cbn [step]. unfold on_timeout. rewrite Htimer. reflexivity.
  - intros result error. cbn [step handleMessage]. unfold handle_response.
    rewrite Hpend. reflexivity.
Qed.

Lemma ids_below_counter_step (p : t) (ev : event) :
  ids_below_counter p -> ids_below_counter (fst (step p ev)).
Proof.
  intros Hinv.
  assert (Hdel : forall j o',
    ids_below_counter
      {| nextId := nextId p; pending := JSMap.delete Z.eqb j (pending p);
         initialized := initialized p; timeout := timeout p;
         timers := JSMap.delete Z.eqb j (timers p); sending := sending p;
         promises := settle j o' (promises p) |}).
  { intros j o' id Hid. unfold promise_of. cbn [nextId promises] in *.
    apply settle_none. apply Hinv. exact Hid. }
  assert (Hall : forall e0,
    ids_below_counter
      {| nextId := nextId p; pending := []; initialized := false;
         timeout := timeout p; timers := []; sending := sending p;
         promises := fst (reject_all e0 (pending p) (promises p)) |}).
  { intros e0 id Hid. unfold promise_of. cbn [nextId promises] in *.
    apply reject_all_none. apply Hinv. exact Hid. }
  destruct ev as [m ps | m ps | | j | j f | msg | code |]; cbn [step].
  - unfold request. intros id Hid. unfold promise_of. cbn [fst nextId promises] in *.
    rewrite zget_set. destruct (Z.eqb_spec id (nextId p)); [lia |].
    apply Hinv. lia.
  - exact Hinv.
  - exact Hinv.
  - unfold on_timeout. destruct (zget' j (timers p)); [apply Hdel | exact Hinv].
  - unfold on_send_settled. destruct (existsb (Z.eqb j) (sending p)); [| exact Hinv].
    destruct f as [err |]; [exact (Hdel j (Rejected err)) | exact Hinv].
  - assert (Hresp : forall rid result error,
               ids_below_counter (fst (handle_response p rid result error))).
    { intros rid result error. unfold handle_response.
      destruct rid as [n | s0]; [| exact Hinv].
      destruct (zget' n (pending p)); [apply Hdel | exact Hinv]. }
    destruct msg; cbn [handleMessage fst]; try apply Hresp; exact Hinv.
  - unfold handleClose.
    specialize (Hall (Error ("Transport closed with code " ++ code_text code))).
    destruct (reject_all _ _ _). exact Hall.
  - unfold shutdown_sweep. specialize (Hall (Error "Protocol shutting down")).
    destruct (reject_all _ _ _). exact Hall.
Qed.

Lemma nextId_step (p : t) (ev : event) :
  nextId (fst (step p ev))
  = nextId p + match ev with CallRequest _ _ => 1 | _ => 0 end.
Proof.
  destruct ev as [m ps | m ps | | j | j f | msg | code |]; cbn [step].
  - reflexivity.
  - cbn [notify fst]. lia.
  - cbn [mark_initialized fst nextId]. lia.
  - unfold on_timeout. destruct (zget' j (timers p)); cbn [fst nextId]; lia.
  - unfold on_send_settled. destruct (existsb (Z.eqb j) (sending p)); [| cbn [fst]; lia].
    destruct f; cbn [fst nextId]; lia.
  - assert (Hresp : forall rid result error,
               nextId (fst (handle_response p rid result error)) = nextId p + 0).
    { intros rid result error. unfold handle_response.
      destruct rid as [n | s0]; [| cbn [fst]; lia].
      destruct (zget' n (pending p)); cbn [fst nextId]; lia. }
    destruct msg; cbn [handleMessage]; try apply Hresp; cbn [fst]; lia.
  - unfold handleClose. destruct (reject_all _ _ _). cbn [fst nextId]. lia.
  - unfold shutdown_sweep. destruct (reject_all _ _ _). cbn [fst nextId]. lia.
Qed.

End Settlement.

Section Requests.
Import MCPProtocol.

(** X17.  A response settles its request, once.  Take any engine reached
    from construction and a request [id] that is pending there when a
    response with that id arrives.  The pending entry is removed, the timer
    cleared, and the promise, which was unsettled, is resolved with the
    result, or rejected with an [MCPError] when the response carries an
    error.  Whatever happens afterwards the promise keeps that outcome; the
    timer of the request and any further response with its id do
    nothing. *)
Theorem response_settles_request
  (tmo : option Z) (before after : list event) (id : Z) (method : string)
  (result : option Json.value) (error : option JsonRpcError) :
  let p1 := fst (run (new tmo) before) in
  JSMap.get Z.eqb id (pending p1) = Some method ->
  let outcome := match error with
                 | Some e => Rejected (MCPError e)
                 | None => Fulfilled result
                 end in
  let response := Receives (Response (IdNumber id) result error) in
  let p2 := fst (step p1 response) in
  let p3 := fst (run p2 after) in
  promise_of p1 id = Some Pending
  /\ snd (step p1 response)
     = [PendingDelete id; ClearTimeout id;
        match error with
        | Some e => Reject id (MCPError e)
        | None => Resolve id result
        end]
  /\ promise_of p2 id = Some outcome
  /\ promise_of p3 id = Some outcome
  /\ step p3 (TimerFires id) = (p3, [])
  /\ (forall result' error',
        step p3 (Receives (Response (IdNumber id) result' error')) = (p3, [])).
Proof.
  intros p1 Hpending outcome response p2 p3.
  destruct (engine_inv_run tmo before id method Hpending) as [Htimer [Hprom Hlt]].
  fold p1 in Htimer, Hprom, Hlt.
  assert (Hans : answered id outcome p2).
  { unfold p2, response. cbn [step handleMessage]. unfold handle_response.
    rewrite Hpending. cbn [fst]. unfold answered, promise_of.
    cbn [nextId pending timers promises].
    rewrite !zget_delete, Z.eqb_refl. repeat split; [exact Hlt | |].
    - apply settle_pending. exact Hprom.
    - unfold outcome. destruct error; discriminate. }
  pose proof (answered_run id outcome after p2 Hans) as Hans3. fold p3 in Hans3.
  destruct (answered_inert id outcome p3 Hans3) as [Htimer3 Hresp3].
  split; [exact Hprom |].
  split.
  { unfold response. cbn [step handleMessage]. unfold handle_response.
    rewrite Hpending. reflexivity. }
  split; [apply Hans |]. split; [apply Hans3 |].
  split; [exact Htimer3 | exact Hresp3].
Qed.

Lemma response_settles_request_witness :
  let p3 := fst (run (new None)
                   [CallRequest "tools/list" None;
                    Receives (Response (IdNumber 1) (Some Json.JNull) None);
                    TimerFires 1]) in
  promise_of p3 1 = Some (Fulfilled (Some Json.JNull)).
Proof.
  intros p3.
  pose proof (response_settles_request None [CallRequest "tools/list" None] [TimerFires 1]
                1 "tools/list" (Some Json.JNull) None eq_refl) as [_ [_ [_ [H _]]]].
  exact H.
Defined.

Lemma reject_all_calls_reject (e0 : js_error) (i : Z) (m : string)
  (entries : list (Z * string)) (ps : list (Z * promise)) :
  JSMap.get Z.eqb i entries = Some m -> In (Reject i e0) (snd (reject_all e0 entries ps)).
Proof.
  revert ps. induction entries as [| [j mj] r IH]; intros ps Hp; [discriminate Hp |].
  cbn [JSMap.get] in Hp. cbn [reject_all].
  destruct (reject_all e0 r (settle j (Rejected e0) ps)) as [ps' effs] eqn:E.
  cbn [snd]. destruct (Z.eqb_spec i j) as [-> | Hne].
  - right. left. reflexivity.
  - right. right. right. specialize (IH (settle j (Rejected e0) ps) Hp).
    rewrite E in IH. exact IH.
Qed.

(** X18.  Closing the transport, and the sweep that ends [shutdown()],
    reject every pending request.  For any engine reached from construction
    and any request pending there, after the close its promise is rejected
    with the error that names the exit code, after the sweep with
    [Protocol shutting down]; no request is pending and no timer armed any
    longer, the engine is not initialized, and the promise keeps its
    rejection whatever happens afterwards. *)
Theorem close_rejects_pending_requests
  (tmo : option Z) (before after : list event) (id : Z) (method : string)
  (code : option Z) :
  let p1 := fst (run (new tmo) before) in
  JSMap.get Z.eqb id (pending p1) = Some method ->
  let closed := fst (step p1 (TransportCloses code)) in
  let swept := fst (step p1 ShutdownSweep) in
  let e := Error ("Transport closed with code " ++ code_text code) in
  promise_of closed id = Some (Rejected e)
  /\ promise_of (fst (run closed after)) id = Some (Rejected e)
  /\ pending closed = [] /\ timers closed = [] /\ initialized closed = false
  /\ In (Reject id e) (snd (step p1 (TransportCloses code)))
  /\ last (snd (step p1 (TransportCloses code))) (EmitClose None) = EmitClose code
  /\ promise_of swept id = Some (Rejected (Error "Protocol shutting down"))
  /\ promise_of (fst (run swept after)) id = Some (Rejected (Error "Protocol shutting down"))
  /\ pending swept = [] /\ timers swept = [] /\ initialized swept = false.
Proof.
  intros p1 Hpending closed swept e.
  destruct (engine_inv_run tmo before id method Hpending) as [Htimer [Hprom Hlt]].
  fold p1 in Htimer, Hprom, Hlt. unfold promise_of in Hprom.
  assert (Hsweep : forall e0,
            JSMap.get Z.eqb id (fst (reject_all e0 (pending p1) (promises p1)))
            = Some (Rejected e0))
    by (intros e0; exact (reject_all_pending e0 id method _ _ Hpending Hprom)).
  assert (Hin : forall e0, In (Reject id e0) (snd (reject_all e0 (pending p1) (promises p1))))
    by (intros e0; exact (reject_all_calls_reject e0 id method _ _ Hpending)).
  assert (Hclosed : answered id (Rejected e) closed).
  { unfold closed, e. cbn [step]. unfold handleClose.
    specialize (Hsweep (Error ("Transport closed with code " ++ code_text code))).
    destruct (reject_all _ (pending p1) (promises p1)) as [ps effs].
    cbn [fst] in *. unfold answered, promise_of. cbn [nextId pending timers promises].
    repeat split; [exact Hlt | exact Hsweep | discriminate]. }
  assert (Hswept : answered id (Rejected (Error "Protocol shutting down")) swept).
  { unfold swept. cbn [step]. unfold shutdown_sweep.
    specialize (Hsweep (Error "Protocol shutting down")).
    destruct (reject_all _ (pending p1) (promises p1)) as [ps effs].
    cbn [fst] in *. unfold answered, promise_of. cbn [nextId pending timers promises].
    repeat split; [exact Hlt | exact Hsweep | discriminate]. }
  split; [apply Hclosed |].
  split; [apply (answered_run id _ after closed Hclosed) |].
  assert (Hshape : pending closed = [] /\ timers closed = [] /\ initialized closed = false
                   /\ pending swept = [] /\ timers swept = []
                   /\ initialized swept = false).
  { unfold closed, swept. cbn [step]. unfold handleClose, shutdown_sweep.
    destruct (reject_all _ (pending p1) (promises p1)).
    destruct (reject_all _ (pending p1) (promises p1)).
    repeat split. }
  destruct Hshape as [S1 [S2 [S3 [S4 [S5 S6]]]]].
  split; [exact S1 |]. split; [exact S2 |]. split; [exact S3 |].
  split.
  { cbn [step]. unfold handleClose. specialize (Hin e). unfold e in *.
    destruct (reject_all _ (pending p1) (promises p1)) as [ps effs].
    cbn [snd] in *. apply in_or_app. left. exact Hin. }
  split.
  { cbn [step]. unfold handleClose.
    destruct (reject_all _ (pending p1) (promises p1)) as [ps effs].
    cbn [snd]. apply last_last. }
  split; [apply Hswept |].
  split; [apply (answered_run id _ after swept Hswept) |].
  split; [exact S4 |]. split; [exact S5 | exact S6].
Qed.

Lemma close_rejects_pending_requests_witness :
  let closed := fst (run (new None)
                       [CallRequest "a" None; CallRequest "b" None;
                        TransportCloses (Some 1)]) in
  promise_of closed 2 = Some (Rejected (Error "Transport closed with code 1")).
Proof.
  intros closed.
  pose proof (close_rejects_pending_requests None
                [CallRequest "a" None; CallRequest "b" None] [] 2 "b" (Some 1) eq_refl)
    as [H _].
  exact H.
Defined.

(** X19.  Request ids.  In an engine reached from construction by any
    events, the next id is one more than the number of [request] calls so
    far, and no promise exists for that id or a larger one.  A call of
    [request] therefore takes an id never used before, arms its timer,
    registers it as pending, sends the request with that numeric id and
    leaves the promises of all other requests as they are. *)
Theorem request_ids_are_fresh (tmo : option Z) (evs : list event)
  (method : string) (params : option (JSObject.t Json.value)) :
  let p := fst (run (new tmo) evs) in
  let p' := fst (step p (CallRequest method params)) in
  nextId p = 1 + Z.of_nat (requests_made evs)
  /\ (forall id, nextId p <= id -> promise_of p id = None)
  /\ snd (step p (CallRequest method params))
     = [SetTimeout (nextId p); PendingSet (nextId p);
        Send (Request (IdNumber (nextId p)) method params)]
  /\ promise_of p' (nextId p) = Some Pending
  /\ JSMap.get Z.eqb (nextId p) (pending p') = Some method
  /\ (forall id, id <> nextId p -> promise_of p' id = promise_of p id).
Proof.
  intros p p'.
  assert (Hcount : nextId p = 1 + Z.of_nat (requests_made evs)).
  { unfold p. clear p' p. induction evs as [| ev evs IH] using rev_ind; [reflexivity |].
    rewrite run_app_fst, nextId_step, IH. unfold requests_made.
    rewrite filter_app, length_app. cbn [filter].
    destruct ev; cbn [List.length]; lia. }
  assert (Hbelow : ids_below_counter p).
  { unfold p. clear Hcount p' p. induction evs as [| ev evs IH] using rev_ind.
    - intros id _. reflexivity.
    - rewrite run_app_fst. apply ids_below_counter_step. exact IH. }
  split; [exact Hcount |]. split; [exact Hbelow |].
  split; [reflexivity |].
  unfold p'. cbn [step]. unfold request, promise_of. cbn [fst promises pending].
  rewrite !zget_set, Z.eqb_refl. split; [reflexivity |]. split; [reflexivity |].
  intros id Hne. rewrite zget_set.
  destruct (Z.eqb_spec id (nextId p)); [contradiction | reflexivity].
Qed.

End Requests.

(** ** ServerManager: the managed set between calls *)

Section ManagedSet.
Import ServerManager.

Lemma keys_set {V : Type} (k : string) (v : V) (m : Datatypes.list (string * V)) :
  JSMap.keys (JSMap.set String.eqb k v m)
  = match JSMap.get String.eqb k m with
    | Some _ => JSMap.keys m
    | None => (JSMap.keys m ++ [k])%list
    end.
Proof.
  unfold JSMap.keys. induction m as [| [k' v'] r IH]; simpl; [reflexivity |].
  destruct (String.eqb k k'); simpl; [reflexivity |].
  rewrite IH. destruct (JSMap.get String.eqb k r); reflexivity.
Qed.

Lemma NoDup_keys_set {V : Type} (k : string) (v : V) (m : Datatypes.list (string * V)) :
  NoDup (JSMap.keys m) -> NoDup (JSMap.keys (JSMap.set String.eqb k v m)).
Proof.
  intros Hnd. rewrite keys_set. destruct (JSMap.get String.eqb k m) eqn:E; [exact Hnd |].
  eapply Permutation_NoDup; [apply Permutation_cons_append |].
  constructor; [| exact Hnd]. exact (map_get_None String.eqb String.eqb_spec _ _ E).
Qed.

Lemma quiet_set (m : t) (k : string) (ms : ManagedServer) :
  manager_quiet m ->
  ServerConfig.name (config ms) = k ->
  ServerState.status (state ms) = ServerStatus.running
  \/ ServerState.status (state ms) = ServerStatus.stopped ->
  forall e next d,
  manager_quiet {| servers := JSMap.set String.eqb k ms (servers m); emitted := e;
                   nextClient := next; disconnected := d |}.
Proof.
  intros [Hnd Hst] Hcfg Hms e next d. split; cbn [servers].
  - apply NoDup_keys_set. exact Hnd.
  - intros k' ms' Hin.
    destruct (map_In_set String.eqb String.eqb_spec _ _ _ _ Hin) as [[= -> ->] | Hold];
      [split; [exact Hcfg | exact Hms] | exact (Hst _ _ Hold)].
Qed.

Lemma quiet_delete (m : t) (k : string) :
  manager_quiet m ->
  forall e next d,
  manager_quiet {| servers := JSMap.delete String.eqb k (servers m); emitted := e;
                   nextClient := next; disconnected := d |}.
Proof.
  intros [Hnd Hst] e next d. split; cbn [servers].
  - apply (map_delete_NoDup String.eqb String.eqb_spec fst). exact Hnd.
  - intros k' ms' Hin.
    destruct (map_In_delete String.eqb String.eqb_spec _ _ _ Hin) as [Hold _].
    exact (Hst _ _ Hold).
Qed.

Lemma quiet_stopInternal (m : t) (name : string) :
  manager_quiet m -> manager_quiet (stopInternal m name).
Proof.
  intros Hq. unfold stopInternal.
  destruct (JSMap.get String.eqb name (servers m)); [| exact Hq].
  apply quiet_delete. exact Hq.
Qed.

Lemma quiet_start_fresh (m : t) (cfg : ServerConfig.t) (env : connect_result) :
  manager_quiet m -> manager_quiet (fst (start_fresh m cfg env)).
Proof.
  intros Hq. pose proof (start_fresh_servers m cfg env) as Hs.
  destruct (fst (start_fresh m cfg env)) as [sv em nx dc]. cbn [servers] in Hs. subst sv.
  destruct env as [caps info now listed | text].
  - apply quiet_set; [exact Hq | reflexivity | left; reflexivity].
  - apply quiet_delete. exact Hq.
Qed.

Lemma quiet_start (m : t) (cfg : ServerConfig.t) (env : connect_result) :
  manager_quiet m -> manager_quiet (fst (start m cfg env)).
Proof.
  intros Hq. unfold start.
  destruct (JSMap.get String.eqb (ServerConfig.name cfg) (servers m)) as [existing |].
  - destruct (is_running existing); [exact Hq |].
    apply quiet_start_fresh, quiet_stopInternal, Hq.
  - apply quiet_start_fresh, Hq.
Qed.

Lemma quiet_startAll_fold (configs : Datatypes.list (ServerConfig.t * connect_result))
  (acc : t * Datatypes.list (string * ServerState.t)) :
  manager_quiet (fst acc) -> manager_quiet (fst (fold_left startAll_step configs acc)).
Proof.
  revert acc. induction configs as [| [cfg env] rest IH]; intros [m results] Hq; [exact Hq |].
  cbn [fold_left]. apply IH. unfold startAll_step. cbn [fst] in Hq.
  destruct (ServerConfig.autoStart cfg) as [[|] |].
  - pose proof (quiet_start m cfg env Hq) as H.
    destruct (start m cfg env) as [m' [st | text]]; exact H.
  - cbn [fst]. apply quiet_set; [exact Hq | reflexivity | right; reflexivity].
  - pose proof (quiet_start m cfg env Hq) as H.
    destruct (start m cfg env) as [m' [st | text]]; exact H.
Qed.

Lemma reachable_quiet (m : t) : reachable m -> manager_quiet m.
Proof.
  induction 1 as [| m cfg env _ IH | m name _ IH | m configs _ IH].
  - split; [constructor | intros k ms []].
  - apply quiet_start, IH.
  - apply quiet_stopInternal, IH.
  - unfold startAll. apply quiet_startAll_fold. exact IH.
Qed.

Lemma reachable_stopAll_fold (names : Datatypes.list string) (m : t) :
  reachable m -> reachable (fold_left stopInternal names m).
Proof.
  revert m. induction names as [| n names IH]; intros m H; [exact H |].
  cbn [fold_left]. apply IH, reach_stop, H.
Qed.

Lemma keys_of_wf (m : t) :
  manager_wf m -> map ServerState.name (list m) = JSMap.keys (servers m).
Proof.
  intros [Hnames _]. unfold list, JSMap.values, JSMap.keys. rewrite !map_map.
  apply map_ext_in. intros [k ms] Hin. cbn [fst snd]. apply (Hnames _ _ Hin).
Qed.

Lemma get_of_In {V : Type} (k : string) (v : V) (m : Datatypes.list (string * V)) :
  NoDup (JSMap.keys m) -> In (k, v) m -> JSMap.get String.eqb k m = Some v.
Proof.
  unfold JSMap.keys. induction m as [| [k' v'] r IH]; simpl; intros Hnd Hin; [contradiction |].
  inversion Hnd as [| ? ? Hnotin Hnd']; subst.
  destruct Hin as [[= -> ->] | Hin].
  - rewrite String.eqb_refl. reflexivity.
  - destruct (String.eqb_spec k k') as [-> | _]; [| exact (IH Hnd' Hin)].
    exfalso. apply Hnotin. apply (in_map fst) in Hin. exact Hin.
Qed.

(** X20.  The managed set between calls.  The managers that the public
    methods produce are closed under [stop], [restart] and [stopAll], and in
    each of them: [list()] names every server once; no listed state has the
    status [error] or [starting] (a failed start removes its entry, a
    server registered without being started is [stopped]); [get] of a
    listed name returns the listed state; and [getClient] returns a client
    exactly for the names whose status is [running]. *)
Theorem managed_set_between_calls (m : t) :
  reachable m ->
  NoDup (map ServerState.name (list m))
  /\ (forall st, In st (list m) ->
        ServerState.status st = ServerStatus.running
        \/ ServerState.status st = ServerStatus.stopped)
  /\ (forall st, In st (list m) -> get m (ServerState.name st) = Some st)
  /\ (forall name,
        (exists c, getClient m name = Some c)
        <-> option_map ServerState.status (get m name) = Some ServerStatus.running)
  /\ (forall name, reachable (fst (stop m name)))
  /\ (forall name env, reachable (fst (restart m name env)))
  /\ reachable (stopAll m).
Proof.
  intros Hreach.
  pose proof (reachable_wf m Hreach) as Hwf.
  pose proof (reachable_quiet m Hreach) as [Hnd Hst].
  split; [rewrite keys_of_wf by exact Hwf; exact Hnd |].
  split.
  { intros st Hin. destruct (list_names m st Hwf Hin) as [ms [Hms <-]].
    apply (Hst _ _ Hms). }
  split.
  { intros st Hin. destruct (list_names m st Hwf Hin) as [ms [Hms <-]].
    unfold get. rewrite (get_of_In _ _ _ Hnd Hms). reflexivity. }
  split.
  { intros name. unfold getClient, get, is_running.
    destruct (JSMap.get String.eqb name (servers m)) as [ms |]; cbn [option_map].
    - destruct (ServerState.status (state ms)); cbn [ServerStatus.eqb]; split;
        try (intros [c H]; discriminate H); try discriminate; try reflexivity.
      intros _. eexists. reflexivity.
    - split; [intros [c H]; discriminate H | discriminate]. }
  split.
  { intros name. unfold stop. destruct (JSMap.get String.eqb name (servers m));
      cbn [fst]; [apply reach_stop |]; exact Hreach. }
  split.
  { intros name env. unfold restart.
    destruct (JSMap.get String.eqb name (servers m)); cbn [fst]; [| exact Hreach].
    apply reach_start, reach_stop, Hreach. }
  unfold stopAll. apply reachable_stopAll_fold. exact Hreach.
Qed.

Lemma managed_set_between_calls_witness :
  let m := fst (startAll new [(stdio_config "a", connects);
                              (stdio_config "b", ConnectFailed "spawn ENOENT");
                              (manual_config "c", connects)]) in
  map ServerState.name (list m) = ["a"; "c"]
  /\ NoDup (map ServerState.name (list m)).
Proof.
  intros m. split; [reflexivity |].
  apply (managed_set_between_calls m). apply reach_startAll, reach_new.
Defined.

End ManagedSet.

(** ** ServerManager: [stop], [stopAll], [start], [restart] *)

Section Lifecycle.
Import ServerManager.

Lemma map_delete_absent {V : Type} (k : string) (m : Datatypes.list (string * V)) :
  ~ In k (JSMap.keys m) -> JSMap.delete String.eqb k m = m.
Proof.
  unfold JSMap.keys. induction m as [| [k' v'] r IH]; simpl; intros H; [reflexivity |].
  destruct (String.eqb_spec k k') as [-> | _].
  - exfalso. apply H. left; reflexivity.
  - rewrite IH; [reflexivity |]. intros Hin. apply H. right; exact Hin.
Qed.

Lemma stopInternal_known (m : t) (name : string) (ms : ManagedServer) :
  JSMap.get String.eqb name (servers m) = Some ms ->
  stopInternal m name
  = {| servers := JSMap.delete String.eqb name (servers m);
       emitted := (emitted m ++ [(name, stopped_state (state ms))])%list;
       nextClient := nextClient m;
       disconnected := (disconnected m ++ [client ms])%list |}.
Proof. intros H. unfold stopInternal. rewrite H. reflexivity. Qed.

(** X21.  [stop].  For a name that is not managed the call throws
    [Server "name" not found] and changes nothing.  For a managed name it
    returns; the server is then no longer managed, the other servers are as
    before, the server's client is disconnected, and one state change is
    emitted: the server's state with status [stopped] and its capabilities,
    server info, tool count, start time and error cleared. *)
Theorem stop_removes_one_server (m : t) (name : string) :
  match JSMap.get String.eqb name (servers m) with
  | None => stop m name = (m, Throw (not_found name))
  | Some ms =>
      let m' := fst (stop m name) in
      snd (stop m name) = Ret tt
      /\ get m' name = None
      /\ getClient m' name = None
      /\ (forall other, other <> name ->
            get m' other = get m other /\ getClient m' other = getClient m other)
      /\ emitted m' = (emitted m ++ [(name, stopped_state (state ms))])%list
      /\ disconnected m' = (disconnected m ++ [client ms])%list
      /\ nextClient m' = nextClient m
  end.
Proof.
  destruct (JSMap.get String.eqb name (servers m)) as [ms |] eqn:E.
  - intros m'. subst m'. unfold stop. rewrite E. cbn [fst snd].
    rewrite (stopInternal_known m name ms E). unfold get, getClient. cbn [servers].
    split; [reflexivity |].
    rewrite !(map_get_delete String.eqb String.eqb_spec), String.eqb_refl.
    split; [reflexivity |]. split; [reflexivity |].
    split; [| repeat split].
    intros other Hne. rewrite !(map_get_delete String.eqb String.eqb_spec).
    destruct (String.eqb_spec other name); [contradiction | split; reflexivity].
  - unfold stop. rewrite E. reflexivity.
Qed.

Lemma stopAll_fold (l : Datatypes.list (string * ManagedServer)) (m : t) :
  servers m = l -> NoDup (JSMap.keys l) ->
  fold_left stopInternal (JSMap.keys l) m
  = {| servers := [];
       emitted := (emitted m ++ map (fun p => (fst p, stopped_state (state (snd p)))) l)%list;
       nextClient := nextClient m;
       disconnected := (disconnected m ++ map (fun p => client (snd p)) l)%list |}.
Proof.
  revert m. induction l as [| [k ms] r IH]; intros m Hs Hnd.
  - cbn [JSMap.keys map fold_left]. rewrite !app_nil_r. destruct m. cbn in *. subst.
    reflexivity.
  - unfold JSMap.keys in *. cbn [map fst fold_left].
    inversion Hnd as [| ? ? Hnotin Hnd']; subst.
    assert (Hget : JSMap.get String.eqb k (servers m) = Some ms)
      by (rewrite Hs; cbn [JSMap.get]; rewrite String.eqb_refl; reflexivity).
    rewrite (stopInternal_known m k ms Hget).
    rewrite IH; [| | exact Hnd'].
    + cbn [emitted disconnected nextClient map fst snd]. rewrite <- !app_assoc. reflexivity.
    + cbn [servers]. rewrite Hs. cbn [JSMap.delete]. rewrite String.eqb_refl.
      apply map_delete_absent. exact Hnotin.
Qed.

(** X22.  [stopAll].  In a manager produced by the public methods,
    [stopAll] leaves no managed server, calls [disconnect] once on the
    client of every managed server, in the order of the map, allocates no
    client, and emits for every managed server its stopped state. *)
Theorem stopAll_stops_every_server (m : t) :
  reachable m ->
  list (stopAll m) = []
  /\ (forall name, get (stopAll m) name = None /\ getClient (stopAll m) name = None)
  /\ disconnected (stopAll m)
     = (disconnected m ++ map client (JSMap.values (servers m)))%list
  /\ nextClient (stopAll m) = nextClient m
  /\ (forall k ms, In (k, ms) (servers m) ->
        In (k, stopped_state (state ms)) (emitted (stopAll m))).
Proof.
  intros Hreach. destruct (reachable_quiet m Hreach) as [Hnd _].
  unfold stopAll. rewrite (stopAll_fold (servers m) m eq_refl Hnd).
  unfold list, get, getClient. cbn [servers disconnected nextClient emitted].
  split; [reflexivity |]. split; [intros name; split; reflexivity |].
  split; [unfold JSMap.values; rewrite map_map; reflexivity |].
  split; [reflexivity |].
  intros k ms Hin. apply in_or_app. right.
  apply (in_map (fun p => (fst p, stopped_state (state (snd p)))) _ _ Hin).
Qed.

Lemma stopAll_stops_every_server_witness :
  let m := fst (startAll new [(stdio_config "a", connects); (manual_config "b", connects);
                              (stdio_config "c", connects)]) in
  list (stopAll m) = [] /\ disconnected (stopAll m) = [0%N; 1%N; 2%N].
Proof.
  intros m.
  destruct (stopAll_stops_every_server m (reach_startAll _ _ reach_new)) as [H _].
  split; [exact H | reflexivity].
Defined.

(** X23.  A successful [start].  When the name is not that of a running
    server and the connection succeeds, [start] returns a state with status
    [running], the start time, and the number of listed tools, which is 0
    when listing the tools failed.  The server is then managed with that
    state and a client created by this call, the other servers are as
    before, and the last two state changes emitted are [starting] and the
    returned state. *)
Theorem start_connects_server (m : t) (cfg : ServerConfig.t)
  (caps info : option Json.value) (now : string) (listed : option Z) :
  let name := ServerConfig.name cfg in
  getClient m name = None ->
  let after := start m cfg (Connected caps info now listed) in
  let st := {| ServerState.name := name; ServerState.status := ServerStatus.running;
               ServerState.pid := None;
               ServerState.capabilities := caps; ServerState.serverInfo := info;
               ServerState.toolCount := Some match listed with Some n => n | None => 0 end;
               ServerState.startedAt := Some now; ServerState.error := None |} in
  snd after = Ret st
  /\ get (fst after) name = Some st
  /\ getClient (fst after) name = Some (nextClient m)
  /\ nextClient (fst after) = (nextClient m + 1)%N
  /\ (forall other, other <> name -> get (fst after) other = get m other)
  /\ exists earlier,
       emitted (fst after)
       = (earlier ++ [(name, bare_state name ServerStatus.starting); (name, st)])%list.
Proof.
  intros name Hnot after st.
  assert (Hfresh : forall m0,
            nextClient m0 = nextClient m ->
            (forall other, other <> name ->
               JSMap.get String.eqb other (servers m0) = JSMap.get String.eqb other (servers m)) ->
            let r := start_fresh m0 cfg (Connected caps info now listed) in
            snd r = Ret st
            /\ get (fst r) name = Some st
            /\ getClient (fst r) name = Some (nextClient m)
            /\ nextClient (fst r) = (nextClient m + 1)%N
            /\ (forall other, other <> name -> get (fst r) other = get m other)
            /\ exists earlier,
                 emitted (fst r)
                 = (earlier ++ [(name, bare_state name ServerStatus.starting); (name, st)])%list).
  { intros m0 Hnext Hothers r.
    pose proof (start_fresh_servers m0 cfg (Connected caps info now listed)) as Hs.
    fold name in Hs. fold st in Hs. fold r in Hs.
    split; [reflexivity |].
    unfold get, getClient. rewrite Hs.
    rewrite !(map_get_set String.eqb String.eqb_spec), String.eqb_refl.
    cbn [option_map state is_running client]. rewrite Hnext.
    split; [reflexivity |]. split; [reflexivity |].
    split; [unfold r; rewrite start_fresh_nextClient, Hnext; reflexivity |].
    split.
    - intros other Hne. rewrite (map_get_set String.eqb String.eqb_spec).
      destruct (String.eqb_spec other name); [contradiction |].
      rewrite Hothers by assumption. reflexivity.
    - exists (emitted m0). unfold r, start_fresh. cbn [fst emitted].
      rewrite <- app_assoc. reflexivity. }
  unfold after, start. fold name. unfold getClient in Hnot.
  destruct (JSMap.get String.eqb name (servers m)) as [existing |] eqn:E.
  - destruct (is_running existing) eqn:Erun; [discriminate Hnot |].
    apply Hfresh.
    + rewrite (stopInternal_known m name existing E). reflexivity.
    + intros other Hne. rewrite (stopInternal_known m name existing E). cbn [servers].
      rewrite (map_get_delete String.eqb String.eqb_spec).
      destruct (String.eqb_spec other name); [contradiction | reflexivity].
  - apply Hfresh; [reflexivity | intros; reflexivity].
Qed.

Lemma start_connects_server_witness :
  let after := start new (stdio_config "fs") (Connected None None "t0" None) in
  option_map ServerState.toolCount (get (fst after) "fs") = Some (Some 0)
  /\ getClient (fst after) "fs" = Some 0%N.
Proof.
  intros after.
  destruct (start_connects_server new (stdio_config "fs") None None "t0" None eq_refl)
    as [_ [H1 [H2 _]]].
  split; [exact (f_equal (option_map ServerState.toolCount) H1) | exact H2].
Defined.

(** X24.  [restart].  For a name that is not managed the call throws
    [Server "name" not found] and changes nothing.  In a manager produced
    by the public methods, restarting a managed server, running or not,
    with a connection that succeeds never throws [already running]: the old
    client is disconnected, the server is started from the config it was
    managed with, and it is then running with a new client, different from
    the old one. *)
Theorem restart_replaces_client (m : t) (name : string)
  (caps info : option Json.value) (now : string) (listed : option Z) :
  reachable m ->
  match JSMap.get String.eqb name (servers m) with
  | None =>
      restart m name (Connected caps info now listed) = (m, Throw (not_found name))
  | Some ms =>
      let after := restart m name (Connected caps info now listed) in
      (exists st, snd after = Ret st /\ ServerState.status st = ServerStatus.running
                  /\ get (fst after) name = Some st)
      /\ option_map config (JSMap.get String.eqb name (servers (fst after)))
         = Some (config ms)
      /\ getClient (fst after) name = Some (nextClient m)
      /\ client ms <> nextClient m
      /\ disconnected (fst after) = (disconnected m ++ [client ms])%list
  end.
Proof.
  intros Hreach.
  destruct (JSMap.get String.eqb name (servers m)) as [ms |] eqn:E;
    [| unfold restart; rewrite E; reflexivity].
  intros after.
  destruct (reachable_quiet m Hreach) as [_ Hq].
  destruct (reachable_wf m Hreach) as [Hnames _].
  pose proof (map_get_In String.eqb String.eqb_spec _ _ _ E) as Hin.
  destruct (Hq _ _ Hin) as [Hcfg _]. destruct (Hnames _ _ Hin) as [_ Hlt].
  assert (Hafter : after = start_fresh (stopInternal m name) (config ms)
                             (Connected caps info now listed)).
  { unfold after, restart. rewrite E. unfold start. rewrite Hcfg.
    rewrite (stopInternal_known m name ms E). cbn [servers].
    rewrite (map_get_delete String.eqb String.eqb_spec), String.eqb_refl. reflexivity. }
  pose proof (start_fresh_servers (stopInternal m name) (config ms)
                (Connected caps info now listed)) as Hs.
  rewrite <- Hafter in Hs. rewrite Hcfg in Hs.
  assert (Hnext : nextClient (stopInternal m name) = nextClient m)
    by (rewrite (stopInternal_known m name ms E); reflexivity).
  rewrite Hnext in Hs.
  split.
  { eexists. split; [rewrite Hafter; reflexivity |]. split; [reflexivity |].
    unfold get. rewrite Hs, (map_get_set String.eqb String.eqb_spec), String.eqb_refl.
    cbn [option_map state]. rewrite Hcfg. reflexivity. }
  split.
  { rewrite Hs, (map_get_set String.eqb String.eqb_spec), String.eqb_refl. reflexivity. }
  split.
  { unfold getClient.
    rewrite Hs, (map_get_set String.eqb String.eqb_spec), String.eqb_refl. reflexivity. }
  split; [lia |].
  rewrite Hafter, start_fresh_disconnected, (stopInternal_known m name ms E). reflexivity.
Qed.

Lemma restart_replaces_client_witness :
  let m := fst (start new (stdio_config "fs") connects) in
  let after := restart m "fs" (Connected None None "t1" (Some 2)) in
  getClient m "fs" = Some 0%N
  /\ getClient (fst after) "fs" = Some 1%N
  /\ disconnected (fst after) = [0%N].
Proof.
  intros m after.
  pose proof (restart_replaces_client m "fs" None None "t1" (Some 2)
                (reach_start _ _ _ reach_new)) as H.
  cbv beta iota zeta in H. destruct H as [_ [_ [H3 [_ H5]]]].
  split; [reflexivity |]. split; [exact H3 | exact H5].
Defined.

End Lifecycle.

(** ** ToolRouter *)

Section Router.
Import ToolRouter.

Lemma find_named {A : Type} (key : A -> string) (q : string) (l : Datatypes.list A) (x : A) :
  find (fun t => String.eqb (key t) q) l = Some x -> key x = q.
Proof.
  intros H. apply find_some in H. destruct H as [_ H]. apply String.eqb_eq. exact H.
Qed.

Lemma scan_named (q : string)
  (es : Datatypes.list (string * ManifestManager.ServerManifestEntry))
  (srv : string) (found : ToolDefinition.t) :
  ManifestManager.scan q es = Some (srv, found) -> ToolDefinition.name found = q.
Proof.
  induction es as [| [name entry] r IH]; simpl; [discriminate |].
  destruct (ManifestManager.find_tool q entry) as [t |] eqn:E; [| exact IH].
  intros [= _ <-]. unfold ManifestManager.find_tool in E.
  destruct (ManifestManager.tools entry) as [ts |]; [| discriminate].
  exact (find_named ToolDefinition.name q ts t E).
Qed.

(** X25.  Name resolution.  A name with a dot is split at its first dot
    into server and tool, whatever the manifest and the manager hold; the
    tool part may itself contain dots.  A name without a dot is looked up
    in the manifest cache first and is then routed to the cached server,
    running or not; without a cached tool of that name it is routed to the
    first running server in the order of [list()], whether or not that
    server has such a tool; with no running server it is not resolved.  The
    tool name passed on is always the name asked for. *)
Theorem resolveToolName_precedence (r : t) :
  (forall srv tl, ~ In "."%char (list_ascii_of_string srv) ->
     resolveToolName r (srv ++ String "." tl) = Some (srv, tl))
  /\ (forall q, ~ In "."%char (list_ascii_of_string q) ->
        resolveToolName r q
        = match ManifestManager.findTool (manifest r) q with
          | Some (srv, _) => Some (srv, q)
          | None =>
              option_map (fun st => (ServerState.name st, q))
                (find (fun st => ServerStatus.eqb (ServerState.status st)
                                   ServerStatus.running)
                   (ServerManager.list (serverManager r)))
          end).
Proof.
  split.
  - intros srv tl Hdot. unfold resolveToolName. rewrite indexOf_first by assumption.
    destruct (Z.eqb_spec (Z.of_nat (String.length srv)) (-1)) as [? | _]; [lia |].
    cbn [negb]. rewrite str_slice_before, str_slice_after. reflexivity.
  - intros q Hdot. unfold resolveToolName. rewrite indexOf_absent by assumption.
    cbn [Z.eqb Z.opp Pos.eqb negb].
    destruct (ManifestManager.findTool (manifest r) q) as [[srv found] |] eqn:E.
    + unfold ManifestManager.findTool in E. rewrite indexOf_absent in E by assumption.
      cbn [Z.eqb Z.opp Pos.eqb] in E. rewrite (scan_named q _ srv found E). reflexivity.
    + destruct (find _ (ServerManager.list (serverManager r))); reflexivity.
Qed.

(** X26.  What a returned [invoke] guarantees.  When [invoke] returns, the
    name was resolved to the server and tool of the result, the guard
    permitted the tool, the server is running, the result and duration are
    those of the client call, and exactly one audit entry was recorded for
    it: an invocation of that server and tool with the arguments redacted,
    the duration, and the outcome [failure] when the result is flagged
    [isError] and [success] otherwise. *)
Theorem invoke_returns_permitted_calls (r : t) (qualifiedName : string)
  (args : option (JSObject.t Json.value)) (now : string) (call : call_outcome)
  (elapsed : Z) (rr : RouteResult) :
  snd (invoke r qualifiedName args now call elapsed) = Ret rr ->
  resolveToolName r qualifiedName = Some (server rr, tool rr)
  /\ PermissionGuard.checkToolPermission (guard r) (tool rr) None
     = Ret {| PermissionGuard.allowed := true; PermissionGuard.reason := None |}
  /\ ServerManager.getClient (serverManager r) (server rr) <> None
  /\ call = Returned (result rr)
  /\ durationMs rr = elapsed
  /\ fst (invoke r qualifiedName args now call elapsed)
     = with_audit r
         (AuditLog.record (audit r)
            {| AuditLog.timestamp := now; AuditLog.server := server rr;
               AuditLog.tool := tool rr; AuditLog.action := AuditLog.invoke;
               AuditLog.arguments := AuditLog.redactSensitive args;
               AuditLog.result :=
                 Some (if match isError (result rr) with Some true => true | _ => false end
                       then AuditLog.failure else AuditLog.success);
               AuditLog.reason := None; AuditLog.durationMs := Some elapsed |}).
Proof.
  unfold invoke.
  destruct (resolveToolName r qualifiedName) as [[srv toolName] |]; [| discriminate].
  destruct (PermissionGuard.checkToolPermission (guard r) toolName None)
    as [perm | text] eqn:Eperm; [| discriminate].
  destruct (PermissionGuard.allowed perm) eqn:Eallowed; cbn [negb]; [| discriminate].
  destruct (ServerManager.getClient (serverManager r) srv) as [c |] eqn:Eclient;
    [| discriminate].
  destruct call as [res | text]; [| discriminate].
  cbn [fst snd]. intros [= <-]. cbn [server tool result durationMs].
  split; [reflexivity |]. split.
  { assert (Hreason : PermissionGuard.reason perm = None).
    { unfold PermissionGuard.checkToolPermission in Eperm.
      destruct (List.length (PermissionGuard.rules (guard r)) =? 0)%nat;
        [injection Eperm as <-; reflexivity |].
      destruct (PermissionGuard.findMatchingRule (guard r) toolName) as [[m |] | ];
        try discriminate Eperm;
        [| injection Eperm as <-; discriminate Eallowed].
      destruct (negb (PermissionGuard.allow m));
        [injection Eperm as <-; discriminate Eallowed |].
      injection Eperm as <-. reflexivity. }
    destruct perm as [a rs]. cbn in Eallowed, Hreason. subst. exact Eperm. }
  split; [rewrite Eclient; discriminate |]. split; [reflexivity |].
  split; [reflexivity |].
  unfold AuditLog.logInvocation. destruct (isError res) as [[|] |]; reflexivity.
Qed.

Lemma invoke_returns_permitted_calls_witness :
  let sm := fst (ServerManager.start ServerManager.new (stdio_config "fs") connects) in
  let r := {| serverManager := sm; manifest := ManifestManager.empty;
              guard := PermissionGuard.new; audit := AuditLog.new None |} in
  let res := {| content := []; isError := Some true |} in
  let out := invoke r "fs.read" (Some [("token", Json.JString "s3cr3t")]) "t0"
               (Returned res) 12 in
  map AuditLog.arguments (AuditLog.entries (audit (fst out)))
  = [Some [("token", AuditLog.REDACTED)]]
  /\ map AuditLog.result (AuditLog.entries (audit (fst out))) = [Some AuditLog.failure].
Proof.
  intros sm r res out.
  destruct (invoke_returns_permitted_calls r "fs.read"
              (Some [("token", Json.JString "s3cr3t")]) "t0" (Returned res) 12
              {| server := "fs"; tool := "read"; result := res; durationMs := 12 |}
              eq_refl) as [_ [_ [_ [_ [_ H]]]]].
  fold out in H. rewrite H. split; reflexivity.
Defined.

(** X27.  A denied call.  When the guard denies the resolved tool, [invoke]
    throws [Permission denied] with the guard's reason and records one
    denial for the resolved server and tool, without arguments.  The client
    is not consulted: the outcome is the same whatever the call would have
    done and whatever the arguments are.  This holds whether or not the
    server is running, since the permission check comes first. *)
Theorem denied_call_is_audited_not_made (r : t) (qualifiedName : string)
  (args : option (JSObject.t Json.value)) (now : string) (call : call_outcome)
  (elapsed : Z) (srv toolName : string) (perm : PermissionGuard.PermissionCheckResult) :
  resolveToolName r qualifiedName = Some (srv, toolName) ->
  PermissionGuard.checkToolPermission (guard r) toolName None = Ret perm ->
  PermissionGuard.allowed perm = false ->
  (exists text,
     PermissionGuard.reason perm = Some text
     /\ invoke r qualifiedName args now call elapsed
        = (with_audit r (AuditLog.logDenial now (audit r) srv toolName text),
           Throw ("Permission denied: " ++ text)))
  /\ (forall args' call' elapsed',
        invoke r qualifiedName args' now call' elapsed'
        = invoke r qualifiedName args now call elapsed).
Proof.
  intros Hres Hperm Hdenied.
  assert (Hreason : exists text, PermissionGuard.reason perm = Some text).
  { unfold PermissionGuard.checkToolPermission in Hperm.
    destruct (List.length (PermissionGuard.rules (guard r)) =? 0)%nat;
      [injection Hperm as <-; discriminate Hdenied |].
    destruct (PermissionGuard.findMatchingRule (guard r) toolName) as [[m |] | ];
      try discriminate Hperm; [| injection Hperm as <-; eexists; reflexivity].
    destruct (negb (PermissionGuard.allow m));
      [injection Hperm as <-; eexists; reflexivity |].
    destruct (PermissionGuard.scopes m); injection Hperm as <-; discriminate Hdenied. }
  destruct Hreason as [text Htext].
  assert (Hinvoke : forall args0 call0 elapsed0,
            invoke r qualifiedName args0 now call0 elapsed0
            = (with_audit r (AuditLog.logDenial now (audit r) srv toolName text),
               Throw ("Permission denied: " ++ text))).
  { intros args0 call0 elapsed0. unfold invoke. rewrite Hres, Hperm, Hdenied.
    cbn [negb]. unfold log_denial, reason_text. rewrite Htext. reflexivity. }
  split.
  - exists text. split; [exact Htext |]. apply Hinvoke.
  - intros args' call' elapsed'. rewrite !Hinvoke. reflexivity.
Qed.

Lemma denied_call_is_audited_not_made_witness :
  let r := {| serverManager := ServerManager.new; manifest := ManifestManager.empty;
              guard := PermissionGuard.loadRules PermissionGuard.new
                         [{| PermissionGuard.tool := "rm"; PermissionGuard.allow := false;
                             PermissionGuard.scopes := None |}];
              audit := AuditLog.new None |} in
  exists text,
    snd (invoke r "fs.rm" None "t0" (Thrown "never") 0) = Throw ("Permission denied: " ++ text).
Proof.
  intros r.
  destruct (denied_call_is_audited_not_made r "fs.rm" None "t0" (Thrown "never") 0
              "fs" "rm" _ eq_refl eq_refl eq_refl) as [[text [_ H]] _].
  exists text. rewrite H. reflexivity.
Defined.

End Router.

Section Listing.
Import ToolRouter.

Local Abbreviation tagged st tools := (map (pair (ServerState.name st)) tools).

Lemma listAllTools_step_spec (now : string)
  (listing : N -> option (Datatypes.list ToolDefinition.t)) (sm : ServerManager.t)
  (mf : ManifestManager.GolemManifest)
  (found : Datatypes.list (string * ToolDefinition.t)) (st : ServerState.t) :
  listAllTools_step now listing sm (mf, found) st
  = match tools_listed sm listing st with
    | Some tools =>
        (match ManifestManager.updateTools now mf (ServerState.name st) tools with
         | Ret mf' => mf'
         | Throw _ => mf
         end, (found ++ tagged st tools)%list)
    | None => (mf, found)
    end.
Proof.
  unfold listAllTools_step, tools_listed.
  destruct (ServerStatus.eqb (ServerState.status st) ServerStatus.running);
    cbn [negb]; [| reflexivity].
  destruct (ServerManager.getClient sm (ServerState.name st)) as [c |]; [| reflexivity].
  destruct (listing c) as [tools |]; [| reflexivity].
  destruct (ManifestManager.updateTools now mf (ServerState.name st) tools); reflexivity.
Qed.

Lemma keys_define_present {V : Type} (k : string) (v : V) (o : JSObject.t V) :
  JSObject.get k o <> None -> map fst (JSObject.define k v o) = map fst o.
Proof.
  induction o as [| [k' v'] r IH]; simpl; [intros H; contradiction H; reflexivity |].
  destruct (String.eqb k k'); simpl; [reflexivity |].
  intros H. rewrite IH by exact H. reflexivity.
Qed.

(** One cache update: the server names of the manifest stay, the entry of
    any other server stays, and a present entry stays present with its
    config. *)
Lemma update_step_frame (now : string) (mf : ManifestManager.GolemManifest)
  (name : string) (tools : Datatypes.list ToolDefinition.t) :
  let mf' := match ManifestManager.updateTools now mf name tools with
             | Ret mf' => mf'
             | Throw _ => mf
             end in
  ManifestManager.version mf' = ManifestManager.version mf
  /\ map fst (ManifestManager.servers mf') = map fst (ManifestManager.servers mf)
  /\ (forall other, other <> name ->
        JSObject.get other (ManifestManager.servers mf')
        = JSObject.get other (ManifestManager.servers mf))
  /\ (forall entry,
        JSObject.get name (ManifestManager.servers mf) = Some entry ->
        exists entry',
          JSObject.get name (ManifestManager.servers mf') = Some entry'
          /\ ManifestManager.tools entry' = Some tools
          /\ ManifestManager.config entry' = ManifestManager.config entry).
Proof.
  unfold ManifestManager.updateTools.
  destruct (JSObject.get name (ManifestManager.servers mf)) as [entry |] eqn:E;
    cbn [ManifestManager.version ManifestManager.servers].
  - split; [reflexivity |].
    split; [apply keys_define_present; rewrite E; discriminate |].
    split; [intros other Hne; apply get_define_other; exact Hne |].
    intros entry0 [= <-]. eexists. rewrite get_define_same.
    split; [reflexivity | split; reflexivity].
  - split; [reflexivity |]. split; [reflexivity |]. split; [reflexivity | discriminate].
Qed.

Lemma listAllTools_fold (now : string)
  (listing : N -> option (Datatypes.list ToolDefinition.t)) (sm : ServerManager.t)
  (states : Datatypes.list ServerState.t) (mf : ManifestManager.GolemManifest)
  (found : Datatypes.list (string * ToolDefinition.t)) :
  let out := fold_left (listAllTools_step now listing sm) states (mf, found) in
  snd out
  = (found ++ flat_map (fun st => match tools_listed sm listing st with
                                  | Some tools => tagged st tools
                                  | None => []
                                  end) states)%list
  /\ ManifestManager.version (fst out) = ManifestManager.version mf
  /\ map fst (ManifestManager.servers (fst out)) = map fst (ManifestManager.servers mf)
  /\ (forall n, ~ In n (map ServerState.name states) ->
        JSObject.get n (ManifestManager.servers (fst out))
        = JSObject.get n (ManifestManager.servers mf))
  /\ (forall n entry,
        JSObject.get n (ManifestManager.servers mf) = Some entry ->
        exists entry',
          JSObject.get n (ManifestManager.servers (fst out)) = Some entry'
          /\ ManifestManager.config entry' = ManifestManager.config entry).
Proof.
  revert mf found. induction states as [| st rest IH]; intros mf found.
  - cbn [fold_left flat_map fst snd]. rewrite app_nil_r.
    split; [reflexivity |]. split; [reflexivity |]. split; [reflexivity |].
    split; [reflexivity |]. intros n entry H. exists entry. split; [exact H | reflexivity].
  - cbn [fold_left flat_map map]. rewrite listAllTools_step_spec.
    destruct (tools_listed sm listing st) as [tools |].
    + destruct (update_step_frame now mf (ServerState.name st) tools)
        as [Hv [Hk [Hother Hsame]]].
      destruct (IH match ManifestManager.updateTools now mf (ServerState.name st) tools with
                   | Ret mf' => mf'
                   | Throw _ => mf
                   end (found ++ tagged st tools)%list) as [H1 [H2 [H3 [H4 H5]]]].
      split; [rewrite H1, <- app_assoc; reflexivity |].
      split; [rewrite H2; exact Hv |]. split; [rewrite H3; exact Hk |].
      split.
      * intros n Hn. rewrite H4 by (intros Hin; apply Hn; right; exact Hin).
        apply Hother. intros ->. apply Hn. left; reflexivity.
      * intros n entry Hentry.
        destruct (String.eqb_spec n (ServerState.name st)) as [-> | Hne].
        -- destruct (Hsame entry Hentry) as [e1 [He1 [_ Hc1]]].
           destruct (H5 _ _ He1) as [e2 [He2 Hc2]].
           exists e2. split; [exact He2 | congruence].
        -- apply H5. rewrite Hother by assumption. exact Hentry.
    + destruct (IH mf found) as [H1 [H2 [H3 [H4 H5]]]].
      split; [exact H1 |]. split; [exact H2 |]. split; [exact H3 |].
      split; [| exact H5].
      intros n Hn. apply H4. intros Hin. apply Hn. right; exact Hin.
Qed.

(** X28.  [listAllTools].  The result holds, in the order of [list()], the
    tools listed by the client of every running server whose listing
    succeeds, each with its server's name, and does not depend on the
    manifest: the tools of a running server that the manifest does not know
    are returned all the same.  The call changes neither the manager, the
    guard nor the audit log, and neither adds a server to the manifest nor
    removes one.  In a manager produced by the public methods, every server
    that is known to the manifest and whose tools were listed has exactly
    those tools cached afterwards, with its config unchanged. *)
Theorem listAllTools_lists_and_caches (r : t) (now : string)
  (listing : N -> option (Datatypes.list ToolDefinition.t)) :
  reachable (serverManager r) ->
  let out := listAllTools r now listing in
  snd out
  = flat_map (fun st => match tools_listed (serverManager r) listing st with
                        | Some tools => map (pair (ServerState.name st)) tools
                        | None => []
                        end) (ServerManager.list (serverManager r))
  /\ serverManager (fst out) = serverManager r
  /\ guard (fst out) = guard r
  /\ audit (fst out) = audit r
  /\ map fst (ManifestManager.servers (manifest (fst out)))
     = map fst (ManifestManager.servers (manifest r))
  /\ (forall st tools entry,
        In st (ServerManager.list (serverManager r)) ->
        tools_listed (serverManager r) listing st = Some tools ->
        JSObject.get (ServerState.name st) (ManifestManager.servers (manifest r))
        = Some entry ->
        exists entry',
          JSObject.get (ServerState.name st) (ManifestManager.servers (manifest (fst out)))
          = Some entry'
          /\ ManifestManager.tools entry' = Some tools
          /\ ManifestManager.config entry' = ManifestManager.config entry).
Proof.
  intros Hreach out.
  assert (Hnd : NoDup (map ServerState.name (ServerManager.list (serverManager r)))).
  { rewrite (keys_of_wf _ (reachable_wf _ Hreach)). apply (reachable_quiet _ Hreach). }
  unfold out, listAllTools.
  destruct (listAllTools_fold now listing (serverManager r)
              (ServerManager.list (serverManager r)) (manifest r) [])
    as [H1 [_ [H3 _]]].
  destruct (fold_left (listAllTools_step now listing (serverManager r))
              (ServerManager.list (serverManager r)) (manifest r, [])) as [mf found] eqn:E.
  cbn [fst snd serverManager manifest guard audit] in *.
  split; [exact H1 |]. split; [reflexivity |]. split; [reflexivity |].
  split; [reflexivity |]. split; [exact H3 |].
  intros st tools entry Hin Hlisted Hentry.
  apply in_split in Hin. destruct Hin as [pre [post Hsplit]].
  rewrite Hsplit in E, Hnd. rewrite fold_left_app in E. cbn [fold_left] in E.
  destruct (fold_left (listAllTools_step now listing (serverManager r)) pre (manifest r, []))
    as [mf1 found1] eqn:E1.
  destruct (listAllTools_fold now listing (serverManager r) pre (manifest r) [])
    as [_ [_ [_ [_ Hpre]]]].
  rewrite E1 in Hpre. cbn [fst] in Hpre.
  destruct (Hpre _ _ Hentry) as [e1 [He1 Hc1]].
  rewrite listAllTools_step_spec, Hlisted in E.
  destruct (update_step_frame now mf1 (ServerState.name st) tools) as [_ [_ [_ Hsame]]].
  destruct (Hsame e1 He1) as [e2 [He2 [Ht2 Hc2]]].
  destruct (listAllTools_fold now listing (serverManager r) post
              match ManifestManager.updateTools now mf1 (ServerState.name st) tools with
              | Ret mf' => mf'
              | Throw _ => mf1
              end (found1 ++ map (pair (ServerState.name st)) tools)%list)
    as [_ [_ [_ [Hpost _]]]].
  rewrite E in Hpost. cbn [fst] in Hpost.
  exists e2. rewrite Hpost.
  - split; [exact He2 |]. split; [exact Ht2 | congruence].
  - rewrite map_app in Hnd. cbn [map] in Hnd. apply NoDup_remove_2 in Hnd.
    intros Hin. apply Hnd. apply in_or_app. right. exact Hin.
Qed.

Lemma listAllTools_lists_and_caches_witness :
  let sm := fst (ServerManager.startAll ServerManager.new
                   [(stdio_config "a", connects); (stdio_config "b", connects)]) in
  let r := {| serverManager := sm;
              manifest := ManifestManager.addServer ManifestManager.empty (stdio_config "b");
              guard := PermissionGuard.new; audit := AuditLog.new None |} in
  let out := listAllTools r "t0" (fun c => Some [tool_named (JS.string_of_N c)]) in
  snd out = [("a", tool_named "0"); ("b", tool_named "1")]
  /\ map fst (ManifestManager.servers (manifest (fst out))) = ["b"].
Proof.
  intros sm r out.
  destruct (listAllTools_lists_and_caches r "t0"
              (fun c => Some [tool_named (JS.string_of_N c)])
              (reach_startAll _ _ reach_new)) as [H1 [_ [_ [_ [H5 _]]]]].
  fold out in H1, H5. split; [rewrite H1; reflexivity | rewrite H5; reflexivity].
Defined.

End Listing.

(** ** StdioTransport: the line buffer *)

Section LineBuffer.
Import StdioTransport.







End LineBuffer.

Section Isolation.
Import MCPProtocol.

(** X30.  Requests do not interfere.  The timer of a request, the
    settlement of its send and a response carrying its id change nothing
    about any other request: the other request's promise, pending entry
    and timer are as before, and no id is allocated. *)
Theorem requests_do_not_interfere (p : t) (i j : Z) (ev : event) :
  i <> j ->
  ev = TimerFires j
  \/ (exists failure, ev = SendSettles j failure)
  \/ (exists result error, ev = Receives (Response (IdNumber j) result error)) ->
  promise_of (fst (step p ev)) i = promise_of p i
  /\ JSMap.get Z.eqb i (pending (fst (step p ev))) = JSMap.get Z.eqb i (pending p)
  /\ JSMap.get Z.eqb i (timers (fst (step p ev))) = JSMap.get Z.eqb i (timers p)
  /\ nextId (fst (step p ev)) = nextId p.
Proof.
  intros Hne Hev.
  assert (Hdel : forall o,
    let p' := {| nextId := nextId p; pending := JSMap.delete Z.eqb j (pending p);
                 initialized := initialized p; timeout := timeout p;
                 timers := JSMap.delete Z.eqb j (timers p); sending := sending p;
                 promises := settle j o (promises p) |} in
    promise_of p' i = promise_of p i
    /\ JSMap.get Z.eqb i (pending p') = JSMap.get Z.eqb i (pending p)
    /\ JSMap.get Z.eqb i (timers p') = JSMap.get Z.eqb i (timers p)
    /\ nextId p' = nextId p).
  { intros o p'. unfold p', promise_of. cbn [nextId pending timers promises].
    rewrite !zget_delete, settle_other by assumption.
    destruct (Z.eqb_spec i j); [contradiction | repeat split]. }
  destruct Hev as [-> | [[failure ->] | [result [error ->]]]]; cbn [step].
  - unfold on_timeout. destruct (JSMap.get Z.eqb j (timers p));
      [apply Hdel | repeat split].
  - unfold on_send_settled. destruct (existsb (Z.eqb j) (sending p)); [| repeat split].
    destruct failure as [err |]; [exact (Hdel (Rejected err)) | repeat split].
  - cbn [handleMessage]. unfold handle_response.
    destruct (JSMap.get Z.eqb j (pending p)); [apply Hdel | repeat split].
Qed.

Lemma requests_do_not_interfere_witness :
  let p := fst (run (new None) [CallRequest "a" None; CallRequest "b" None]) in
  promise_of (fst (step p (TimerFires 2))) 1 = Some Pending
  /\ JSMap.get Z.eqb 1 (pending (fst (step p (TimerFires 2)))) = Some "a".
Proof.
  intros p.
  destruct (requests_do_not_interfere p 1 2 (TimerFires 2) ltac:(discriminate)
              (or_introl eq_refl)) as [H1 [H2 _]].
  split; [rewrite H1; reflexivity | rewrite H2; reflexivity].
Defined.

End Isolation.
